(** * The trace processor of lighthouse-core

    A shallow embedding of [lighthouse-core/lib/traces/tracing-processor.js]:
    the reconstruction of the main-thread task tree from trace events, the
    recursive metric passes over that tree, the extraction of top-level
    scheduler tasks and the percentile estimator of the risk to
    responsiveness.

    Numbers.  A JavaScript number is modelled by [num]: a rational for a
    finite value, and the three special values [NaN], [PosInf] and
    [NegInf].  Finite arithmetic is exact: the rounding of doubles and
    the sign of zero are not modelled.  Timestamps and durations that are
    decoded from a trace are finite, and carry the type [Q].  The
    theorems on computed numbers therefore give a number as the
    expression by which the code computes it, or compare numbers; what
    rounding does to the time fields of the tasks is computed apart, on
    doubles, in the module [Doubles].

    Objects.  Task nodes are mutable objects that reference each other
    ([parent], [children]).  Every node is pushed on the [tasks] array
    right when it is created, so that array doubles as the store: a
    reference to a node is its index in [tasks]. *)

From Stdlib Require Import QArith Qabs Qminmax ZArith String Bool Lia Lqa.
From Stdlib Require Floats.
From stdpp Require Import base tactics option list strings sorting.

(** * The model *)

(** ** JavaScript numbers *)

Inductive num : Type :=
  | NaN
  | NegInf
  | Fin (q : Q)
  | PosInf.

Definition Qltb (a b : Q) : bool := negb (Qle_bool b a).

Definition num_add (a b : num) : num :=
  match a, b with
  | NaN, _ | _, NaN => NaN
  | Fin x, Fin y => Fin (x + y)
  | PosInf, NegInf | NegInf, PosInf => NaN
  | PosInf, _ | _, PosInf => PosInf
  | NegInf, _ | _, NegInf => NegInf
  end.

Definition num_opp (a : num) : num :=
  match a with
  | NaN => NaN
  | NegInf => PosInf
  | Fin x => Fin (- x)
  | PosInf => NegInf
  end.

Definition num_sub (a b : num) : num := num_add a (num_opp b).

(** [a / b]; a finite zero divisor is the positive zero. *)
Definition num_div (a b : num) : num :=
  match a, b with
  | NaN, _ | _, NaN => NaN
  | Fin x, Fin y =>
      if Qeq_bool y 0
      then (if Qeq_bool x 0 then NaN else if Qltb 0 x then PosInf else NegInf)
      else Fin (x / y)
  | Fin _, _ => Fin 0
  | PosInf, Fin y => if Qltb y 0 then NegInf else PosInf
  | NegInf, Fin y => if Qltb y 0 then PosInf else NegInf
  | _, _ => NaN
  end.

(** [Number.isFinite] *)
Definition isFinite (a : num) : bool :=
  match a with Fin _ => true | _ => false end.

(** [a <= b] and [a < b] of JavaScript: false as soon as one side is NaN. *)
Definition num_leb (a b : num) : bool :=
  match a, b with
  | NaN, _ | _, NaN => false
  | NegInf, _ => true
  | _, PosInf => true
  | Fin x, Fin y => Qle_bool x y
  | _, _ => false
  end.

Definition num_ltb (a b : num) : bool :=
  match a, b with
  | NaN, _ | _, NaN => false
  | Fin x, Fin y => Qltb x y
  | PosInf, _ => false
  | _, NegInf => false
  | _, _ => true
  end.

(** [Math.max(a, b)] *)
Definition Math_max (a b : num) : num :=
  match a, b with
  | NaN, _ | _, NaN => NaN
  | _, _ => if num_leb a b then b else a
  end.

(** Two numbers denote the same value. *)
Definition num_eq (a b : num) : Prop :=
  match a, b with
  | NaN, NaN | NegInf, NegInf | PosInf, PosInf => True
  | Fin x, Fin y => (x == y)%Q
  | _, _ => False
  end.

(** ** Thrown values and outcomes *)

Inductive Error : Type :=
  | LHError_NO_TRACING_STARTED
  | TypeError
  | JsError (message : string).

(** The outcome of a call: a value, a thrown error, or [Stuck] when the
    model ran out of fuel or followed a reference that is not in the
    store.  The code has no counterpart of [Stuck]; the theorems below
    show that it does not arise. *)
Inductive result (A : Type) : Type :=
  | Ok (a : A)
  | Throw (e : Error)
  | Stuck.
Arguments Ok {A} a.
Arguments Throw {A} e.
Arguments Stuck {A}.

#[global] Instance result_ret : MRet result := fun A a => Ok a.
#[global] Instance result_bind : MBind result := fun A B f m =>
  match m with
  | Ok a => f a
  | Throw e => Throw e
  | Stuck => Stuck
  end.

Definition of_option {A} (o : option A) : result A :=
  match o with Some a => Ok a | None => Stuck end.

(** ** Trace events *)

Record StackFrame : Type := { sf_url : option string }.

Record FrameDesc : Type := {
  frame : string;
  fparent : option string;
  processId : option Z
}.

Record ArgsData : Type := {
  url : option string;
  stackTrace : option (list StackFrame);
  frames : option (list FrameDesc);
  page : option string
}.

Record Args : Type := {
  data : option ArgsData;
  args_name : option string
}.

Record TraceEvent : Type := {
  name : string;
  cat : string;
  ph : string;
  pid : Z;
  tid : Z;
  ts : Q;
  dur : option Q;
  args : Args
}.

(** Truthiness of an optional string: [undefined] and the empty string
    are falsy. *)
Definition truthy (o : option string) : bool :=
  match o with
  | Some s => negb (bool_decide (s = ""))
  | None => false
  end.

(** [a || b] on optional strings *)
Definition js_or (a b : option string) : option string :=
  if truthy a then a else b.

(** ** Constants *)

Definition BASE_RESPONSE_LATENCY : Q := 16.
Definition SCHEDULABLE_TASK_TITLE : string :=
  "TaskQueueManager::ProcessTaskFromWorkQueue".
Definition SCHEDULABLE_TASK_TITLE_ALT : string :=
  "ThreadControllerImpl::DoWork".

(** ** Locating the main thread: [findTracingStartedEvt] *)

Definition isThreadNameEvt (p : Z) (e : TraceEvent) : bool :=
  bool_decide (pid e = p) && bool_decide (ph e = "M") &&
  bool_decide (cat e = "__metadata") && bool_decide (name e = "thread_name") &&
  bool_decide (args_name (args e) = Some "CrRendererMain").

Definition findTracingStartedEvt (events : list TraceEvent)
  : result (TraceEvent * option string) :=
  let startedInBrowserEvt :=
    find (fun e => bool_decide (name e = "TracingStartedInBrowser")) events in
  let synthesized : option TraceEvent :=
    sib ← startedInBrowserEvt;
    d ← data (args sib);
    fs ← frames d;
    mainFrame ← find (fun f => negb (truthy (fparent f))) fs;
    p ← processId mainFrame;
    threadNameEvt ← find (isThreadNameEvt p) events;
    Some {| name := "TracingStartedInPage"; cat := cat sib; ph := ph sib;
            pid := p; tid := tid threadNameEvt; ts := ts sib; dur := dur sib;
            args := {| data := Some {| url := None; stackTrace := None;
                                       frames := None;
                                       page := Some (frame mainFrame) |};
                       args_name := None |} |} in
  let startedInPageEvt :=
    match synthesized with
    | Some e => Some e
    | None => find (fun e => bool_decide (name e = "TracingStartedInPage")) events
    end in
  match startedInPageEvt with
  | None => Throw LHError_NO_TRACING_STARTED
  | Some e =>
      match data (args e) with
      | None => Throw TypeError
      | Some d => Ok (e, page d)
      end
  end.

(** ** Top-level events: [getMainThreadTopLevelEvents] *)

Record ToplevelEvent : Type := {
  start : Q;
  end_ : Q;
  tl_duration : Q
}.

Record TraceOfTab : Type := {
  mainThreadEvents : list TraceEvent;
  navigationStartEvt : TraceEvent
}.

Definition isScheduleableTask (evt : TraceEvent) : bool :=
  bool_decide (name evt = SCHEDULABLE_TASK_TITLE) ||
  bool_decide (name evt = SCHEDULABLE_TASK_TITLE_ALT).

(** The value of [event.dur] when it is truthy: defined and not zero. *)
Definition truthy_dur (e : TraceEvent) : option Q :=
  match dur e with
  | Some d => if Qeq_bool d 0 then None else Some d
  | None => None
  end.

(** One round of the loop over [mainThreadEvents]: the record that is
    pushed, or [None] when the round ends in [continue]. *)
Definition toplevel_of (tabTrace : TraceOfTab) (startTime endTime : num)
    (e : TraceEvent) : option ToplevelEvent :=
  if negb (isScheduleableTask e) then None
  else match truthy_dur e with
  | None => None
  | Some d =>
      let start := ((ts e - ts (navigationStartEvt tabTrace)) / 1000)%Q in
      let end_ := ((ts e + d - ts (navigationStartEvt tabTrace)) / 1000)%Q in
      if num_ltb endTime (Fin start) || num_ltb (Fin end_) startTime then None
      else Some {| start := start; end_ := end_; tl_duration := (d / 1000)%Q |}
  end.

Definition getMainThreadTopLevelEvents (tabTrace : TraceOfTab)
    (startTime endTime : num) : result (list ToplevelEvent) :=
  let topLevelEvents :=
    omap (toplevel_of tabTrace startTime endTime) (mainThreadEvents tabTrace) in
  if bool_decide (length topLevelEvents = 0)
  then Throw (JsError "Could not find any top level events")
  else Ok topLevelEvents.

(** The call with both optional arguments left out: [startTime = 0],
    [endTime = Infinity]. *)
Definition getMainThreadTopLevelEvents_default (tabTrace : TraceOfTab)
  : result (list ToplevelEvent) :=
  getMainThreadTopLevelEvents tabTrace (Fin 0) PosInf.

(** ** Durations in a window: [getMainThreadTopLevelEventDurations] *)

#[global] Instance Qle_dec : RelDecision Qle := fun x y =>
  match Qlt_le_dec y x with
  | left H => right (Qlt_not_le _ _ H)
  | right H => left H
  end.

(** [array.sort((a, b) => a - b)] on finite numbers: the ascending
    stable sort. *)
Definition sort_ascending (l : list Q) : list Q := merge_sort Qle l.

Fixpoint durations_loop (startTime endTime : Q) (events : list ToplevelEvent)
    (durations : list Q) (clippedLength : Q) : list Q * Q :=
  match events with
  | [] => (durations, clippedLength)
  | event :: rest =>
      if Qltb (end_ event) startTime || Qltb endTime (start event)
      then durations_loop startTime endTime rest durations clippedLength
      else
        let '(eventStart, duration) :=
          if Qltb (start event) startTime
          then (startTime, (end_ event - startTime)%Q)
          else (start event, tl_duration event) in
        let clippedLength :=
          if Qltb endTime (end_ event)
          then (duration - (endTime - eventStart))%Q
          else clippedLength in
        durations_loop startTime endTime rest (durations ++ [duration])
                       clippedLength
  end.

Definition getMainThreadTopLevelEventDurations
    (topLevelEvents : list ToplevelEvent) (startTime endTime : Q)
  : list Q * Q :=
  let '(durations, clippedLength) :=
    durations_loop startTime endTime topLevelEvents [] 0%Q in
  (sort_ascending durations, clippedLength).

(** ** The percentile estimator: [_riskPercentiles] *)

Record RiskEntry : Type := {
  percentile : Q;
  time : num
}.

(** The variables of the walk over the durations. *)
Record Walk : Type := {
  completedTime : Q;
  w_duration : Q;
  cdfTime : Q;
  durationIndex : Z;
  remainingCount : Z;
  clippedLength : Q
}.

(** [durations[i]], for an index within bounds. *)
Definition at_index (durations : list Q) (i : Z) : Q :=
  nth (Z.to_nat i) durations 0%Q.

(** The body of the [while] loop. *)
Definition walk_step (durations : list Q) (s : Walk) : Walk :=
  let completedTime := (completedTime s + w_duration s)%Q in
  let remainingCount :=
    (remainingCount s - (if Qltb (w_duration s) 0 then -1 else 1))%Z in
  let '(duration, clippedLength, durationIndex) :=
    if Qltb 0 (clippedLength s) &&
       Qltb (clippedLength s) (at_index durations (durationIndex s + 1))
    then ((- clippedLength s)%Q, 0%Q, durationIndex s)
    else (at_index durations (durationIndex s + 1), clippedLength s,
          (durationIndex s + 1)%Z) in
  {| completedTime := completedTime;
     w_duration := duration;
     cdfTime := (completedTime + Qabs duration * inject_Z remainingCount)%Q;
     durationIndex := durationIndex;
     remainingCount := remainingCount;
     clippedLength := clippedLength |}.

(** The guard of the [while] loop. *)
Definition walk_guard (durations : list Q) (percentileTime : Q) (s : Walk)
  : bool :=
  Qltb (cdfTime s) percentileTime &&
  (durationIndex s <? Z.of_nat (length durations) - 1)%Z.

Fixpoint walk (fuel : nat) (durations : list Q) (percentileTime : Q)
    (s : Walk) : option Walk :=
  if walk_guard durations percentileTime s
  then match fuel with
       | O => None
       | S fuel' => walk fuel' durations percentileTime (walk_step durations s)
       end
  else Some s.

(** The value pushed for one percentile once the walk has stopped. *)
Definition risk_time (percentileTime : Q) (s : Walk) : num :=
  num_add
    (Math_max (Fin 0)
       (num_div (Fin (percentileTime - completedTime s))
                (Fin (inject_Z (remainingCount s)))))
    (Fin BASE_RESPONSE_LATENCY).

(** The loop over the percentiles; the walk is resumed, never restarted. *)
Fixpoint percentiles_loop (durations : list Q) (totalTime : Q)
    (percentiles : list Q) (s : Walk) : option (list RiskEntry) :=
  match percentiles with
  | [] => Some []
  | percentile :: rest =>
      let percentileTime := (percentile * totalTime)%Q in
      s' ← walk (2 * length durations + 1) durations percentileTime s;
      results ← percentiles_loop durations totalTime rest s';
      Some ({| percentile := percentile;
               time := risk_time percentileTime s' |} :: results)
  end.

(** The variables of the walk before the first percentile. *)
Definition walk_init (durations : list Q) (totalTime clippedLength : Q)
  : Walk :=
  let busyTime := (fold_left Qplus durations 0 - clippedLength)%Q in
  let completedTime := (totalTime - busyTime)%Q in
  {| completedTime := completedTime;
     w_duration := 0;
     cdfTime := completedTime;
     durationIndex := -1;
     remainingCount :=
       (if Qltb 0 clippedLength
        then Z.of_nat (length durations) + 1 - 1
        else Z.of_nat (length durations) + 1)%Z;
     clippedLength := clippedLength |}.

Definition _riskPercentiles (durations : list Q) (totalTime : Q)
    (percentiles : list Q) (clippedLength : Q) : result (list RiskEntry) :=
  of_option (percentiles_loop durations totalTime percentiles
               (walk_init durations totalTime clippedLength)).

(** ** [getRiskToResponsiveness] *)

(** The call sorts the array it is given: the array after the call is
    returned next to the result. *)
Definition getRiskToResponsiveness (events : list ToplevelEvent)
    (startTime endTime : Q) (percentiles : list Q)
  : list Q * result (list RiskEntry) :=
  let totalTime := (endTime - startTime)%Q in
  let percentiles := sort_ascending percentiles in
  let '(durations, clippedLength) :=
    getMainThreadTopLevelEventDurations events startTime endTime in
  (percentiles, _riskPercentiles durations totalTime percentiles clippedLength).

(** The call without its optional argument. *)
Definition getRiskToResponsiveness_default (events : list ToplevelEvent)
    (startTime endTime : Q) : result (list RiskEntry) :=
  snd (getRiskToResponsiveness events startTime endTime
         [0.5; 0.75; 0.9; 0.99; 1]%Q).

(** ** Task nodes and the store *)

Section TaskTree.

(** The work categories and the table from event names to categories
    live in [../task-groups], outside this file: they are parameters.
    [taskNameToGroup n] is what the read [taskNameToGroup[n]] of line 138
    gives, [None] when it gives [undefined]; such a read also finds what
    the table object inherits, as for the name ['constructor']. *)
Variable TaskGroup : Type.
Variable taskGroups_Other : TaskGroup.
Variable taskNameToGroup : string -> option TaskGroup.

Record TaskNode : Type := {
  event : TraceEvent;
  startTime : num;
  endTime : num;
  parent : option nat;
  children : list nat;
  group : TaskGroup;
  attributableURL : option string;
  duration : num;
  selfTime : num
}.

Definition set_endTime (v : num) (t : TaskNode) : TaskNode :=
  {| event := event t; startTime := startTime t; endTime := v;
     parent := parent t; children := children t; group := group t;
     attributableURL := attributableURL t; duration := duration t;
     selfTime := selfTime t |}.

Definition push_child (c : nat) (t : TaskNode) : TaskNode :=
  {| event := event t; startTime := startTime t; endTime := endTime t;
     parent := parent t; children := children t ++ [c]; group := group t;
     attributableURL := attributableURL t; duration := duration t;
     selfTime := selfTime t |}.

Definition set_timing (d s : num) (t : TaskNode) : TaskNode :=
  {| event := event t; startTime := startTime t; endTime := endTime t;
     parent := parent t; children := children t; group := group t;
     attributableURL := attributableURL t; duration := d; selfTime := s |}.

Definition set_attributableURL (u : option string) (t : TaskNode) : TaskNode :=
  {| event := event t; startTime := startTime t; endTime := endTime t;
     parent := parent t; children := children t; group := group t;
     attributableURL := u; duration := duration t; selfTime := selfTime t |}.

Definition set_group (g : TaskGroup) (t : TaskNode) : TaskNode :=
  {| event := event t; startTime := startTime t; endTime := endTime t;
     parent := parent t; children := children t; group := g;
     attributableURL := attributableURL t; duration := duration t;
     selfTime := selfTime t |}.

(** The [tasks] array, which is also the store of all task nodes. *)
Abbreviation store := (list TaskNode).

(** ** Reconstruction: [_createTasksFromEvents] *)

(** [Number(event.dur || 0)] *)
Definition dur_or_0 (e : TraceEvent) : Q :=
  match dur e with
  | Some d => if Qeq_bool d 0 then 0%Q else d
  | None => 0%Q
  end.

(** The new node, and the store in which the parent, if any, has got the
    reference [length tasks] of the new node appended to its children:
    that is the index the node gets when the caller pushes it. *)
Definition _createNewTaskNode (tasks : store) (e : TraceEvent)
    (parent : option nat) : TaskNode * store :=
  let newTask :=
    {| event := e;
       startTime := Fin (ts e);
       endTime := if bool_decide (ph e = "X")
                  then Fin (ts e + dur_or_0 e) else NaN;
       parent := parent;
       children := [];
       group := taskGroups_Other;
       attributableURL := None;
       duration := NaN;
       selfTime := NaN |} in
  match parent with
  | Some p => (newTask, alter (push_child (length tasks)) p tasks)
  | None => (newTask, tasks)
  end.

(** The loop [while (currentTask && isFinite(currentTask.endTime) &&
    currentTask.endTime <= event.ts) currentTask = currentTask.parent]. *)
Fixpoint ascend (fuel : nat) (tasks : store) (now : Q)
    (currentTask : option nat) : option (option nat) :=
  match currentTask with
  | None => Some None
  | Some c =>
      t ← tasks !! c;
      if isFinite (endTime t) && num_leb (endTime t) (Fin now)
      then match fuel with
           | O => None
           | S fuel' => ascend fuel' tasks now (parent t)
           end
      else Some (Some c)
  end.

Definition fatal_trace_logic_error {A} : result A :=
  Throw (JsError "Fatal trace logic error").

(** The state of the scan: the [tasks] array and [currentTask]. *)
Abbreviation scan := (list TaskNode * option nat)%type.

(** One round of the loop over [traceEvents]. *)
Definition handle_event (startedInPageEvt : TraceEvent) (st : scan)
    (e : TraceEvent) : result scan :=
  let '(tasks, currentTask) := st in
  if negb (bool_decide (pid e = pid startedInPageEvt)) ||
     negb (bool_decide (tid e = tid startedInPageEvt)) then Ok st
  else if negb (bool_decide (ph e = "X")) && negb (bool_decide (ph e = "B")) &&
          negb (bool_decide (ph e = "E")) then Ok st
  else
    currentTask ← of_option (ascend (length tasks) tasks (ts e) currentTask);
    match currentTask with
    | None =>
        if bool_decide (ph e = "E") then fatal_trace_logic_error
        else
          let '(newTask, tasks) := _createNewTaskNode tasks e None in
          Ok (tasks ++ [newTask], Some (length tasks))
    | Some c =>
        if bool_decide (ph e = "X") || bool_decide (ph e = "B") then
          let '(newTask, tasks) := _createNewTaskNode tasks e (Some c) in
          Ok (tasks ++ [newTask], Some (length tasks))
        else
          t ← of_option (tasks !! c);
          if negb (bool_decide (ph (event t) = "B")) then fatal_trace_logic_error
          else Ok (<[c := set_endTime (Fin (ts e)) t]> tasks, parent t)
    end.

Fixpoint scan_events (startedInPageEvt : TraceEvent) (st : scan)
    (traceEvents : list TraceEvent) : result scan :=
  match traceEvents with
  | [] => Ok st
  | e :: rest =>
      st' ← handle_event startedInPageEvt st e;
      scan_events startedInPageEvt st' rest
  end.

Definition _createTasksFromEvents (traceEvents : list TraceEvent)
  : result store :=
  '(startedInPageEvt, _) ← findTracingStartedEvt traceEvents;
  '(tasks, _) ← scan_events startedInPageEvt ([], None) traceEvents;
  Ok tasks.

(** ** The metric passes *)

(** [children.map(f)], where [f] mutates the store. *)
Fixpoint map_children {A} (f : store -> nat -> option (store * A))
    (h : store) (cs : list nat) : option (store * list A) :=
  match cs with
  | [] => Some (h, [])
  | c :: cs' =>
      '(h1, a) ← f h c;
      '(h2, l) ← map_children f h1 cs';
      Some (h2, a :: l)
  end.

(** [children.forEach(f)] *)
Fixpoint forEach_children (f : store -> nat -> option store)
    (h : store) (cs : list nat) : option store :=
  match cs with
  | [] => Some h
  | c :: cs' => h1 ← f h c; forEach_children f h1 cs'
  end.

(** [.reduce((sum, child) => sum + child, 0)] *)
Definition sum_num (l : list num) : num := fold_left num_add l (Fin 0).

Fixpoint _computeRecursiveSelfTime (fuel : nat) (h : store) (task : nat)
  : option (store * num) :=
  match fuel with
  | O => None
  | S fuel' =>
      t ← h !! task;
      '(h1, durations) ← map_children (_computeRecursiveSelfTime fuel') h
                            (children t);
      let childTime := sum_num durations in
      t1 ← h1 !! task;
      let d := num_sub (endTime t1) (startTime t1) in
      Some (<[task := set_timing d (num_sub d childTime) t1]> h1, d)
  end.

(** The own candidate URL of a node: [argsData.url ||
    (stackFrames[0] && stackFrames[0].url)]. *)
Definition taskURL (e : TraceEvent) : option string :=
  let argsData :=
    default {| url := None; stackTrace := None; frames := None; page := None |}
            (data (args e)) in
  let stackFrames := default [{| sf_url := None |}] (stackTrace argsData) in
  js_or (url argsData)
        (match stackFrames with f :: _ => sf_url f | [] => None end).

Fixpoint _computeRecursiveAttributableURL (fuel : nat) (h : store)
    (task : nat) (parentURL : option string) : option store :=
  match fuel with
  | O => None
  | S fuel' =>
      t ← h !! task;
      let u := js_or parentURL (taskURL (event t)) in
      let h1 := <[task := set_attributableURL u t]> h in
      forEach_children
        (fun h' child => _computeRecursiveAttributableURL fuel' h' child u)
        h1 (children t)
  end.

(** [group || parentGroup || taskGroups.Other]: groups are objects, hence
    truthy whenever they are defined. *)
Definition resolve_group (own parentGroup : option TaskGroup) : TaskGroup :=
  match own, parentGroup with
  | Some g, _ => g
  | None, Some g => g
  | None, None => taskGroups_Other
  end.

Fixpoint _computeRecursiveTaskGroup (fuel : nat) (h : store) (task : nat)
    (parentGroup : option TaskGroup) : option store :=
  match fuel with
  | O => None
  | S fuel' =>
      t ← h !! task;
      let g := resolve_group (taskNameToGroup (name (event t))) parentGroup in
      let h1 := <[task := set_group g t]> h in
      forEach_children
        (fun h' child => _computeRecursiveTaskGroup fuel' h' child (Some g))
        h1 (children t)
  end.

(** ** [getMainThreadTasks] *)

(** The first loop: the three passes from every task without a parent. *)
Fixpoint metrics_loop (h : store) (indices : list nat) : option store :=
  match indices with
  | [] => Some h
  | i :: rest =>
      t ← h !! i;
      match parent t with
      | Some _ => metrics_loop h rest
      | None =>
          '(h1, _) ← _computeRecursiveSelfTime (length h) h i;
          h2 ← _computeRecursiveAttributableURL (length h) h1 i None;
          h3 ← _computeRecursiveTaskGroup (length h) h2 i None;
          metrics_loop h3 rest
      end
  end.

Definition rescale_task (firstTs : num) (t : TaskNode) : TaskNode :=
  {| event := event t;
     startTime := num_div (num_sub (startTime t) firstTs) (Fin 1000);
     endTime := num_div (num_sub (endTime t) firstTs) (Fin 1000);
     parent := parent t; children := children t; group := group t;
     attributableURL := attributableURL t;
     duration := num_div (duration t) (Fin 1000);
     selfTime := num_div (selfTime t) (Fin 1000) |}.

(** The second loop: every task is rescaled in turn, and the first one
    whose self time is not finite ends the call. *)
Fixpoint rescale_loop (firstTs : num) (tasks : list TaskNode)
  : result (list TaskNode) :=
  match tasks with
  | [] => Ok []
  | t :: rest =>
      let t' := rescale_task firstTs t in
      if negb (isFinite (selfTime t'))
      then Throw (JsError "Invalid task timing data")
      else rest' ← rescale_loop firstTs rest; Ok (t' :: rest')
  end.

Definition firstTs_of (tasks : store) : num :=
  match tasks !! 0 with
  | Some t => startTime t
  | None => Fin 0
  end.

Definition metrics_pass (tasks : store) : option store :=
  metrics_loop tasks (seq 0 (length tasks)).

Definition getMainThreadTasks (traceEvents : list TraceEvent)
  : result store :=
  tasks ← _createTasksFromEvents traceEvents;
  tasks ← of_option (metrics_pass tasks);
  rescale_loop (firstTs_of tasks) tasks.



(** * Properties of the task tree *)

(** ** The structure of the store *)

Definition parent_of (h : store) (i : nat) : option nat :=
  t ← h !! i; parent t.

Definition children_of (h : store) (i : nat) : list nat :=
  match h !! i with
  | Some t => children t
  | None => []
  end.

(** Parents come before their children in the store, and the two kinds
    of links agree. *)
Definition wf_store (h : store) : Prop :=
  (forall i p, parent_of h i = Some p -> p < i /\ i ∈ children_of h p) /\
  (forall i c, c ∈ children_of h i -> i < c /\ parent_of h c = Some i).

Definition wf_scan (st : scan) : Prop :=
  wf_store st.1 /\ forall c, st.2 = Some c -> c < length st.1.

(** The test of the [while] loop that moves [currentTask] up. *)
Definition ended_by (now : Q) (t : TaskNode) : bool :=
  isFinite (endTime t) && num_leb (endTime t) (Fin now).

(** What that loop computes. *)
Inductive ascends (h : store) (now : Q) : option nat -> option nat -> Prop :=
  | ascends_none : ascends h now None None
  | ascends_stop c t :
      h !! c = Some t -> ended_by now t = false ->
      ascends h now (Some c) (Some c)
  | ascends_up c t r :
      h !! c = Some t -> ended_by now t = true ->
      ascends h now (parent t) r ->
      ascends h now (Some c) r.

(** The cases of one round of the scan. *)
Definition relevant (startedInPageEvt e : TraceEvent) : Prop :=
  pid e = pid startedInPageEvt /\ tid e = tid startedInPageEvt /\
  (ph e = "X" \/ ph e = "B" \/ ph e = "E").

Definition new_node (e : TraceEvent) (p : option nat) : TaskNode :=
  fst (_createNewTaskNode [] e p).

Inductive handled (startedInPageEvt : TraceEvent) (h : store)
    (cur : option nat) (e : TraceEvent) : result scan -> Prop :=
  | handled_skip :
      ~ relevant startedInPageEvt e ->
      handled startedInPageEvt h cur e (Ok (h, cur))
  | handled_stuck :
      relevant startedInPageEvt e ->
      (ascend (length h) h (ts e) cur = None \/
       exists c, ascend (length h) h (ts e) cur = Some (Some c) /\
                 h !! c = None) ->
      handled startedInPageEvt h cur e Stuck
  | handled_stray_end :
      relevant startedInPageEvt e ->
      ascend (length h) h (ts e) cur = Some None ->
      ph e = "E" ->
      handled startedInPageEvt h cur e fatal_trace_logic_error
  | handled_root :
      relevant startedInPageEvt e ->
      ascend (length h) h (ts e) cur = Some None ->
      ph e <> "E" ->
      handled startedInPageEvt h cur e
        (Ok (h ++ [new_node e None], Some (length h)))
  | handled_child c :
      relevant startedInPageEvt e ->
      ascend (length h) h (ts e) cur = Some (Some c) ->
      ph e <> "E" ->
      handled startedInPageEvt h cur e
        (Ok (alter (push_child (length h)) c h ++ [new_node e (Some c)],
             Some (length h)))
  | handled_bad_end c t :
      relevant startedInPageEvt e ->
      ascend (length h) h (ts e) cur = Some (Some c) ->
      ph e = "E" -> h !! c = Some t -> ph (event t) <> "B" ->
      handled startedInPageEvt h cur e fatal_trace_logic_error
  | handled_end c t :
      relevant startedInPageEvt e ->
      ascend (length h) h (ts e) cur = Some (Some c) ->
      ph e = "E" -> h !! c = Some t -> ph (event t) = "B" ->
      handled startedInPageEvt h cur e
        (Ok (<[c := set_endTime (Fin (ts e)) t]> h, parent t)).

Lemma handle_event_cases (startedInPageEvt : TraceEvent) (h : store)
    (cur : option nat) (e : TraceEvent) :
  handled startedInPageEvt h cur e (handle_event startedInPageEvt (h, cur) e).
Proof.
  unfold handle_event.
  destruct (decide (pid e = pid startedInPageEvt)) as [Hp|Hp];
    [rewrite (bool_decide_eq_true_2 _ Hp)
    |rewrite (bool_decide_eq_false_2 _ Hp); cbn;
     apply handled_skip; unfold relevant; tauto].
  destruct (decide (tid e = tid startedInPageEvt)) as [Ht|Ht];
    [rewrite (bool_decide_eq_true_2 _ Ht)
    |rewrite (bool_decide_eq_false_2 _ Ht); cbn;
     apply handled_skip; unfold relevant; tauto].
  cbn [negb orb].
  destruct (decide (ph e = "X")) as [HX|HX];
    [rewrite (bool_decide_eq_true_2 _ HX)
    |rewrite (bool_decide_eq_false_2 _ HX)];
  (destruct (decide (ph e = "B")) as [HB|HB];
    [rewrite (bool_decide_eq_true_2 _ HB)
    |rewrite (bool_decide_eq_false_2 _ HB)]);
  (destruct (decide (ph e = "E")) as [HE|HE];
    [rewrite (bool_decide_eq_true_2 _ HE)
    |rewrite (bool_decide_eq_false_2 _ HE)]);
  cbn [negb andb orb];
  try (apply handled_skip; unfold relevant; tauto);
  try (rewrite HX in HB; discriminate); try (rewrite HX in HE; discriminate);
  try (rewrite HB in HE; discriminate).
  all: assert (Hrel : relevant startedInPageEvt e) by (unfold relevant; tauto).
  all: destruct (ascend (length h) h (ts e) cur) as [[c|]|] eqn:Hasc;
       cbn [of_option mbind result_bind];
       try (apply handled_stuck; [done|by left]);
       try (by apply handled_root); try (by apply handled_stray_end);
       try (cbn [_createNewTaskNode]; rewrite length_alter;
            apply handled_child; [done|done|congruence]).
  destruct (h !! c) as [t|] eqn:Hc; cbn [of_option mbind result_bind].
  - destruct (decide (ph (event t) = "B")) as [HtB|HtB].
    + rewrite (bool_decide_eq_true_2 _ HtB). cbn [negb]. by eapply handled_end.
    + rewrite (bool_decide_eq_false_2 _ HtB). cbn [negb].
      by eapply handled_bad_end.
  - apply handled_stuck; [done|]. right. by exists c.
Qed.

(** ** The links after each kind of update *)

Lemma parent_of_lt (h : store) i p : parent_of h i = Some p -> i < length h.
Proof.
  unfold parent_of. destruct (h !! i) eqn:E; [|done].
  intros _. apply lookup_lt_is_Some. eauto.
Qed.

Lemma children_of_lt (h : store) i c : c ∈ children_of h i -> i < length h.
Proof.
  unfold children_of. destruct (h !! i) eqn:E.
  - intros _. apply lookup_lt_is_Some. eauto.
  - intros H. by apply elem_of_nil in H.
Qed.

Lemma parent_of_snoc (h : store) (t : TaskNode) i :
  parent_of (h ++ [t]) i =
  if decide (i = length h) then parent t else parent_of h i.
Proof.
  unfold parent_of. destruct (decide (i = length h)) as [->|Hne].
  - by rewrite list_lookup_middle.
  - destruct (decide (i < length h)).
    + by rewrite lookup_app_l.
    + rewrite !lookup_ge_None_2; [done|lia|rewrite length_app; cbn; lia].
Qed.

Lemma children_of_snoc (h : store) (t : TaskNode) i :
  children_of (h ++ [t]) i =
  if decide (i = length h) then children t else children_of h i.
Proof.
  unfold children_of. destruct (decide (i = length h)) as [->|Hne].
  - by rewrite list_lookup_middle.
  - destruct (decide (i < length h)).
    + by rewrite lookup_app_l.
    + rewrite !lookup_ge_None_2; [done|lia|rewrite length_app; cbn; lia].
Qed.

Lemma parent_of_push_child (h : store) n c i :
  parent_of (alter (push_child n) c h) i = parent_of h i.
Proof.
  unfold parent_of. rewrite list_lookup_alter.
  destruct (decide (c = i)) as [->|]; [|done]. by destruct (h !! i).
Qed.

Lemma children_of_push_child (h : store) n c i :
  c < length h ->
  children_of (alter (push_child n) c h) i =
  if decide (i = c) then children_of h c ++ [n] else children_of h i.
Proof.
  intros Hc. unfold children_of. rewrite list_lookup_alter.
  destruct (decide (c = i)) as [->|]; destruct (decide _); try done.
  apply lookup_lt_is_Some in Hc as [t Ht]. by rewrite Ht.
Qed.

Lemma parent_of_set_endTime (h : store) c t v i :
  h !! c = Some t ->
  parent_of (<[c := set_endTime v t]> h) i = parent_of h i.
Proof.
  intros Hc. unfold parent_of. destruct (decide (c = i)) as [->|].
  - rewrite list_lookup_insert_eq by (apply lookup_lt_is_Some; eauto).
    by rewrite Hc.
  - by rewrite list_lookup_insert_ne.
Qed.

Lemma children_of_set_endTime (h : store) c t v i :
  h !! c = Some t ->
  children_of (<[c := set_endTime v t]> h) i = children_of h i.
Proof.
  intros Hc. unfold children_of. destruct (decide (c = i)) as [->|].
  - rewrite list_lookup_insert_eq by (apply lookup_lt_is_Some; eauto).
    by rewrite Hc.
  - by rewrite list_lookup_insert_ne.
Qed.

Lemma wf_store_nil : wf_store [].
Proof.
  split; intros i x H; [done|]. by apply elem_of_nil in H.
Qed.

Lemma wf_push_root (h : store) (e : TraceEvent) :
  wf_store h -> wf_store (h ++ [new_node e None]).
Proof.
  intros [Hp Hc]. split.
  - intros i p. rewrite parent_of_snoc, children_of_snoc.
    destruct (decide (i = length h)); [done|]. intros H.
    pose proof (parent_of_lt _ _ _ H). destruct (Hp _ _ H).
    destruct (decide (p = length h)); [lia|done].
  - intros i c. rewrite parent_of_snoc, children_of_snoc.
    destruct (decide (i = length h)); [intros H; by apply elem_of_nil in H|].
    intros H. destruct (Hc _ _ H) as [? Hpar].
    pose proof (parent_of_lt _ _ _ Hpar).
    destruct (decide (c = length h)); [lia|done].
Qed.

Lemma wf_push_child (h : store) (e : TraceEvent) (c : nat) :
  wf_store h -> c < length h ->
  wf_store (alter (push_child (length h)) c h ++ [new_node e (Some c)]).
Proof.
  intros [Hp Hc] Hlt. split.
  - intros i p. rewrite parent_of_snoc, children_of_snoc, length_alter.
    rewrite parent_of_push_child.
    destruct (decide (i = length h)) as [->|Hi].
    + cbn. intros [= <-]. split; [done|].
      destruct (decide (c = length h)); [lia|].
      rewrite children_of_push_child by done.
      rewrite decide_True by done. apply elem_of_app. right.
      apply list_elem_of_singleton. done.
    + intros H. pose proof (parent_of_lt _ _ _ H). destruct (Hp _ _ H).
      destruct (decide (p = length h)); [lia|]. split; [done|].
      rewrite children_of_push_child by done.
      destruct (decide (p = c)) as [->|]; [|done].
      apply elem_of_app. by left.
  - intros i k. rewrite parent_of_snoc, children_of_snoc, length_alter.
    rewrite parent_of_push_child.
    destruct (decide (i = length h)); [intros H; by apply elem_of_nil in H|].
    rewrite children_of_push_child by done.
    destruct (decide (i = c)) as [->|].
    + intros H. apply elem_of_app in H as [H|H].
      * destruct (Hc _ _ H) as [? Hpar].
        pose proof (parent_of_lt _ _ _ Hpar).
        destruct (decide (k = length h)); [lia|done].
      * apply list_elem_of_singleton in H as ->.
        rewrite decide_True by done. done.
    + intros H. destruct (Hc _ _ H) as [? Hpar].
      pose proof (parent_of_lt _ _ _ Hpar).
      destruct (decide (k = length h)); [lia|done].
Qed.

Lemma wf_set_endTime (h : store) c t v :
  wf_store h -> h !! c = Some t -> wf_store (<[c := set_endTime v t]> h).
Proof.
  intros [Hp Hc] Ht. split; intros i x.
  - rewrite (parent_of_set_endTime _ _ _ _ _ Ht),
            (children_of_set_endTime _ _ _ _ _ Ht). apply Hp.
  - rewrite (parent_of_set_endTime _ _ _ _ _ Ht),
            (children_of_set_endTime _ _ _ _ _ Ht). apply Hc.
Qed.

(** ** The loop that moves up *)

Lemma ascend_ascends fuel (h : store) now cur r :
  ascend fuel h now cur = Some r -> ascends h now cur r.
Proof.
  revert cur. induction fuel as [|fuel IH]; intros [c|]; cbn;
    try (intros [= <-]; constructor).
  - destruct (h !! c) as [t|] eqn:Ht; cbn; [|done].
    fold (ended_by now t). destruct (ended_by now t) eqn:E; [done|].
    intros [= <-]. by eapply ascends_stop.
  - destruct (h !! c) as [t|] eqn:Ht; cbn; [|done].
    fold (ended_by now t). destruct (ended_by now t) eqn:E.
    + intros H. eapply ascends_up; eauto.
    + intros [= <-]. by eapply ascends_stop.
Qed.

Lemma ascend_total fuel (h : store) now cur :
  wf_store h ->
  (forall c, cur = Some c -> c < length h /\ c < fuel) ->
  is_Some (ascend fuel h now cur).
Proof.
  intros [Hp _]. revert cur. induction fuel as [|fuel IH]; intros [c|] Hc; cbn;
    try (by eexists).
  - destruct (Hc c eq_refl). lia.
  - destruct (Hc c eq_refl) as [Hlt Hf].
    destruct (proj2 (lookup_lt_is_Some h c) Hlt) as [t Ht]. rewrite Ht. cbn.
    destruct (isFinite (endTime t) && _); [|by eexists].
    apply IH. intros p Hpar.
    destruct (Hp c p) as [Hpc _]; [unfold parent_of; by rewrite Ht|]. lia.
Qed.

Lemma ascends_stops (h : store) now cur r c :
  ascends h now cur r -> r = Some c ->
  exists t, h !! c = Some t /\ ended_by now t = false.
Proof.
  induction 1; intros E; try done.
  - injection E as <-. eauto.
  - auto.
Qed.

(** ** The scan keeps the store well formed and never gets stuck *)

Lemma handled_wf startedInPageEvt (h : store) cur e st' :
  wf_scan (h, cur) ->
  handled startedInPageEvt h cur e (Ok st') -> wf_scan st'.
Proof.
  intros [Hwf Hcur] H. cbn [fst snd] in Hwf, Hcur.
  inversion H as [Hn|Hrel Hs|Hrel Hasc HE|Hrel Hasc HE|c Hrel Hasc HE
                 |c t Hrel Hasc HE Ht HB|c t Hrel Hasc HE Ht HB];
    subst; clear H.
  - done.
  - split; cbn; [by apply wf_push_root|].
    intros c [= <-]. rewrite length_app. cbn. lia.
  - apply ascend_ascends in Hasc.
    destruct (ascends_stops _ _ _ _ _ Hasc eq_refl) as (t & Ht & _).
    assert (c < length h) by (apply lookup_lt_is_Some; eauto).
    split; cbn; [by apply wf_push_child|].
    intros k [= <-]. rewrite length_app, length_alter. cbn. lia.
  - split; cbn; [by apply wf_set_endTime|].
    intros p Hpar. rewrite length_insert.
    destruct Hwf as [Hp _]. destruct (Hp c p) as [Hlt _].
    + unfold parent_of. by rewrite Ht.
    + assert (c < length h) by (apply lookup_lt_is_Some; eauto). lia.
Qed.

Lemma handled_not_stuck startedInPageEvt (h : store) cur e :
  wf_scan (h, cur) -> ~ handled startedInPageEvt h cur e Stuck.
Proof.
  intros [Hwf Hcur] H. cbn [fst snd] in Hwf, Hcur.
  inversion H as [|Hrel [Hasc|(c & Hasc & Hc)]| | | | |];
    subst; clear H.
  - destruct (ascend_total (length h) h (ts e) cur Hwf) as [r Hr];
      [|congruence].
    intros c ->. split; by apply Hcur.
  - apply ascend_ascends in Hasc.
    destruct (ascends_stops _ _ _ _ _ Hasc eq_refl) as (t & Ht & _).
    congruence.
Qed.

Lemma scan_events_wf startedInPageEvt (events : list TraceEvent) (st : scan) :
  wf_scan st ->
  scan_events startedInPageEvt st events <> Stuck /\
  forall st', scan_events startedInPageEvt st events = Ok st' -> wf_scan st'.
Proof.
  revert st. induction events as [|e rest IH]; intros [h cur] Hwf;
    cbn [scan_events].
  - split; [done|]. by intros st' [= <-].
  - pose proof (handle_event_cases startedInPageEvt h cur e) as Hcase.
    destruct (handle_event startedInPageEvt (h, cur) e) as [st1| |] eqn:E;
      cbn [mbind result_bind].
    + apply IH. by eapply handled_wf.
    + done.
    + by apply handled_not_stuck in Hcase.
Qed.

Lemma createTasksFromEvents_wf (traceEvents : list TraceEvent) :
  _createTasksFromEvents traceEvents <> Stuck /\
  forall tasks, _createTasksFromEvents traceEvents = Ok tasks -> wf_store tasks.
Proof.
  unfold _createTasksFromEvents.
  assert (Hf : findTracingStartedEvt traceEvents <> Stuck).
  { unfold findTracingStartedEvt.
    repeat match goal with |- context [match ?x with _ => _ end] =>
      destruct x end; done. }
  destruct (findTracingStartedEvt traceEvents) as [[started frameId]| |];
    cbn; [|done|done].
  destruct (scan_events_wf started traceEvents ([], None)) as [Hns Hwf].
  { split; [apply wf_store_nil|done]. }
  destruct (scan_events started ([], None) traceEvents) as [[tasks cur]| |];
    cbn; [|done|done].
  split; [done|]. intros ? [= <-]. by destruct (Hwf _ eq_refl).
Qed.

Lemma ascends_fun (h : store) now cur r r' :
  ascends h now cur r -> ascends h now cur r' -> r = r'.
Proof.
  induction 1 as [|c t Ht He|c t r Ht He Hup IH]; inversion 1; subst;
    try done; try congruence.
  apply IH. congruence.
Qed.

Lemma ascend_complete (h : store) now cur r :
  wf_store h -> (forall c, cur = Some c -> c < length h) ->
  ascends h now cur r -> ascend (length h) h now cur = Some r.
Proof.
  intros Hwf Hcur Hup.
  destruct (ascend_total (length h) h now cur Hwf) as [r' Hr'].
  { intros c ->. split; by apply Hcur. }
  rewrite Hr'. f_equal. apply ascend_ascends in Hr'.
  by eapply ascends_fun.
Qed.

Lemma scan_events_app startedInPageEvt (l1 l2 : list TraceEvent) (st : scan) :
  scan_events startedInPageEvt st (l1 ++ l2) =
  st1 ← scan_events startedInPageEvt st l1;
  scan_events startedInPageEvt st1 l2.
Proof.
  revert st. induction l1 as [|e l1 IH]; intros st; cbn [scan_events app].
  - done.
  - destruct (handle_event startedInPageEvt st e); cbn [mbind result_bind];
      [apply IH|done|done].
Qed.

(** What an End event does, given where the loop that moves up stops. *)
Lemma handled_end_event startedInPageEvt (h : store) cur e r r0 :
  wf_scan (h, cur) ->
  relevant startedInPageEvt e -> ph e = "E" ->
  ascends h (ts e) cur r0 ->
  handled startedInPageEvt h cur e r ->
  match r0 with
  | None => r = fatal_trace_logic_error
  | Some c =>
      exists t, h !! c = Some t /\
        (ph (event t) <> "B" -> r = fatal_trace_logic_error) /\
        (ph (event t) = "B" ->
         r = Ok (<[c := set_endTime (Fin (ts e)) t]> h, parent t))
  end.
Proof.
  intros Hwf Hrel HE Hup Hc.
  pose proof Hwf as [Hwfs Hvalid]. cbn [fst snd] in Hwfs, Hvalid.
  apply (ascend_complete _ _ _ _ Hwfs Hvalid) in Hup.
  destruct Hc as [Hn|? Hs|? Hasc ?|? Hasc HnE|c ? Hasc HnE
                 |c t ? Hasc ? Ht HB|c t ? Hasc ? Ht HB];
    try done.
  - exfalso. eapply handled_not_stuck; [exact Hwf|].
    by apply handled_stuck.
  - rewrite Hup in Hasc. by injection Hasc as ->.
  - rewrite Hup in Hasc. injection Hasc as ->. exists t. by split.
  - rewrite Hup in Hasc. injection Hasc as ->. exists t. by split.
Qed.

(** What a Complete or a Begin event does. *)
Lemma handled_start_event startedInPageEvt (h : store) cur e r :
  wf_scan (h, cur) ->
  relevant startedInPageEvt e -> ph e <> "E" ->
  handled startedInPageEvt h cur e r ->
  exists p h',
    ascends h (ts e) cur p /\
    r = Ok (h' ++ [new_node e p], Some (length h)) /\
    length h' = length h /\
    h' = match p with
         | Some c => alter (push_child (length h)) c h
         | None => h
         end.
Proof.
  intros Hwf Hrel HE Hc.
  destruct Hc as [Hn|? Hs|? Hasc ?|? Hasc HnE|c ? Hasc HnE
                 |c t ? Hasc ? Ht HB|c t ? Hasc ? Ht HB];
    try done.
  - exfalso. eapply handled_not_stuck; [exact Hwf|].
    by apply handled_stuck.
  - exists None, h. by apply ascend_ascends in Hasc.
  - exists (Some c), (alter (push_child (length h)) c h).
    apply ascend_ascends in Hasc. by rewrite length_alter.
Qed.

(** C5: an End event that finds no current task once the loop has moved
    up makes the scan throw 'Fatal trace logic error', and so does an End
    event that finds a current task which a Begin event did not open; the
    error is all that [_createTasksFromEvents] and [getMainThreadTasks]
    return: no store of tasks comes with it. *)
Theorem end_event_is_fatal (traceEvents pre post : list TraceEvent)
    (startedInPageEvt e : TraceEvent) (frameId : option string)
    (tasks : store) (currentTask : option nat) :
  findTracingStartedEvt traceEvents = Ok (startedInPageEvt, frameId) ->
  traceEvents = pre ++ e :: post ->
  scan_events startedInPageEvt ([], None) pre = Ok (tasks, currentTask) ->
  relevant startedInPageEvt e -> ph e = "E" ->
  (ascends tasks (ts e) currentTask None \/
   exists c t, ascends tasks (ts e) currentTask (Some c) /\
               tasks !! c = Some t /\ ph (event t) <> "B") ->
  _createTasksFromEvents traceEvents
    = Throw (JsError "Fatal trace logic error") /\
  getMainThreadTasks traceEvents
    = Throw (JsError "Fatal trace logic error").
Proof.
  intros Hfind -> Hpre Hrel HE Hcur.
  assert (Hwf : wf_scan (tasks, currentTask)).
  { eapply scan_events_wf; [|exact Hpre]. split; [apply wf_store_nil|done]. }
  assert (Hev : handle_event startedInPageEvt (tasks, currentTask) e
                = fatal_trace_logic_error).
  { pose proof (handle_event_cases startedInPageEvt tasks currentTask e) as Hc.
    destruct Hcur as [Hup|(c & t & Hup & Ht & HB)].
    - exact (handled_end_event _ _ _ _ _ _ Hwf Hrel HE Hup Hc).
    - destruct (handled_end_event _ _ _ _ _ _ Hwf Hrel HE Hup Hc)
        as (t' & Ht' & Hbad & _).
      apply Hbad. congruence. }
  assert (Hscan : _createTasksFromEvents (pre ++ e :: post)
                  = Throw (JsError "Fatal trace logic error")).
  { unfold _createTasksFromEvents. rewrite Hfind. cbn [mbind result_bind].
    rewrite scan_events_app, Hpre. cbn [mbind result_bind scan_events].
    rewrite Hev. done. }
  split; [done|]. unfold getMainThreadTasks. by rewrite Hscan.
Qed.

(** C6, as the code has it: a Begin event that is immediately followed,
    on the main thread, by an End event is closed by that event whatever
    the names of the two events are: the task of the Begin event gets the
    timestamp of the End event as its [endTime], [currentTask] moves to
    its parent, and no error is thrown. *)
Theorem end_closes_latest_begin (startedInPageEvt b e : TraceEvent)
    (tasks : store) (currentTask : option nat) :
  wf_scan (tasks, currentTask) ->
  relevant startedInPageEvt b -> ph b = "B" ->
  relevant startedInPageEvt e -> ph e = "E" ->
  exists (tasks1 : store) (t : TaskNode),
    handle_event startedInPageEvt (tasks, currentTask) b
      = Ok (tasks1, Some (length tasks)) /\
    tasks1 !! length tasks = Some t /\ event t = b /\ endTime t = NaN /\
    handle_event startedInPageEvt (tasks1, Some (length tasks)) e
      = Ok (<[length tasks := set_endTime (Fin (ts e)) t]> tasks1, parent t).
Proof.
  intros Hwf Hb HbB He HeE.
  pose proof (handle_event_cases startedInPageEvt tasks currentTask b) as Hc.
  destruct (handled_start_event _ _ _ _ _ Hwf Hb ltac:(congruence) Hc)
    as (p & h' & _ & Hev & Hlen & _).
  assert (Ht : (h' ++ [new_node b p]) !! length tasks = Some (new_node b p))
    by (by apply list_lookup_middle).
  assert (Hend : endTime (new_node b p) = NaN).
  { unfold new_node, _createNewTaskNode.
    destruct p; cbn [fst endTime]; rewrite bool_decide_eq_false_2; try done;
      rewrite HbB; discriminate. }
  assert (Hevt : event (new_node b p) = b).
  { unfold new_node, _createNewTaskNode. by destruct p. }
  exists (h' ++ [new_node b p]), (new_node b p).
  repeat (split; [done|]).
  assert (Hwf1 : wf_scan (h' ++ [new_node b p], Some (length tasks))).
  { eapply handled_wf; [exact Hwf|]. by rewrite <- Hev. }
  pose proof (handle_event_cases startedInPageEvt (h' ++ [new_node b p])
                (Some (length tasks)) e) as Hc'.
  assert (Hup : ascends (h' ++ [new_node b p]) (ts e) (Some (length tasks))
                  (Some (length tasks))).
  { eapply ascends_stop; [exact Ht|]. unfold ended_by. by rewrite Hend. }
  destruct (handled_end_event _ _ _ _ _ _ Hwf1 He HeE Hup Hc')
    as (t' & Ht' & _ & Hok).
  rewrite Ht in Ht'. injection Ht' as <-. apply Hok. congruence.
Qed.

(** ** What the metric passes compute *)

(** The fields that the metric passes read and never write. *)
Definition shape (t : TaskNode)
  : TraceEvent * num * num * option nat * list nat :=
  (event t, startTime t, endTime t, parent t, children t).

Lemma parent_of_shape (h h' : store) i :
  shape <$> h' = shape <$> h -> parent_of h' i = parent_of h i.
Proof.
  intros Hs. unfold parent_of.
  assert (H : (shape <$> h') !! i = (shape <$> h) !! i) by (by rewrite Hs).
  rewrite !list_lookup_fmap in H.
  destruct (h' !! i), (h !! i); cbn in *; try done.
  injection H as H. unfold shape in H. congruence.
Qed.

Lemma children_of_shape (h h' : store) i :
  shape <$> h' = shape <$> h -> children_of h' i = children_of h i.
Proof.
  intros Hs. unfold children_of.
  assert (H : (shape <$> h') !! i = (shape <$> h) !! i) by (by rewrite Hs).
  rewrite !list_lookup_fmap in H.
  destruct (h' !! i), (h !! i); cbn in *; try done.
  injection H as H. unfold shape in H. congruence.
Qed.

Lemma shape_length (h h' : store) :
  shape <$> h' = shape <$> h -> length h' = length h.
Proof.
  intros Hs. rewrite <- (length_fmap shape h'), Hs. apply length_fmap.
Qed.

Lemma shape_lookup (h h' : store) i t :
  shape <$> h' = shape <$> h -> h !! i = Some t ->
  exists t', h' !! i = Some t' /\ shape t' = shape t.
Proof.
  intros Hs Ht.
  assert (H : (shape <$> h') !! i = (shape <$> h) !! i) by (by rewrite Hs).
  rewrite !list_lookup_fmap, Ht in H.
  destruct (h' !! i) as [t'|]; cbn in H; [|done].
  exists t'. split; [done|congruence].
Qed.

Lemma wf_store_shape (h h' : store) :
  shape <$> h' = shape <$> h -> wf_store h -> wf_store h'.
Proof.
  intros Hs [Hp Hc]. split; intros i x.
  - rewrite (parent_of_shape _ _ _ Hs), (children_of_shape _ _ _ Hs). apply Hp.
  - rewrite (parent_of_shape _ _ _ Hs), (children_of_shape _ _ _ Hs). apply Hc.
Qed.

(** The descendants of a node. *)
Inductive reach (h : store) : nat -> nat -> Prop :=
  | reach_refl i : reach h i i
  | reach_child i c j : c ∈ children_of h i -> reach h c j -> reach h i j.

Lemma reach_shape (h h' : store) i j :
  shape <$> h' = shape <$> h -> reach h i j -> reach h' i j.
Proof.
  intros Hs. induction 1 as [|i c j Hc _ IH]; [constructor|].
  eapply reach_child; [|exact IH]. by rewrite (children_of_shape _ _ _ Hs).
Qed.

(** Every node descends from a task without a parent. *)
Lemma reach_from_root (h : store) j :
  wf_store h -> j < length h ->
  exists r, parent_of h r = None /\ r < length h /\ reach h r j.
Proof.
  intros [Hp Hc]. induction (lt_wf j) as [j _ IH]. intros Hj.
  destruct (parent_of h j) as [p|] eqn:Hpar.
  - destruct (Hp _ _ Hpar) as [Hlt Hin].
    destruct (IH p Hlt ltac:(lia)) as (r & Hr & Hrl & Hreach).
    exists r. split; [done|]. split; [done|].
    clear -Hreach Hin. induction Hreach as [i|i c k Hc _ IH'].
    + eapply reach_child; [exact Hin|constructor].
    + eapply reach_child; [exact Hc|]. by apply IH'.
  - exists j. split; [done|]. split; [done|constructor].
Qed.

(** A pass writes some fields of some nodes.  What it leaves in the store
    is described by a property [ok] of the nodes it has written and by a
    projection [rest] on the fields it does not write. *)
Section Pass.

Variable h0 : store.
Context {R : Type} (rest : TaskNode -> R) (ok : nat -> TaskNode -> Prop).
Context (to_shape : R -> TraceEvent * num * num * option nat * list nat).
Hypothesis to_shape_rest : forall t, to_shape (rest t) = shape t.

Definition pass_step (h h' : store) : Prop :=
  rest <$> h' = rest <$> h /\
  forall j t', h' !! j = Some t' -> ok j t' \/ h !! j = Some t'.

Definition pass_done (h : store) (j : nat) : Prop :=
  exists t, h !! j = Some t /\ ok j t.

Lemma pass_step_shape h h' : pass_step h h' -> shape <$> h' = shape <$> h.
Proof.
  intros [Hr _].
  assert (E : forall l : store, shape <$> l = to_shape <$> (rest <$> l)).
  { intros l. rewrite <- list_fmap_compose. apply list_fmap_ext.
    intros i t _. cbn. by rewrite to_shape_rest. }
  by rewrite !E, Hr.
Qed.

Lemma pass_step_refl h : pass_step h h.
Proof. split; [done|]. intros j t' H. by right. Qed.

Lemma pass_step_trans h1 h2 h3 :
  pass_step h1 h2 -> pass_step h2 h3 -> pass_step h1 h3.
Proof.
  intros [Hr1 Hk1] [Hr2 Hk2]. split; [congruence|].
  intros j t' H. destruct (Hk2 _ _ H) as [|H2]; [by left|]. by apply Hk1.
Qed.

Lemma pass_step_done h h' j :
  pass_step h h' -> pass_done h j -> pass_done h' j.
Proof.
  intros [Hr Hk] (t & Ht & Hok).
  assert (Hlen : length h' = length h).
  { rewrite <- (length_fmap rest h'), Hr. apply length_fmap. }
  assert (is_Some (h' !! j)) as [t' Ht'].
  { apply lookup_lt_is_Some. rewrite Hlen. apply lookup_lt_is_Some. eauto. }
  exists t'. split; [done|]. destruct (Hk _ _ Ht') as [|H]; [done|].
  congruence.
Qed.

Lemma pass_step_write h i t t' :
  h !! i = Some t -> rest t' = rest t -> ok i t' ->
  pass_step h (<[i := t']> h) /\ pass_done (<[i := t']> h) i.
Proof.
  intros Ht Hr Hok.
  assert (Hi : i < length h) by (apply lookup_lt_is_Some; eauto).
  split; [split|].
  - rewrite list_fmap_insert, Hr. apply list_insert_id.
    by rewrite list_lookup_fmap, Ht.
  - intros j u. destruct (decide (i = j)) as [->|].
    + rewrite list_lookup_insert_eq by done. intros [= <-]. by left.
    + rewrite list_lookup_insert_ne by done. by right.
  - exists t'. split; [|done]. by apply list_lookup_insert_eq.
Qed.

(** The loops over the children of a node. *)
Lemma map_children_pass {A} (val : nat -> A)
    (f : store -> nat -> option (store * A)) (cs : list nat) (h : store) :
  (forall (h : store) c, c ∈ cs -> shape <$> h = shape <$> h0 ->
     exists h' : store, f h c = Some (h', val c) /\ pass_step h h' /\
       forall j, reach h0 c j -> pass_done h' j) ->
  shape <$> h = shape <$> h0 ->
  exists h' : store, map_children f h cs = Some (h', val <$> cs) /\
    pass_step h h' /\
    forall c j, c ∈ cs -> reach h0 c j -> pass_done h' j.
Proof.
  revert h. induction cs as [|c cs IH]; intros h Hf Hs.
  - exists h. split; [done|]. split; [apply pass_step_refl|].
    intros c j Hc. by apply elem_of_nil in Hc.
  - destruct (Hf h c) as (h1 & Hfc & Hstep1 & Hdone1);
      [apply list_elem_of_here|done|].
    pose proof (pass_step_shape _ _ Hstep1) as Hs1.
    destruct (IH h1) as (h2 & Hmap & Hstep2 & Hdone2).
    { intros h' c' Hc'. apply Hf. by apply list_elem_of_further. }
    { congruence. }
    exists h2. split; [|split].
    + cbn [map_children]. rewrite Hfc. cbn. rewrite Hmap. done.
    + by eapply pass_step_trans.
    + intros c' j Hc' Hreach. apply elem_of_cons in Hc' as [->|Hc'].
      * eapply pass_step_done; [exact Hstep2|]. by apply Hdone1.
      * by eapply Hdone2.
Qed.

Lemma forEach_children_pass (f : store -> nat -> option store)
    (cs : list nat) (h : store) :
  (forall (h : store) c, c ∈ cs -> shape <$> h = shape <$> h0 ->
     exists h' : store, f h c = Some h' /\ pass_step h h' /\
       forall j, reach h0 c j -> pass_done h' j) ->
  shape <$> h = shape <$> h0 ->
  exists h' : store, forEach_children f h cs = Some h' /\
    pass_step h h' /\
    forall c j, c ∈ cs -> reach h0 c j -> pass_done h' j.
Proof.
  revert h. induction cs as [|c cs IH]; intros h Hf Hs.
  - exists h. split; [done|]. split; [apply pass_step_refl|].
    intros c j Hc. by apply elem_of_nil in Hc.
  - destruct (Hf h c) as (h1 & Hfc & Hstep1 & Hdone1);
      [apply list_elem_of_here|done|].
    pose proof (pass_step_shape _ _ Hstep1) as Hs1.
    destruct (IH h1) as (h2 & Hmap & Hstep2 & Hdone2).
    { intros h' c' Hc'. apply Hf. by apply list_elem_of_further. }
    { congruence. }
    exists h2. split; [|split].
    + cbn [forEach_children]. rewrite Hfc. cbn. exact Hmap.
    + by eapply pass_step_trans.
    + intros c' j Hc' Hreach. apply elem_of_cons in Hc' as [->|Hc'].
      * eapply pass_step_done; [exact Hstep2|]. by apply Hdone1.
      * by eapply Hdone2.
Qed.

End Pass.

(** *** Self time *)

Section SelfTime.

Variable h0 : store.
Hypothesis wf_h0 : wf_store h0.

(** What [_computeRecursiveSelfTime] returns for a node. *)
Definition dur_of (h : store) (i : nat) : num :=
  match h !! i with
  | Some t => num_sub (endTime t) (startTime t)
  | None => NaN
  end.

Definition ok_timing (j : nat) (t : TaskNode) : Prop :=
  duration t = num_sub (endTime t) (startTime t) /\
  selfTime t = num_sub (duration t) (sum_num (dur_of h0 <$> children t)).

Definition rest_timing (t : TaskNode) :=
  (shape t, group t, attributableURL t).

Lemma rest_timing_shape t : (fun r => r.1.1) (rest_timing t) = shape t.
Proof. done. Qed.

Lemma dur_of_shape (h : store) i :
  shape <$> h = shape <$> h0 -> dur_of h i = dur_of h0 i.
Proof.
  intros Hs. unfold dur_of.
  assert (H : (shape <$> h) !! i = (shape <$> h0) !! i) by (by rewrite Hs).
  rewrite !list_lookup_fmap in H.
  destruct (h !! i), (h0 !! i); cbn in *; try done.
  injection H as H. unfold shape in H. congruence.
Qed.

Lemma computeRecursiveSelfTime_spec (fuel : nat) (h : store) (i : nat) :
  shape <$> h = shape <$> h0 -> i < length h0 -> length h0 - i <= fuel ->
  exists h', _computeRecursiveSelfTime fuel h i = Some (h', dur_of h0 i) /\
    pass_step rest_timing ok_timing h h' /\
    forall j, reach h0 i j -> pass_done ok_timing h' j.
Proof.
  revert h i. induction fuel as [|fuel IH]; intros h i Hs Hi Hfuel; [lia|].
  assert (is_Some (h !! i)) as [t Ht].
  { apply lookup_lt_is_Some. by rewrite (shape_length _ _ Hs). }
  assert (Hkids : children t = children_of h0 i).
  { rewrite <- (children_of_shape _ _ i Hs). unfold children_of. by rewrite Ht. }
  destruct (map_children_pass h0 rest_timing ok_timing _ rest_timing_shape
              (dur_of h0) (_computeRecursiveSelfTime fuel) (children t) h)
    as (h1 & Hmap & Hstep1 & Hdone1); [|done|].
  { intros h' c Hc Hs'. rewrite Hkids in Hc.
    destruct wf_h0 as [_ Hwc]. destruct (Hwc _ _ Hc) as [Hlt Hpar].
    apply parent_of_lt in Hpar. apply IH; [done|done|lia]. }
  pose proof (pass_step_shape _ _ _ rest_timing_shape _ _ Hstep1) as Hs1.
  destruct (shape_lookup _ _ _ _ Hs1 Ht) as (t1 & Ht1 & Hsh1).
  assert (Hd : num_sub (endTime t1) (startTime t1) = dur_of h0 i).
  { rewrite <- (dur_of_shape h1 i) by congruence. unfold dur_of. by rewrite Ht1. }
  set (t2 := set_timing (dur_of h0 i)
               (num_sub (dur_of h0 i) (sum_num (dur_of h0 <$> children t))) t1).
  destruct (pass_step_write rest_timing ok_timing h1 i t1 t2 Ht1)
    as [Hstep2 Hdone2].
  { unfold rest_timing, shape. done. }
  { assert (Hch : children t1 = children t)
      by (unfold shape in Hsh1; by injection Hsh1).
    unfold ok_timing, t2, set_timing.
    cbn [duration selfTime children endTime startTime].
    by rewrite Hch, Hd. }
  exists (<[i := t2]> h1). split; [|split].
  - cbn [_computeRecursiveSelfTime]. rewrite Ht. cbn. rewrite Hmap. cbn.
    rewrite Ht1. cbn. rewrite Hd. done.
  - by eapply pass_step_trans.
  - intros j Hreach. inversion Hreach as [|? c ? Hc Hcj]; subst; [done|].
    eapply pass_step_done; [exact Hstep2|].
    eapply Hdone1; [|exact Hcj]. by rewrite Hkids.
Qed.

End SelfTime.

(** *** Attribution of URLs and of groups *)

Section Attribution.

Variable h0 : store.
Hypothesis wf_h0 : wf_store h0.

(** The URL and the group of a node, resolved from the root down. *)
Fixpoint resolved_url (fuel : nat) (i : nat) : option string :=
  match fuel with
  | O => None
  | S fuel' =>
      match h0 !! i with
      | None => None
      | Some t =>
          js_or (match parent t with
                 | Some p => resolved_url fuel' p
                 | None => None
                 end)
                (taskURL (event t))
      end
  end.

Fixpoint resolved_group (fuel : nat) (i : nat) : TaskGroup :=
  match fuel with
  | O => taskGroups_Other
  | S fuel' =>
      match h0 !! i with
      | None => taskGroups_Other
      | Some t =>
          resolve_group (taskNameToGroup (name (event t)))
            (match parent t with
             | Some p => Some (resolved_group fuel' p)
             | None => None
             end)
      end
  end.

Definition url_of (i : nat) : option string := resolved_url (S i) i.
Definition group_of (i : nat) : TaskGroup := resolved_group (S i) i.

Lemma resolved_url_fuel f1 f2 i :
  i < f1 -> i < f2 -> resolved_url f1 i = resolved_url f2 i.
Proof.
  revert f2 i. induction f1 as [|f1 IH]; intros [|f2] i H1 H2; try lia.
  cbn [resolved_url]. destruct (h0 !! i) as [t|] eqn:Ht; [|done].
  destruct (parent t) as [p|] eqn:Hp; [|done].
  destruct wf_h0 as [Hwp _]. destruct (Hwp i p) as [Hlt _].
  { unfold parent_of. by rewrite Ht. }
  rewrite (IH f2 p); [done|lia|lia].
Qed.

Lemma resolved_group_fuel f1 f2 i :
  i < f1 -> i < f2 -> resolved_group f1 i = resolved_group f2 i.
Proof.
  revert f2 i. induction f1 as [|f1 IH]; intros [|f2] i H1 H2; try lia.
  cbn [resolved_group]. destruct (h0 !! i) as [t|] eqn:Ht; [|done].
  destruct (parent t) as [p|] eqn:Hp; [|done].
  destruct wf_h0 as [Hwp _]. destruct (Hwp i p) as [Hlt _].
  { unfold parent_of. by rewrite Ht. }
  rewrite (IH f2 p); [done|lia|lia].
Qed.

Lemma url_of_eq i t :
  h0 !! i = Some t ->
  url_of i = js_or (match parent t with
                    | Some p => url_of p
                    | None => None
                    end) (taskURL (event t)).
Proof.
  intros Ht. unfold url_of at 1. cbn [resolved_url]. rewrite Ht.
  destruct (parent t) as [p|] eqn:Hp; [|done].
  destruct wf_h0 as [Hwp _]. destruct (Hwp i p) as [Hlt _].
  { unfold parent_of. by rewrite Ht. }
  unfold url_of. rewrite (resolved_url_fuel i (S p) p); [done|lia|lia].
Qed.

Lemma group_of_eq i t :
  h0 !! i = Some t ->
  group_of i = resolve_group (taskNameToGroup (name (event t)))
                 (match parent t with
                  | Some p => Some (group_of p)
                  | None => None
                  end).
Proof.
  intros Ht. unfold group_of at 1. cbn [resolved_group]. rewrite Ht.
  destruct (parent t) as [p|] eqn:Hp; [|done].
  destruct wf_h0 as [Hwp _]. destruct (Hwp i p) as [Hlt _].
  { unfold parent_of. by rewrite Ht. }
  unfold group_of. rewrite (resolved_group_fuel i (S p) p); [done|lia|lia].
Qed.

Definition ok_url (j : nat) (t : TaskNode) : Prop :=
  attributableURL t = url_of j.
Definition rest_url (t : TaskNode) :=
  (shape t, group t, duration t, selfTime t).

Definition ok_group (j : nat) (t : TaskNode) : Prop :=
  group t = group_of j.
Definition rest_group (t : TaskNode) :=
  (shape t, attributableURL t, duration t, selfTime t).

Lemma rest_url_shape t : (fun r => r.1.1.1) (rest_url t) = shape t.
Proof. done. Qed.
Lemma rest_group_shape t : (fun r => r.1.1.1) (rest_group t) = shape t.
Proof. done. Qed.

Lemma computeRecursiveAttributableURL_spec (fuel : nat) (h : store) (i : nat)
    (parentURL : option string) :
  shape <$> h = shape <$> h0 -> i < length h0 -> length h0 - i <= fuel ->
  parentURL = match parent_of h0 i with
              | Some p => url_of p
              | None => None
              end ->
  exists h' : store,
    _computeRecursiveAttributableURL fuel h i parentURL = Some h' /\
    pass_step rest_url ok_url h h' /\
    forall j, reach h0 i j -> pass_done ok_url h' j.
Proof.
  revert h i parentURL.
  induction fuel as [|fuel IH]; intros h i u Hs Hi Hfuel Hu; [lia|].
  assert (is_Some (h !! i)) as [t Ht].
  { apply lookup_lt_is_Some. by rewrite (shape_length _ _ Hs). }
  destruct (shape_lookup _ _ _ _ (eq_sym Hs) Ht) as (t0 & Ht0 & Hsh).
  unfold shape in Hsh. injection Hsh as Hev _ _ Hpar Hch.
  assert (Hurl : js_or u (taskURL (event t)) = url_of i).
  { rewrite (url_of_eq i t0 Ht0), Hu. unfold parent_of. rewrite Ht0. cbn.
    by rewrite Hev. }
  set (t1 := set_attributableURL (url_of i) t).
  destruct (pass_step_write rest_url ok_url h i t t1 Ht) as [Hstep1 Hdone1];
    [done|done|].
  pose proof (pass_step_shape _ _ _ rest_url_shape _ _ Hstep1) as Hs1.
  destruct (forEach_children_pass h0 rest_url ok_url _ rest_url_shape
              (fun h' child =>
                 _computeRecursiveAttributableURL fuel h' child (url_of i))
              (children t) (<[i := t1]> h))
    as (h2 & Hloop & Hstep2 & Hdone2); [|congruence|].
  { intros h' c Hc Hs'.
    assert (Hc0 : c ∈ children_of h0 i).
    { unfold children_of. rewrite Ht0. congruence. }
    destruct wf_h0 as [_ Hwc]. destruct (Hwc _ _ Hc0) as [Hlt Hpc].
    pose proof (parent_of_lt _ _ _ Hpc).
    apply IH; [done|done|lia|]. by rewrite Hpc. }
  exists h2. split; [|split].
  - cbn [_computeRecursiveAttributableURL]. rewrite Ht. cbn. rewrite Hurl.
    exact Hloop.
  - by eapply pass_step_trans.
  - intros j Hreach. inversion Hreach as [|? c ? Hc Hcj]; subst.
    + eapply pass_step_done; [exact Hstep2|done].
    + eapply Hdone2; [|exact Hcj]. unfold children_of in Hc.
      rewrite Ht0 in Hc. congruence.
Qed.

Lemma computeRecursiveTaskGroup_spec (fuel : nat) (h : store) (i : nat)
    (parentGroup : option TaskGroup) :
  shape <$> h = shape <$> h0 -> i < length h0 -> length h0 - i <= fuel ->
  parentGroup = match parent_of h0 i with
                | Some p => Some (group_of p)
                | None => None
                end ->
  exists h' : store,
    _computeRecursiveTaskGroup fuel h i parentGroup = Some h' /\
    pass_step rest_group ok_group h h' /\
    forall j, reach h0 i j -> pass_done ok_group h' j.
Proof.
  revert h i parentGroup.
  induction fuel as [|fuel IH]; intros h i u Hs Hi Hfuel Hu; [lia|].
  assert (is_Some (h !! i)) as [t Ht].
  { apply lookup_lt_is_Some. by rewrite (shape_length _ _ Hs). }
  destruct (shape_lookup _ _ _ _ (eq_sym Hs) Ht) as (t0 & Ht0 & Hsh).
  unfold shape in Hsh. injection Hsh as Hev _ _ Hpar Hch.
  assert (Hgrp : resolve_group (taskNameToGroup (name (event t))) u
                 = group_of i).
  { rewrite (group_of_eq i t0 Ht0), Hu. unfold parent_of. rewrite Ht0. cbn.
    by rewrite Hev. }
  set (t1 := set_group (group_of i) t).
  destruct (pass_step_write rest_group ok_group h i t t1 Ht)
    as [Hstep1 Hdone1]; [done|done|].
  pose proof (pass_step_shape _ _ _ rest_group_shape _ _ Hstep1) as Hs1.
  destruct (forEach_children_pass h0 rest_group ok_group _ rest_group_shape
              (fun h' child =>
                 _computeRecursiveTaskGroup fuel h' child (Some (group_of i)))
              (children t) (<[i := t1]> h))
    as (h2 & Hloop & Hstep2 & Hdone2); [|congruence|].
  { intros h' c Hc Hs'.
    assert (Hc0 : c ∈ children_of h0 i).
    { unfold children_of. rewrite Ht0. congruence. }
    destruct wf_h0 as [_ Hwc]. destruct (Hwc _ _ Hc0) as [Hlt Hpc].
    pose proof (parent_of_lt _ _ _ Hpc).
    apply IH; [done|done|lia|]. by rewrite Hpc. }
  exists h2. split; [|split].
  - cbn [_computeRecursiveTaskGroup]. rewrite Ht. cbn. rewrite Hgrp.
    exact Hloop.
  - by eapply pass_step_trans.
  - intros j Hreach. inversion Hreach as [|? c ? Hc Hcj]; subst.
    + eapply pass_step_done; [exact Hstep2|done].
    + eapply Hdone2; [|exact Hcj]. unfold children_of in Hc.
      rewrite Ht0 in Hc. congruence.
Qed.

End Attribution.

(** *** The loop over the tasks without a parent *)

Section MetricsLoop.

Variable h0 : store.
Hypothesis wf_h0 : wf_store h0.

Definition all_done (h : store) (j : nat) : Prop :=
  pass_done (ok_timing h0) h j /\ pass_done (ok_url h0) h j /\
  pass_done (ok_group h0) h j.

(** Nothing that a pass has written is lost later. *)
Definition advance (h h' : store) : Prop :=
  shape <$> h' = shape <$> h /\
  forall j,
    (pass_done (ok_timing h0) h j -> pass_done (ok_timing h0) h' j) /\
    (pass_done (ok_url h0) h j -> pass_done (ok_url h0) h' j) /\
    (pass_done (ok_group h0) h j -> pass_done (ok_group h0) h' j).

Lemma advance_refl h : advance h h.
Proof. split; [done|]. intros j. tauto. Qed.

Lemma advance_trans h1 h2 h3 : advance h1 h2 -> advance h2 h3 -> advance h1 h3.
Proof.
  intros [Hs1 H1] [Hs2 H2]. split; [congruence|].
  intros j. destruct (H1 j) as (?&?&?), (H2 j) as (?&?&?). tauto.
Qed.

Lemma frame_done {R} (rest : TaskNode -> R) (ok : nat -> TaskNode -> Prop)
    (h h' : store) j :
  (forall t t', rest t' = rest t -> ok j t -> ok j t') ->
  rest <$> h' = rest <$> h -> pass_done ok h j -> pass_done ok h' j.
Proof.
  intros Hframe Hr (t & Ht & Hok).
  assert (H : (rest <$> h') !! j = (rest <$> h) !! j) by (by rewrite Hr).
  rewrite !list_lookup_fmap, Ht in H.
  destruct (h' !! j) as [t'|] eqn:Ht'; cbn in H; [|done].
  exists t'. split; [done|]. eapply Hframe; [|exact Hok]. congruence.
Qed.

Lemma advance_timing h h' :
  pass_step rest_timing (ok_timing h0) h h' -> advance h h'.
Proof.
  intros Hstep.
  split; [exact (pass_step_shape _ _ _ rest_timing_shape _ _ Hstep)|].
  destruct Hstep as [Hr Hk]. intros j. split; [|split].
  - apply (pass_step_done rest_timing). by split.
  - apply (frame_done rest_timing); [|done].
    intros t t' E. unfold rest_timing, ok_url in *. congruence.
  - apply (frame_done rest_timing); [|done].
    intros t t' E. unfold rest_timing, ok_group in *. congruence.
Qed.

Lemma advance_url h h' :
  pass_step rest_url (ok_url h0) h h' -> advance h h'.
Proof.
  intros Hstep.
  split; [exact (pass_step_shape _ _ _ rest_url_shape _ _ Hstep)|].
  destruct Hstep as [Hr Hk]. intros j. split; [|split].
  - apply (frame_done rest_url); [|done].
    intros t t' E [Hd Hself]. unfold rest_url, shape in E.
    injection E as ? ? ? ? ? ? ? ?. split; congruence.
  - apply (pass_step_done rest_url). by split.
  - apply (frame_done rest_url); [|done].
    intros t t' E. unfold rest_url, ok_group in *. congruence.
Qed.

Lemma advance_group h h' :
  pass_step rest_group (ok_group h0) h h' -> advance h h'.
Proof.
  intros Hstep.
  split; [exact (pass_step_shape _ _ _ rest_group_shape _ _ Hstep)|].
  destruct Hstep as [Hr Hk]. intros j. split; [|split].
  - apply (frame_done rest_group); [|done].
    intros t t' E [Hd Hself]. unfold rest_group, shape in E.
    injection E as ? ? ? ? ? ? ? ?. split; congruence.
  - apply (frame_done rest_group); [|done].
    intros t t' E. unfold rest_group, ok_url in *. congruence.
  - apply (pass_step_done rest_group). by split.
Qed.

Lemma metrics_loop_spec (indices : list nat) (h : store) :
  shape <$> h = shape <$> h0 ->
  (forall i, i ∈ indices -> i < length h0) ->
  exists h' : store,
    metrics_loop h indices = Some h' /\ advance h h' /\
    forall r j, r ∈ indices -> parent_of h0 r = None -> reach h0 r j ->
      all_done h' j.
Proof.
  revert h. induction indices as [|i rest IH]; intros h Hs Hvalid.
  - exists h. split; [done|]. split; [apply advance_refl|].
    intros r j Hr. by apply elem_of_nil in Hr.
  - assert (Hi : i < length h0) by (apply Hvalid, list_elem_of_here).
    assert (is_Some (h !! i)) as [t Ht].
    { apply lookup_lt_is_Some. by rewrite (shape_length _ _ Hs). }
    assert (Hpar : parent t = parent_of h0 i).
    { rewrite <- (parent_of_shape _ _ i Hs). unfold parent_of. by rewrite Ht. }
    cbn [metrics_loop]. rewrite Ht. cbn [mbind option_bind].
    destruct (parent t) as [p|] eqn:Hp.
    + destruct (IH h Hs) as (h' & Hloop & Hadv & Hdone).
      { intros k Hk. by apply Hvalid, list_elem_of_further. }
      exists h'. split; [done|]. split; [done|].
      intros r j Hr Hroot Hreach. apply elem_of_cons in Hr as [->|Hr].
      * congruence.
      * by eapply Hdone.
    + rewrite (shape_length _ _ Hs).
      destruct (computeRecursiveSelfTime_spec h0 wf_h0 (length h0) h i)
        as (h1 & Hp1 & Hstep1 & Hdone1); [done|done|lia|].
      pose proof (advance_timing _ _ Hstep1) as Hadv1.
      destruct (computeRecursiveAttributableURL_spec h0 wf_h0 (length h0) h1 i
                  None) as (h2 & Hp2 & Hstep2 & Hdone2);
        [destruct Hadv1; congruence|done|lia|by rewrite <- Hpar|].
      pose proof (advance_url _ _ Hstep2) as Hadv2.
      destruct (computeRecursiveTaskGroup_spec h0 wf_h0 (length h0) h2 i None)
        as (h3 & Hp3 & Hstep3 & Hdone3);
        [destruct Hadv1, Hadv2; congruence|done|lia|by rewrite <- Hpar|].
      pose proof (advance_group _ _ Hstep3) as Hadv3.
      pose proof (advance_trans _ _ _ Hadv1 (advance_trans _ _ _ Hadv2 Hadv3))
        as Hadv.
      destruct (IH h3) as (h' & Hloop & Hadv' & Hdone).
      { destruct Hadv. congruence. }
      { intros k Hk. by apply Hvalid, list_elem_of_further. }
      exists h'. split; [|split].
      * rewrite Hp1. cbn. rewrite Hp2. cbn. rewrite Hp3. cbn. exact Hloop.
      * by eapply advance_trans.
      * intros r j Hr Hroot Hreach. apply elem_of_cons in Hr as [->|Hr];
          [|by eapply Hdone].
        destruct Hadv' as [_ Hkeep]. destruct (Hkeep j) as (K1 & K2 & K3).
        destruct Hadv3 as [_ Hkeep3]. destruct (Hkeep3 j) as (K31 & K32 & _).
        destruct Hadv2 as [_ Hkeep2]. destruct (Hkeep2 j) as (K21 & _ & _).
        split; [|split]; auto.
Qed.

(** After the first loop of [getMainThreadTasks], every node carries the
    values of the three passes. *)
Lemma metrics_pass_spec :
  exists h' : store,
    metrics_pass h0 = Some h' /\ shape <$> h' = shape <$> h0 /\
    forall j t, h' !! j = Some t ->
      ok_timing h0 j t /\ ok_url h0 j t /\ ok_group h0 j t.
Proof.
  unfold metrics_pass.
  destruct (metrics_loop_spec (seq 0 (length h0)) h0) as (h' & Hloop & Hadv & Hdone);
    [done| |].
  { intros i Hi. apply elem_of_seq in Hi. lia. }
  exists h'. split; [done|]. destruct Hadv as [Hs _]. split; [done|].
  intros j t Ht.
  assert (Hj : j < length h0).
  { rewrite <- (shape_length _ _ Hs). apply lookup_lt_is_Some. eauto. }
  destruct (reach_from_root h0 j wf_h0 Hj) as (r & Hroot & Hr & Hreach).
  destruct (Hdone r j) as ((t1 & Ht1 & H1) & (t2 & Ht2 & H2) & (t3 & Ht3 & H3));
    [apply elem_of_seq; lia|done|done|].
  split; [|split]; congruence.
Qed.

End MetricsLoop.

(** ** The second loop: rescaling *)

Lemma isFinite_div_1000 (a : num) :
  isFinite (num_div a (Fin 1000)) = isFinite a.
Proof. by destruct a. Qed.

Lemma isFinite_sub (a b : num) :
  isFinite (num_sub a b) = true -> isFinite a = true /\ isFinite b = true.
Proof. by destruct a, b. Qed.

Lemma isFinite_Fin (a : num) : isFinite a = true -> exists q, a = Fin q.
Proof. destruct a; try done. eauto. Qed.

Lemma isFinite_fold_add (l : list num) (a : num) :
  isFinite (fold_left num_add l a) = true ->
  isFinite a = true /\ Forall (fun x => isFinite x = true) l.
Proof.
  revert a. induction l as [|x l IH]; intros a; cbn [fold_left].
  - by split.
  - intros H. destruct (IH _ H) as [Ha Hl].
    assert (isFinite a = true /\ isFinite x = true) as [? ?]
      by (by destruct a, x).
    split; [done|]. by constructor.
Qed.

Lemma rescale_loop_ok (firstTs : num) (l l' : list TaskNode) :
  rescale_loop firstTs l = Ok l' ->
  l' = rescale_task firstTs <$> l /\
  Forall (fun t => isFinite (selfTime t) = true) l.
Proof.
  revert l'. induction l as [|t l IH]; intros l'; cbn [rescale_loop].
  - intros [= <-]. by split.
  - cbn [rescale_task selfTime]. rewrite isFinite_div_1000.
    destruct (isFinite (selfTime t)) eqn:E; cbn [negb]; [|done].
    destruct (rescale_loop firstTs l) as [r| |]; cbn [mbind result_bind];
      [|done|done].
    intros [= <-]. destruct (IH r eq_refl) as [-> Hall].
    split; [done|]. by constructor.
Qed.

Lemma rescale_loop_throw (firstTs : num) (l : list TaskNode) :
  Exists (fun t => isFinite (selfTime t) = false) l ->
  rescale_loop firstTs l = Throw (JsError "Invalid task timing data").
Proof.
  induction l as [|t l IH]; intros Hex; [by apply Exists_nil in Hex|].
  cbn [rescale_loop rescale_task selfTime]. rewrite isFinite_div_1000.
  destruct (isFinite (selfTime t)) eqn:E; cbn [negb]; [|done].
  apply Exists_cons in Hex as [Hex|Hex]; [congruence|].
  by rewrite (IH Hex).
Qed.

(** The duration of the node that a reference points to. *)
Definition duration_of (tasks : store) (c : nat) : num :=
  match tasks !! c with
  | Some t => duration t
  | None => NaN
  end.

Lemma ok_timing_finite (raw : store) j t :
  ok_timing raw j t -> isFinite (selfTime t) = true ->
  exists s e : Q,
    startTime t = Fin s /\ endTime t = Fin e /\
    duration t = Fin (e - s) /\
    Forall (fun x => isFinite x = true) (dur_of raw <$> children t).
Proof.
  intros [Hd Hself] Hfin. rewrite Hself in Hfin.
  apply isFinite_sub in Hfin as [Hfd Hsum].
  rewrite Hd in Hfd. apply isFinite_sub in Hfd as [He Hs].
  apply isFinite_Fin in He as [e He]. apply isFinite_Fin in Hs as [s Hs].
  exists s, e. split; [done|]. split; [done|].
  split; [by rewrite Hd, He, Hs|].
  unfold sum_num in Hsum. by apply isFinite_fold_add in Hsum as [_ ?].
Qed.

(** The tasks as they are between the two loops of [getMainThreadTasks]. *)
Definition after_metrics_pass (traceEvents : list TraceEvent) : result store :=
  raw ← _createTasksFromEvents traceEvents;
  of_option (metrics_pass raw).

Lemma getMainThreadTasks_unfold (traceEvents : list TraceEvent) :
  getMainThreadTasks traceEvents =
  h ← after_metrics_pass traceEvents; rescale_loop (firstTs_of h) h.
Proof.
  unfold getMainThreadTasks, after_metrics_pass.
  destruct (_createTasksFromEvents traceEvents); cbn [mbind result_bind]; done.
Qed.

Lemma after_metrics_pass_Ok (traceEvents : list TraceEvent) (h : store) :
  after_metrics_pass traceEvents = Ok h ->
  exists raw : store,
    _createTasksFromEvents traceEvents = Ok raw /\ wf_store raw /\
    shape <$> h = shape <$> raw /\
    forall j t, h !! j = Some t ->
      ok_timing raw j t /\ ok_url raw j t /\ ok_group raw j t.
Proof.
  unfold after_metrics_pass. intros H.
  destruct (createTasksFromEvents_wf traceEvents) as [_ Hwf].
  destruct (_createTasksFromEvents traceEvents) as [raw| |];
    cbn [mbind result_bind] in H; [|done|done].
  specialize (Hwf raw eq_refl).
  destruct (metrics_pass_spec raw Hwf) as (h' & Hpass & Hs & Hok).
  rewrite Hpass in H. cbn [of_option] in H. injection H as <-.
  by exists raw.
Qed.

Lemma after_metrics_pass_not_stuck (traceEvents : list TraceEvent) :
  after_metrics_pass traceEvents <> Stuck.
Proof.
  unfold after_metrics_pass.
  destruct (createTasksFromEvents_wf traceEvents) as [Hns Hwf].
  destruct (_createTasksFromEvents traceEvents) as [raw| |];
    cbn [mbind result_bind]; [|done|done].
  destruct (metrics_pass_spec raw (Hwf raw eq_refl)) as (h' & -> & _). done.
Qed.

Lemma rescale_loop_not_stuck (firstTs : num) (l : list TaskNode) :
  rescale_loop firstTs l <> Stuck.
Proof.
  induction l as [|t l IH]; cbn [rescale_loop]; [done|].
  destruct (negb _); [done|].
  destruct (rescale_loop firstTs l); cbn [mbind result_bind]; done.
Qed.

Lemma firstTs_finite (h : store) :
  Forall (fun t => isFinite (selfTime t) = true) h ->
  (forall j t, h !! j = Some t ->
     selfTime t = num_sub (duration t) (sum_num (dur_of h <$> children t)) /\
     duration t = num_sub (endTime t) (startTime t)) ->
  exists f : Q, firstTs_of h = Fin f.
Proof.
  intros Hfin Hok. unfold firstTs_of.
  destruct (h !! 0) as [t0|] eqn:H0; [|by exists 0%Q].
  destruct (Hok 0 t0 H0) as [Hself Hd].
  eapply Forall_lookup_1 in Hfin; [|exact H0]. cbv beta in Hfin.
  rewrite Hself in Hfin. apply isFinite_sub in Hfin as [Hfd _].
  rewrite Hd in Hfd. apply isFinite_sub in Hfd as [_ Hs].
  apply isFinite_Fin in Hs as [s ->]. by exists s.
Qed.

(** What [getMainThreadTasks] goes through when it returns. *)
Lemma getMainThreadTasks_inv (traceEvents : list TraceEvent) (tasks : store) :
  getMainThreadTasks traceEvents = Ok tasks ->
  exists (h : store) (f : Q),
    after_metrics_pass traceEvents = Ok h /\ firstTs_of h = Fin f /\
    tasks = rescale_task (Fin f) <$> h /\
    Forall (fun t => isFinite (selfTime t) = true) h.
Proof.
  intros H. rewrite getMainThreadTasks_unfold in H.
  destruct (after_metrics_pass traceEvents) as [h| |] eqn:Hh;
    cbn [mbind result_bind] in H; [|done|done].
  apply rescale_loop_ok in H as [-> Hfin].
  destruct (after_metrics_pass_Ok _ _ Hh) as (raw & _ & _ & Hs & Hok).
  assert (Hok' : forall j t, h !! j = Some t ->
            selfTime t = num_sub (duration t) (sum_num (dur_of h <$> children t))
            /\ duration t = num_sub (endTime t) (startTime t)).
  { intros j t Ht. destruct (Hok j t Ht) as [[Hd Hself] _]. split; [|done].
    rewrite Hself. do 2 f_equal. apply list_fmap_ext. intros ? c _.
    symmetry. by apply dur_of_shape. }
  destruct (firstTs_finite h Hfin Hok') as [f Hf].
  exists h, f. by rewrite Hf.
Qed.

(** The time fields of a node with a finite self time, before and after
    it is rescaled. *)
Lemma rescale_task_fields (raw : store) j t (f : Q) :
  ok_timing raw j t -> isFinite (selfTime t) = true ->
  exists s e self : Q,
    startTime t = Fin s /\ endTime t = Fin e /\
    duration t = Fin (e - s) /\ selfTime t = Fin self /\
    startTime (rescale_task (Fin f) t) = Fin ((s - f) / 1000) /\
    endTime (rescale_task (Fin f) t) = Fin ((e - f) / 1000) /\
    duration (rescale_task (Fin f) t) = Fin ((e - s) / 1000) /\
    selfTime (rescale_task (Fin f) t) = Fin (self / 1000).
Proof.
  intros Htim Hfin.
  destruct (ok_timing_finite raw j t Htim Hfin) as (s & e & Hst & He & Hd & _).
  destruct (isFinite_Fin _ Hfin) as [self Hself].
  exists s, e, self. repeat (split; [done|]).
  unfold rescale_task. cbn [startTime endTime duration selfTime].
  by rewrite Hst, He, Hd, Hself.
Qed.

(** C7: when [getMainThreadTasks] returns, its result is the list of
    tasks as the metric passes left it, rescaled node by node with one
    reference point [firstTs], the [startTime] of the first element of
    that list (0 when the list is empty): the new [startTime] is
    [(startTime - firstTs) / 1000], the new [endTime] is
    [(endTime - firstTs) / 1000], [duration] and [selfTime] are divided by
    1000, and no other field changes. *)
Theorem getMainThreadTasks_rescale (traceEvents : list TraceEvent)
    (tasks : store) :
  getMainThreadTasks traceEvents = Ok tasks ->
  exists (h : store) (firstTs : Q),
    after_metrics_pass traceEvents = Ok h /\
    match h !! 0 with
    | Some first => startTime first = Fin firstTs
    | None => firstTs = 0%Q
    end /\
    length tasks = length h /\
    forall i t, h !! i = Some t ->
      exists (t' : TaskNode) (s e d self : Q),
        tasks !! i = Some t' /\
        startTime t = Fin s /\ endTime t = Fin e /\
        duration t = Fin d /\ selfTime t = Fin self /\
        startTime t' = Fin ((s - firstTs) / 1000) /\
        endTime t' = Fin ((e - firstTs) / 1000) /\
        duration t' = Fin (d / 1000) /\
        selfTime t' = Fin (self / 1000) /\
        event t' = event t /\ parent t' = parent t /\
        children t' = children t /\ group t' = group t /\
        attributableURL t' = attributableURL t.
Proof.
  intros H.
  destruct (getMainThreadTasks_inv _ _ H) as (h & f & Hh & Hf & -> & Hfin).
  destruct (after_metrics_pass_Ok _ _ Hh) as (raw & _ & _ & Hs & Hok).
  exists h, f. split; [done|]. split.
  { unfold firstTs_of in Hf. destruct (h !! 0); [done|]. by injection Hf. }
  split; [by rewrite length_fmap|].
  intros i t Ht. destruct (Hok i t Ht) as [Htim _].
  eapply Forall_lookup_1 in Hfin; [|exact Ht]. cbv beta in Hfin.
  destruct (rescale_task_fields raw i t f Htim Hfin)
    as (s & e & self & Hst & He & Hd & Hself & Hst' & He' & Hd' & Hself').
  exists (rescale_task (Fin f) t), s, e, (e - s)%Q, self.
  split; [by rewrite list_lookup_fmap, Ht|].
  by repeat (split; [done|]).
Qed.

(** The sum of a list of numbers: they are added to [acc] one after the
    other, from the first to the last. *)
Fixpoint added_to (acc : num) (l : list num) : num :=
  match l with
  | [] => acc
  | x :: rest => added_to (num_add acc x) rest
  end.

Lemma added_to_fold (l : list num) (acc : num) :
  added_to acc l = fold_left num_add l acc.
Proof. revert acc. induction l as [|x l IH]; intros acc; cbn; [done|apply IH]. Qed.

(** The durations of the children after the metric passes are what the
    recursive calls have returned. *)
Lemma children_durations (raw h : store) (i : nat) (t : TaskNode) :
  wf_store raw -> shape <$> h = shape <$> raw ->
  (forall j tj, h !! j = Some tj -> ok_timing raw j tj) ->
  h !! i = Some t ->
  duration_of h <$> children t = dur_of raw <$> children t.
Proof.
  intros Hwf Hs Hok Ht. apply list_fmap_ext. intros k c Hc.
  assert (Hcin : c ∈ children_of raw i).
  { rewrite <- (children_of_shape _ _ i Hs). unfold children_of.
    rewrite Ht. apply list_elem_of_lookup. eauto. }
  destruct Hwf as [_ Hwc]. destruct (Hwc _ _ Hcin) as [_ Hpc].
  apply parent_of_lt in Hpc.
  assert (is_Some (h !! c)) as [tc Htc].
  { apply lookup_lt_is_Some. by rewrite (shape_length _ _ Hs). }
  destruct (Hok c tc Htc) as [Hdurc _].
  unfold duration_of. rewrite Htc, Hdurc.
  rewrite <- (dur_of_shape raw h c Hs). unfold dur_of. by rewrite Htc.
Qed.

(** C1, as the code has it: between the two loops of
    [getMainThreadTasks], the [duration] of every node is
    [endTime - startTime] and its [selfTime] is its [duration] minus the
    sum of the durations of its children, added to 0 in the order of
    [children]; every node of the list that is returned has a finite
    [duration] and a finite [selfTime], which are those two values
    divided by 1000, each on its own; when a node has a [duration] or a
    [selfTime] that is not finite after the metric passes, the call
    throws 'Invalid task timing data'; and the call always comes to one
    of these ends. *)
Theorem getMainThreadTasks_timing (traceEvents : list TraceEvent) :
  (forall h : store, after_metrics_pass traceEvents = Ok h ->
     forall i t, h !! i = Some t ->
       duration t = num_sub (endTime t) (startTime t) /\
       selfTime t
       = num_sub (duration t)
           (added_to (Fin 0) (duration_of h <$> children t))) /\
  (forall tasks : store, getMainThreadTasks traceEvents = Ok tasks ->
     exists h : store,
       after_metrics_pass traceEvents = Ok h /\ length tasks = length h /\
       forall i t', tasks !! i = Some t' ->
         isFinite (duration t') = true /\ isFinite (selfTime t') = true /\
         exists t, h !! i = Some t /\ children t' = children t /\
           isFinite (duration t) = true /\ isFinite (selfTime t) = true /\
           duration t' = num_div (duration t) (Fin 1000) /\
           selfTime t' = num_div (selfTime t) (Fin 1000)) /\
  (forall h : store, after_metrics_pass traceEvents = Ok h ->
     (exists i t, h !! i = Some t /\
        (isFinite (duration t) = false \/ isFinite (selfTime t) = false)) ->
     getMainThreadTasks traceEvents
       = Throw (JsError "Invalid task timing data")) /\
  getMainThreadTasks traceEvents <> Stuck.
Proof.
  split; [|split; [|split]].
  - intros h Hh i t Ht.
    destruct (after_metrics_pass_Ok _ _ Hh) as (raw & _ & Hwf & Hs & Hok).
    destruct (Hok i t Ht) as [[Hdur Hsf] _]. split; [done|].
    rewrite added_to_fold.
    rewrite (children_durations raw h i t Hwf Hs); [done| |done].
    intros j tj Htj. by destruct (Hok j tj Htj).
  - intros tasks H.
    destruct (getMainThreadTasks_inv _ _ H) as (h & f & Hh & Hf & -> & Hfin).
    exists h. split; [done|]. split; [by rewrite length_fmap|].
    intros i t' Ht'. rewrite list_lookup_fmap in Ht'.
    destruct (h !! i) as [t|] eqn:Ht; [|done]. injection Ht' as <-.
    destruct (after_metrics_pass_Ok _ _ Hh) as (raw & _ & _ & _ & Hok).
    destruct (Hok i t Ht) as [[Hdur Hsf] _].
    pose proof (Forall_lookup_1 _ _ _ _ Hfin Ht) as Hfi. cbv beta in Hfi.
    assert (Hfd : isFinite (duration t) = true).
    { rewrite Hsf in Hfi. by apply isFinite_sub in Hfi as [? _]. }
    cbn [rescale_task duration selfTime children].
    rewrite !isFinite_div_1000. split; [done|]. split; [done|].
    exists t. by repeat (split; [done|]).
  - intros h Hh (i & t & Ht & Hbad).
    rewrite getMainThreadTasks_unfold, Hh. cbn [mbind result_bind].
    apply rescale_loop_throw. apply Exists_exists. exists t.
    split; [apply list_elem_of_lookup; eauto|].
    destruct Hbad as [Hbad|Hbad]; [|done].
    destruct (after_metrics_pass_Ok _ _ Hh) as (raw & _ & _ & _ & Hok).
    destruct (Hok i t Ht) as [[_ Hsf] _].
    destruct (isFinite (selfTime t)) eqn:E; [|done].
    rewrite Hsf in E. apply isFinite_sub in E as [E _]. congruence.
  - rewrite getMainThreadTasks_unfold.
    pose proof (after_metrics_pass_not_stuck traceEvents) as Hns.
    destruct (after_metrics_pass traceEvents) as [h| |];
      cbn [mbind result_bind]; [|done|done].
    apply rescale_loop_not_stuck.
Qed.

(** The attribution in the words of its description.  A URL counts when
    it is defined and not the empty string; the own candidate of a node
    is the [url] of the argument data of its event when that one counts,
    else the [url] of the first frame of the stack trace, if there is
    one. *)
Definition own_candidate_URL (e : TraceEvent) : option string :=
  match data (args e) with
  | None => None
  | Some d =>
      match url d with
      | Some (String c u) => Some (String c u)
      | _ =>
          match stackTrace d with
          | Some (f :: _) => sf_url f
          | _ => None
          end
      end
  end.

Definition inherited_URL (parentURL own : option string) : option string :=
  match parentURL with
  | Some (String c u) => Some (String c u)
  | _ => own
  end.

Lemma js_or_inherited (a b : option string) : js_or a b = inherited_URL a b.
Proof. by destruct a as [[|c u]|]. Qed.

Lemma taskURL_own_candidate (e : TraceEvent) : taskURL e = own_candidate_URL e.
Proof.
  unfold taskURL, own_candidate_URL.
  destruct (data (args e)) as [d|]; [|reflexivity].
  rewrite js_or_inherited. cbn [default from_option id].
  destruct (url d) as [[|c u]|], (stackTrace d) as [[|f fs]|]; reflexivity.
Qed.

(** C9, as the code has it: after the metric passes, the
    [attributableURL] of a node without parent is its own candidate, and
    its [group] is what the read [taskNameToGroup[event.name]] gives, or
    [taskGroups.Other] when it gives nothing; the [attributableURL] of a
    node with a parent is the [attributableURL] of the parent when that
    one is defined and not the empty string, and the own candidate of the
    node otherwise, and its [group] is what the read gives for the name
    of its own event, or the [group] of the parent when it gives nothing.
    The nodes that [getMainThreadTasks] returns carry these same
    values. *)
Theorem attribution_resolved (traceEvents : list TraceEvent) :
  let resolved (h : store) :=
    forall i t, h !! i = Some t ->
      match parent t with
      | None =>
          attributableURL t = own_candidate_URL (event t) /\
          group t = default taskGroups_Other (taskNameToGroup (name (event t)))
      | Some p =>
          exists tp, h !! p = Some tp /\
            attributableURL t
            = inherited_URL (attributableURL tp) (own_candidate_URL (event t)) /\
            group t = default (group tp) (taskNameToGroup (name (event t)))
      end in
  (forall h : store, after_metrics_pass traceEvents = Ok h -> resolved h) /\
  (forall tasks : store, getMainThreadTasks traceEvents = Ok tasks ->
     resolved tasks).
Proof.
  intros resolved.
  assert (Hafter : forall h : store,
            after_metrics_pass traceEvents = Ok h -> resolved h).
  { intros h Hh i t Ht.
    destruct (after_metrics_pass_Ok _ _ Hh) as (raw & _ & Hwf & Hs & Hok).
    destruct (Hok i t Ht) as (_ & Hurl & Hgrp).
    destruct (shape_lookup _ _ _ _ (eq_sym Hs) Ht) as (t0 & Ht0 & Hsh).
    unfold shape in Hsh. injection Hsh as Hev _ _ Hpar _.
    unfold ok_url in Hurl. unfold ok_group in Hgrp.
    rewrite (url_of_eq raw Hwf i t0 Ht0) in Hurl.
    rewrite (group_of_eq raw Hwf i t0 Ht0) in Hgrp.
    rewrite Hev, Hpar, js_or_inherited, taskURL_own_candidate in Hurl.
    rewrite Hev, Hpar in Hgrp.
    destruct (parent t) as [p|] eqn:Hp.
    - destruct Hwf as [Hwp _]. destruct (Hwp i p) as [Hlt _].
      { unfold parent_of. rewrite Ht0. cbn. congruence. }
      assert (is_Some (h !! p)) as [tp Htp].
      { apply lookup_lt_is_Some. apply lookup_lt_Some in Ht. lia. }
      destruct (Hok p tp Htp) as (_ & Hurlp & Hgrpp).
      unfold ok_url in Hurlp. unfold ok_group in Hgrpp.
      exists tp. split; [done|]. rewrite Hurlp, Hgrpp. split; [done|].
      rewrite Hgrp. by destruct (taskNameToGroup (name (event t))).
    - split; [done|]. rewrite Hgrp.
      by destruct (taskNameToGroup (name (event t))). }
  split; [done|].
  intros tasks H i t' Ht'.
  destruct (getMainThreadTasks_inv _ _ H) as (h & f & Hh & _ & -> & _).
  rewrite list_lookup_fmap in Ht'.
  destruct (h !! i) as [t|] eqn:Ht; [|done]. injection Ht' as <-.
  cbn [rescale_task attributableURL group event parent].
  pose proof (Hafter h Hh i t Ht) as Hres.
  destruct (parent t) as [p|]; [|done].
  destruct Hres as (tp & Htp & Hu & Hg).
  exists (rescale_task (Fin f) tp). rewrite list_lookup_fmap, Htp.
  done.
Qed.

(** ** Nesting of the intervals *)

Definition parents_below (h : store) : Prop :=
  forall i p, parent_of h i = Some p -> p < i.

Lemma wf_parents_below (h : store) : wf_store h -> parents_below h.
Proof. intros [Hp _] i p H. by destruct (Hp i p H). Qed.

(** The open tasks: [currentTask] and its ancestors. *)
Inductive on_path (h : store) : option nat -> nat -> Prop :=
  | on_path_here c : on_path h (Some c) c
  | on_path_up c i : on_path h (parent_of h c) i -> on_path h (Some c) i.

Lemma on_path_le (h : store) cur i c :
  parents_below h -> on_path h cur i -> cur = Some c -> i <= c.
Proof.
  intros Hp Hon. revert c.
  induction Hon as [c|c i Hon IH]; intros c' [= <-]; [done|].
  destruct (parent_of h c) as [p|] eqn:Hpar; [|inversion Hon].
  pose proof (Hp _ _ Hpar). specialize (IH p eq_refl). lia.
Qed.

Lemma on_path_change (h h' : store) cur i N :
  parents_below h ->
  (forall k, k < N -> parent_of h' k = parent_of h k) ->
  (forall c, cur = Some c -> c < N) ->
  on_path h cur i <-> on_path h' cur i.
Proof.
  intros Hp Hsame Hcur. split.
  - intros Hon. induction Hon as [c|c i Hon IH]; [constructor|].
    specialize (Hcur c eq_refl). apply on_path_up. rewrite (Hsame c Hcur).
    apply IH. intros p Hpar. pose proof (Hp _ _ Hpar). lia.
  - intros Hon. induction Hon as [c|c i Hon IH]; [constructor|].
    specialize (Hcur c eq_refl). apply on_path_up.
    rewrite (Hsame c Hcur) in Hon, IH.
    apply IH. intros p Hpar. pose proof (Hp _ _ Hpar). lia.
Qed.

Lemma on_path_dec (h : store) cur i :
  parents_below h -> on_path h cur i \/ ~ on_path h cur i.
Proof.
  intros Hp. destruct cur as [c|]; [|right; inversion 1].
  induction (lt_wf c) as [c _ IH].
  destruct (decide (i = c)) as [->|Hne]; [left; constructor|].
  destruct (parent_of h c) as [p|] eqn:Hpar.
  - pose proof (Hp _ _ Hpar) as Hlt. destruct (IH p Hlt) as [Hon|Hoff].
    + left. apply on_path_up. by rewrite Hpar.
    + right. inversion 1; subst; [done|]. apply Hoff. congruence.
  - right. inversion 1 as [|? ? Hon]; subst; [done|].
    rewrite Hpar in Hon. inversion Hon.
Qed.

Lemma ended_by_true (now : Q) (t : TaskNode) :
  ended_by now t = true -> exists e, endTime t = Fin e /\ (e <= now)%Q.
Proof.
  unfold ended_by. destruct (endTime t) as [| |e|]; cbn; try done.
  intros H. exists e. split; [done|]. by apply Qle_bool_iff.
Qed.

Lemma ended_by_false (now e : Q) (t : TaskNode) :
  ended_by now t = false -> endTime t = Fin e -> (now < e)%Q.
Proof.
  unfold ended_by. intros H He. rewrite He in H. cbn in H.
  destruct (Qlt_le_dec now e) as [|Hle]; [done|].
  apply Qle_bool_iff in Hle. congruence.
Qed.

(** The loop that moves up leaves the open tasks that have not ended. *)
Lemma ascends_path (h : store) now cur r :
  ascends h now cur r ->
  (forall i, on_path h r i -> on_path h cur i) /\
  (forall i, on_path h cur i ->
     on_path h r i \/ exists t, h !! i = Some t /\ ended_by now t = true).
Proof.
  induction 1 as [|c t Ht He|c t r Ht He Hup [IH1 IH2]].
  - split; [done|]. intros i Hi. by left.
  - split; [done|]. intros i Hi. by left.
  - assert (Hpar : parent_of h c = parent t)
      by (unfold parent_of; by rewrite Ht).
    split.
    + intros i Hi. apply on_path_up. rewrite Hpar. by apply IH1.
    + intros i Hi. inversion Hi as [|? ? Hi']; subst.
      * right. by exists t.
      * rewrite Hpar in Hi'. by apply IH2.
Qed.

(** How a child lies with respect to its parent. *)
Definition nested (tj tp : TaskNode) : Prop :=
  (ts (event tp) <= ts (event tj))%Q /\
  (ph (event tp) = "X" ->
   (ts (event tj) < ts (event tp) + dur_or_0 (event tp))%Q) /\
  (ph (event tp) = "B" -> forall e, endTime tp = Fin e ->
   (ts (event tj) <= e)%Q /\ exists ej, endTime tj = Fin ej /\ (ej <= e)%Q).

(** The state of the scan after an event at time [now], for events in
    ascending order of timestamp. *)
Record timed (h : store) (cur : option nat) (now : Q) : Prop := {
  timed_kind : forall i t, h !! i = Some t ->
    ph (event t) = "X" \/ ph (event t) = "B";
  timed_start : forall i t, h !! i = Some t ->
    startTime t = Fin (ts (event t)) /\ (ts (event t) <= now)%Q;
  timed_complete : forall i t, h !! i = Some t -> ph (event t) = "X" ->
    endTime t = Fin (ts (event t) + dur_or_0 (event t));
  timed_open : forall i t, h !! i = Some t -> on_path h cur i ->
    ph (event t) = "B" -> endTime t = NaN;
  timed_closed : forall i t, h !! i = Some t -> ~ on_path h cur i ->
    exists e, endTime t = Fin e /\ (e <= now)%Q;
  timed_nest : forall j tj p tp,
    h !! j = Some tj -> parent tj = Some p -> h !! p = Some tp ->
    nested tj tp
}.

Lemma timed_nil (now : Q) : timed [] None now.
Proof. split; intros; by rewrite ?lookup_nil in *. Qed.

(** The state after the loop that moves up, at the time of the event. *)
Lemma timed_ascend (h : store) cur r (now now' : Q) :
  parents_below h ->
  (now <= now')%Q -> timed h cur now -> ascends h now' cur r ->
  timed h r now'.
Proof.
  intros Hwf Hle [K0 K1 K2 K3 K4 G] Hup.
  destruct (ascends_path _ _ _ _ Hup) as [Hsub Hleft].
  split; try done.
  - intros i t Ht. destruct (K1 i t Ht). split; [done|lra].
  - intros i t Ht Hon. apply (K3 i t Ht). by apply Hsub.
  - intros i t Ht Hoff.
    destruct (on_path_dec h cur i Hwf) as [Hon|Hon].
    + destruct (Hleft i Hon) as [|(t' & Ht' & He)]; [done|].
      rewrite Ht in Ht'. injection Ht' as <-. by apply ended_by_true.
    + destruct (K4 i t Ht Hon) as (e & He & Hle'). exists e. split; [done|lra].
Qed.

(** The fields that the nesting is about. *)
Definition core (t : TaskNode) : TraceEvent * num * num * option nat :=
  (event t, startTime t, endTime t, parent t).

Lemma core_lookup (h h' : store) i t' :
  core <$> h' = core <$> h -> h' !! i = Some t' ->
  exists t, h !! i = Some t /\ event t' = event t /\
    startTime t' = startTime t /\ endTime t' = endTime t /\
    parent t' = parent t.
Proof.
  intros Hs Ht.
  assert (H : (core <$> h') !! i = (core <$> h) !! i) by (by rewrite Hs).
  rewrite !list_lookup_fmap, Ht in H.
  destruct (h !! i) as [t|]; cbn in H; [|done].
  exists t. split; [done|]. unfold core in H. by simplify_eq.
Qed.

Lemma core_parent_of (h h' : store) i :
  core <$> h' = core <$> h -> parent_of h' i = parent_of h i.
Proof.
  intros Hs. unfold parent_of.
  destruct (h' !! i) as [t'|] eqn:Ht'.
  - destruct (core_lookup _ _ _ _ Hs Ht') as (t & -> & _ & _ & _ & Hp). done.
  - assert (H : (core <$> h') !! i = (core <$> h) !! i) by (by rewrite Hs).
    rewrite !list_lookup_fmap, Ht' in H. by destruct (h !! i).
Qed.

Lemma on_path_core (h h' : store) cur i :
  core <$> h' = core <$> h -> on_path h cur i -> on_path h' cur i.
Proof.
  intros Hs. induction 1 as [c|c i Hon IH]; [constructor|].
  apply on_path_up. by rewrite (core_parent_of _ _ _ Hs).
Qed.

Lemma timed_core (h h' : store) cur now :
  core <$> h' = core <$> h -> timed h cur now -> timed h' cur now.
Proof.
  intros Hs [K0 K1 K2 K3 K4 G].
  split.
  - intros i t' Ht'.
    destruct (core_lookup _ _ _ _ Hs Ht') as (t & Ht & -> & _). by eapply K0.
  - intros i t' Ht'.
    destruct (core_lookup _ _ _ _ Hs Ht') as (t & Ht & -> & -> & _).
    by eapply K1.
  - intros i t' Ht'.
    destruct (core_lookup _ _ _ _ Hs Ht') as (t & Ht & -> & _ & -> & _).
    by eapply K2.
  - intros i t' Ht' Hon.
    destruct (core_lookup _ _ _ _ Hs Ht') as (t & Ht & -> & _ & -> & _).
    apply (K3 i t Ht). by apply (on_path_core h' h).
  - intros i t' Ht' Hoff.
    destruct (core_lookup _ _ _ _ Hs Ht') as (t & Ht & _ & _ & -> & _).
    apply (K4 i t Ht). intros Hon. apply Hoff. by apply (on_path_core h h').
  - intros j tj' p tp' Hj Hpar Hp.
    destruct (core_lookup _ _ _ _ Hs Hj) as (tj & Htj & Ej & _ & Eje & Ejp).
    destruct (core_lookup _ _ _ _ Hs Hp) as (tp & Htp & Ep & _ & Epe & _).
    unfold nested. rewrite Ej, Ep, Eje, Epe.
    apply (G j tj p tp); congruence.
Qed.

Lemma new_node_fields (e : TraceEvent) (p : option nat) :
  event (new_node e p) = e /\ startTime (new_node e p) = Fin (ts e) /\
  parent (new_node e p) = p /\
  endTime (new_node e p)
  = (if bool_decide (ph e = "X") then Fin (ts e + dur_or_0 e) else NaN).
Proof. unfold new_node, _createNewTaskNode. by destruct p. Qed.

(** A new task is pushed under the current one. *)
Lemma timed_push (h : store) (p : option nat) (e : TraceEvent) :
  parents_below h -> timed h p (ts e) ->
  (forall c, p = Some c ->
     exists tc, h !! c = Some tc /\ ended_by (ts e) tc = false) ->
  ph e = "X" \/ ph e = "B" ->
  timed (h ++ [new_node e p]) (Some (length h)) (ts e).
Proof.
  intros Hpb [K0 K1 K2 K3 K4 G] Hp Hph.
  destruct (new_node_fields e p) as (Nev & Nst & Npar & Nend).
  assert (Hvalid : forall c, p = Some c -> c < length h).
  { intros c Hc. destruct (Hp c Hc) as (tc & Htc & _).
    apply lookup_lt_is_Some. eauto. }
  assert (Hpath : forall i, on_path (h ++ [new_node e p]) (Some (length h)) i
                  <-> i = length h \/ on_path h p i).
  { intros i.
    assert (Hsame : forall k, k < length h ->
              parent_of (h ++ [new_node e p]) k = parent_of h k).
    { intros k Hk. rewrite parent_of_snoc. by rewrite decide_False by lia. }
    assert (Hn : parent_of (h ++ [new_node e p]) (length h) = p).
    { rewrite parent_of_snoc. by rewrite decide_True. }
    rewrite (on_path_change h (h ++ [new_node e p]) p i (length h) Hpb Hsame Hvalid).
    split.
    - inversion 1 as [|? ? Hon]; subst; [by left|]. rewrite Hn in Hon. by right.
    - intros [->|Hon]; [constructor|]. apply on_path_up. by rewrite Hn. }
  assert (Hold : forall i t, (h ++ [new_node e p]) !! i = Some t ->
            i < length h /\ h !! i = Some t \/
            i = length h /\ t = new_node e p).
  { intros i t Ht. apply lookup_snoc_Some in Ht as [?|[? ?]]; [by left|by right]. }
  split.
  - intros i t Ht. destruct (Hold i t Ht) as [[_ Hi]|[_ ->]];
      [by eapply K0|by rewrite Nev].
  - intros i t Ht. destruct (Hold i t Ht) as [[_ Hi]|[_ ->]]; [by eapply K1|].
    rewrite Nev, Nst. split; [done|lra].
  - intros i t Ht. destruct (Hold i t Ht) as [[_ Hi]|[_ ->]]; [by eapply K2|].
    rewrite Nev, Nend. intros HX. by rewrite (bool_decide_eq_true_2 _ HX).
  - intros i t Ht Hon HB. apply Hpath in Hon.
    destruct (Hold i t Ht) as [[Hlt Hi]|[_ ->]].
    + destruct Hon as [->|Hon]; [lia|]. by eapply K3.
    + rewrite Nev in HB. rewrite Nend, bool_decide_eq_false_2; [done|].
      rewrite HB. discriminate.
  - intros i t Ht Hoff. destruct (Hold i t Ht) as [[Hlt Hi]|[-> _]].
    + apply (K4 i t Hi). intros Hon. apply Hoff, Hpath. by right.
    + exfalso. apply Hoff, Hpath. by left.
  - intros j tj q tq Hj Hpar Hq.
    destruct (Hold j tj Hj) as [[Hlt Hj']|[-> ->]].
    + assert (q < j) by (apply (Hpb j q); unfold parent_of; by rewrite Hj').
      destruct (Hold q tq Hq) as [[_ Hq']|[? _]]; [|lia]. by eapply G.
    + rewrite Npar in Hpar. destruct (Hp q Hpar) as (tc & Htc & Hnot).
      destruct (Hold q tq Hq) as [[_ Hq']|[? _]];
        [|specialize (Hvalid q Hpar); lia].
      rewrite Htc in Hq'. injection Hq' as ->.
      unfold nested. rewrite Nev. split; [|split].
      * by destruct (K1 q tq Htc).
      * intros HX. eapply ended_by_false; [exact Hnot|]. by eapply K2.
      * intros HB e' He'. rewrite (K3 q tq Htc) in He'; [done| |done].
        rewrite Hpar. constructor.
Qed.

(** The current task is closed by an End event. *)
Lemma timed_end (h : store) (c : nat) (tc : TaskNode) (now : Q) :
  parents_below h -> timed h (Some c) now ->
  h !! c = Some tc -> ph (event tc) = "B" ->
  timed (<[c := set_endTime (Fin now) tc]> h) (parent tc) now.
Proof.
  intros Hpb [K0 K1 K2 K3 K4 G] Htc HB.
  set (h' := <[c := set_endTime (Fin now) tc]> h).
  assert (Hc : c < length h) by (apply lookup_lt_is_Some; eauto).
  assert (Hpar : parent_of h c = parent tc)
    by (unfold parent_of; by rewrite Htc).
  assert (Hsame : forall k, parent_of h' k = parent_of h k).
  { intros k. by apply parent_of_set_endTime. }
  assert (Hpath : forall i, on_path h' (parent tc) i <->
                            i <> c /\ on_path h (Some c) i).
  { intros i.
    rewrite <- (on_path_change h h' (parent tc) i (length h) Hpb
                  (fun k _ => Hsame k)).
    - split.
      + intros Hon. split.
        * destruct (parent tc) as [p|] eqn:Hp; [|inversion Hon].
          pose proof (on_path_le _ _ _ _ Hpb Hon eq_refl).
          pose proof (Hpb c p ltac:(congruence)). lia.
        * apply on_path_up. by rewrite Hpar.
      + intros [Hne Hon]. inversion Hon as [|? ? Hon']; subst; [done|].
        by rewrite Hpar in Hon'.
    - intros p Hp. pose proof (Hpb c p ltac:(congruence)). lia. }
  assert (Hlook : forall i t, h' !! i = Some t ->
            i = c /\ t = set_endTime (Fin now) tc \/ i <> c /\ h !! i = Some t).
  { intros i t. unfold h'. destruct (decide (c = i)) as [->|Hne].
    - rewrite list_lookup_insert_eq by done. intros [= <-]. by left.
    - rewrite list_lookup_insert_ne by done. intros H. right. by split. }
  split.
  - intros i t Ht. destruct (Hlook i t Ht) as [[_ ->]|[_ Hi]];
      [by left + right; eauto|by eapply K0].
  - intros i t Ht. destruct (Hlook i t Ht) as [[-> ->]|[_ Hi]];
      [by apply (K1 c tc)|by eapply K1].
  - intros i t Ht. destruct (Hlook i t Ht) as [[-> ->]|[_ Hi]];
      [|by eapply K2].
    cbn [set_endTime event]. rewrite HB. discriminate.
  - intros i t Ht Hon HB'. apply Hpath in Hon as [Hne Hon].
    destruct (Hlook i t Ht) as [[? _]|[_ Hi]]; [done|]. by eapply K3.
  - intros i t Ht Hoff. destruct (Hlook i t Ht) as [[-> ->]|[Hne Hi]].
    + exists now. split; [done|lra].
    + apply (K4 i t Hi). intros Hon. apply Hoff, Hpath. by split.
  - intros j tj p tp Hj Hparj Hp.
    assert (Hold : exists tj0 tp0, h !! j = Some tj0 /\ h !! p = Some tp0 /\
              event tj = event tj0 /\ event tp = event tp0 /\
              parent tj0 = Some p).
    { destruct (Hlook j tj Hj) as [[-> ->]|[_ Hj']],
               (Hlook p tp Hp) as [[-> ->]|[_ Hp']]; eauto 10. }
    destruct Hold as (tj0 & tp0 & Hj0 & Hp0 & Ej & Ep & Hpar0).
    destruct (G j tj0 p tp0 Hj0 Hpar0 Hp0) as (G1 & G2 & G3).
    assert (Hlt : p < j) by (apply (Hpb j p); unfold parent_of; by rewrite Hj0).
    unfold nested. rewrite Ej, Ep. split; [done|]. split; [done|].
    intros HBp e He.
    destruct (Hlook p tp Hp) as [[-> ->]|[Hnep Hp']].
    + (* the children of the task that is closed *)
      cbn [set_endTime endTime] in He. injection He as <-.
      destruct (Hlook j tj Hj) as [[? _]|[_ Hj']]; [lia|].
      rewrite Hj0 in Hj'. injection Hj' as <-.
      split; [by destruct (K1 j tj0 Hj0)|].
      apply (K4 j tj0 Hj0). intros Hon.
      pose proof (on_path_le _ _ _ _ Hpb Hon eq_refl). lia.
    + rewrite Hp0 in Hp'. injection Hp' as <-.
      destruct (Hlook j tj Hj) as [[-> ->]|[_ Hj']].
      * (* the parent of the task that is closed is still open *)
        rewrite Htc in Hj0. injection Hj0 as <-.
        rewrite (K3 p tp0 Hp0) in He; [done| |done].
        apply on_path_up. rewrite Hpar, Hpar0. constructor.
      * rewrite Hj0 in Hj'. injection Hj' as <-. by apply G3.
Qed.

Lemma parents_below_push_child (h : store) n c :
  parents_below h -> parents_below (alter (push_child n) c h).
Proof. intros Hpb i p. rewrite parent_of_push_child. apply Hpb. Qed.

Lemma core_push_child (h : store) n c :
  core <$> alter (push_child n) c h = core <$> h.
Proof.
  apply list_eq. intros i. rewrite !list_lookup_fmap, list_lookup_alter.
  destruct (decide (c = i)) as [->|]; [|done]. by destruct (h !! i).
Qed.

(** One round of the scan, for an event that is not earlier than the
    events before it. *)
Lemma handled_timed startedInPageEvt (h : store) cur e st' (now : Q) :
  wf_scan (h, cur) -> timed h cur now -> (now <= ts e)%Q ->
  handled startedInPageEvt h cur e (Ok st') ->
  timed st'.1 st'.2 now \/ timed st'.1 st'.2 (ts e).
Proof.
  intros [Hwf Hcur] Ht Hle H. cbn [fst snd] in Hwf, Hcur.
  pose proof (wf_parents_below _ Hwf) as Hpb.
  inversion H as [Hn|Hrel Hs|Hrel Hasc HE|Hrel Hasc HE|c Hrel Hasc HE
                 |c t Hrel Hasc HE Htc HB|c t Hrel Hasc HE Htc HB];
    subst; clear H; cbn [fst snd].
  - by left.
  - right. apply ascend_ascends in Hasc.
    pose proof (timed_ascend _ _ _ _ _ Hpb Hle Ht Hasc) as Ht'.
    apply timed_push; [done|done|done|].
    destruct Hrel as (_ & _ & [?|[?|?]]); [by left|by right|done].
  - right. apply ascend_ascends in Hasc.
    pose proof (timed_ascend _ _ _ _ _ Hpb Hle Ht Hasc) as Ht'.
    destruct (ascends_stops _ _ _ _ _ Hasc eq_refl) as (tc & Htc & Hnot).
    rewrite <- (length_alter (push_child (length h)) h c) at 2.
    apply timed_push.
    + by apply parents_below_push_child.
    + eapply timed_core; [|exact Ht']. apply core_push_child.
    + intros c' [= <-]. exists (push_child (length h) tc). split.
      * by rewrite list_lookup_alter_eq, Htc.
      * done.
    + destruct Hrel as (_ & _ & [?|[?|?]]); [by left|by right|done].
  - right. apply ascend_ascends in Hasc.
    pose proof (timed_ascend _ _ _ _ _ Hpb Hle Ht Hasc) as Ht'.
    by apply timed_end.
Qed.

Lemma scan_events_timed startedInPageEvt (events : list TraceEvent)
    (st st' : scan) (now : Q) :
  wf_scan st -> timed st.1 st.2 now ->
  StronglySorted (fun a b => (ts a <= ts b)%Q) events ->
  Forall (fun e => (now <= ts e)%Q) events ->
  scan_events startedInPageEvt st events = Ok st' ->
  exists now', timed st'.1 st'.2 now'.
Proof.
  revert st now. induction events as [|e rest IH];
    intros [h cur] now Hwf Ht Hsorted Hnow; cbn [scan_events].
  - intros [= <-]. by exists now.
  - apply StronglySorted_inv in Hsorted as [Hsorted Hfirst].
    apply Forall_cons in Hnow as [Hle Hnow].
    pose proof (handle_event_cases startedInPageEvt h cur e) as Hcase.
    destruct (handle_event startedInPageEvt (h, cur) e) as [st1| |] eqn:E;
      cbn [mbind result_bind]; [|done|done].
    pose proof (handled_wf _ _ _ _ _ Hwf Hcase) as Hwf1.
    destruct st1 as [h1 cur1].
    destruct (handled_timed _ _ _ _ _ _ Hwf Ht Hle Hcase) as [Ht1|Ht1].
    + by apply (IH (h1, cur1) now).
    + by apply (IH (h1, cur1) (ts e)).
Qed.

(** C2, as the code has it: in the tasks that the reconstruction returns
    for events in ascending order of timestamp, a task with a parent
    starts at or after the start of its parent; when the parent is a
    Complete event, the task starts before the end of the parent (its own
    end is not compared with that of the parent); when the parent was
    opened by a Begin event and has an end, the task starts and ends at or
    before the end of the parent. *)
Theorem children_nested_in_parents (traceEvents : list TraceEvent)
    (tasks : store) :
  StronglySorted (fun a b => (ts a <= ts b)%Q) traceEvents ->
  _createTasksFromEvents traceEvents = Ok tasks ->
  forall j tj p tp,
    tasks !! j = Some tj -> parent tj = Some p -> tasks !! p = Some tp ->
    exists sj sp : Q,
      startTime tj = Fin sj /\ startTime tp = Fin sp /\ (sp <= sj)%Q /\
      (ph (event tp) = "X" \/ ph (event tp) = "B") /\
      (ph (event tp) = "X" ->
       exists ep, endTime tp = Fin ep /\ (sj < ep)%Q) /\
      (ph (event tp) = "B" -> forall ep, endTime tp = Fin ep ->
       (sj <= ep)%Q /\ exists ej, endTime tj = Fin ej /\ (ej <= ep)%Q).
Proof.
  intros Hsorted H j tj p tp Hj Hpar Hp.
  unfold _createTasksFromEvents in H.
  destruct (findTracingStartedEvt traceEvents) as [[started frameId]| |];
    cbn [mbind result_bind] in H; [|done|done].
  destruct (scan_events started ([], None) traceEvents) as [[h cur]| |] eqn:Hscan;
    cbn [mbind result_bind] in H; [|done|done].
  injection H as ->.
  destruct traceEvents as [|e0 rest]; [cbn in Hscan; by simplify_eq|].
  assert (exists now, timed tasks cur now) as [now [K0 K1 K2 K3 K4 G]].
  { apply (scan_events_timed started (e0 :: rest) ([], None) (tasks, cur)
             (ts e0)).
    - split; [apply wf_store_nil|done].
    - apply timed_nil.
    - done.
    - apply StronglySorted_inv in Hsorted as [_ Hfirst].
      constructor; [lra|done].
    - done. }
  destruct (G j tj p tp Hj Hpar Hp) as (G1 & G2 & G3).
  destruct (K1 j tj Hj) as [Hsj _]. destruct (K1 p tp Hp) as [Hsp _].
  exists (ts (event tj)), (ts (event tp)).
  split; [done|]. split; [done|]. split; [done|].
  split; [by eapply K0|]. split; [|done].
  intros HX. eexists. split; [by eapply K2|]. by apply G2.
Qed.

(** * Further properties of the task tree *)

(** ** Invariants of the scan *)

(** A property of the state of the scan that every round keeps holds
    when the scan returns. *)
Lemma scan_events_invariant startedInPageEvt (I : scan -> Prop) :
  (forall (h : store) cur e st', wf_scan (h, cur) -> I (h, cur) ->
     handled startedInPageEvt h cur e (Ok st') -> I st') ->
  forall (events : list TraceEvent) (st st' : scan),
    wf_scan st -> I st ->
    scan_events startedInPageEvt st events = Ok st' -> I st'.
Proof.
  intros Hstep events.
  induction events as [|e rest IH]; intros [h cur] st' Hwf HI;
    cbn [scan_events].
  - by intros [= <-].
  - pose proof (handle_event_cases startedInPageEvt h cur e) as Hcase.
    destruct (handle_event startedInPageEvt (h, cur) e) as [st1| |] eqn:E;
      cbn [mbind result_bind]; [|done|done].
    apply IH; [by eapply handled_wf|by eapply Hstep].
Qed.

Lemma wf_scan_init : wf_scan (([] : store), None).
Proof. split; [apply wf_store_nil|done]. Qed.

(** The scan behind a call of [_createTasksFromEvents] that returns. *)
Lemma createTasksFromEvents_scan (traceEvents : list TraceEvent) (tasks : store) :
  _createTasksFromEvents traceEvents = Ok tasks ->
  exists startedInPageEvt frameId cur,
    findTracingStartedEvt traceEvents = Ok (startedInPageEvt, frameId) /\
    scan_events startedInPageEvt ([], None) traceEvents = Ok (tasks, cur).
Proof.
  unfold _createTasksFromEvents. intros H.
  destruct (findTracingStartedEvt traceEvents) as [[started frameId]| |];
    cbn [mbind result_bind] in H; [|done|done].
  destruct (scan_events started ([], None) traceEvents) as [[h cur]| |] eqn:Hscan;
    cbn [mbind result_bind] in H; [|done|done].
  injection H as ->. by exists started, frameId, cur.
Qed.

Lemma scan_createTasksFromEvents (traceEvents : list TraceEvent)
    startedInPageEvt frameId (tasks : store) cur :
  findTracingStartedEvt traceEvents = Ok (startedInPageEvt, frameId) ->
  scan_events startedInPageEvt ([], None) traceEvents = Ok (tasks, cur) ->
  _createTasksFromEvents traceEvents = Ok tasks.
Proof.
  intros Hf Hs. unfold _createTasksFromEvents.
  rewrite Hf. cbn [mbind result_bind]. by rewrite Hs.
Qed.

(** The links of the tasks that [getMainThreadTasks] returns are those of
    the tasks of the reconstruction. *)
Lemma returned_links (traceEvents : list TraceEvent) (tasks : store) :
  getMainThreadTasks traceEvents = Ok tasks ->
  exists raw : store,
    _createTasksFromEvents traceEvents = Ok raw /\ wf_store raw /\
    length tasks = length raw /\
    forall i t, tasks !! i = Some t ->
      exists t0, raw !! i = Some t0 /\ event t = event t0 /\
        parent t = parent t0 /\ children t = children t0.
Proof.
  intros H.
  destruct (getMainThreadTasks_inv _ _ H) as (h & f & Hh & _ & -> & _).
  destruct (after_metrics_pass_Ok _ _ Hh) as (raw & Hraw & Hwf & Hs & _).
  exists raw. split; [done|]. split; [done|].
  split; [by rewrite length_fmap, (shape_length _ _ Hs)|].
  intros i t' Ht'. rewrite list_lookup_fmap in Ht'.
  destruct (h !! i) as [t|] eqn:Ht; [|done]. injection Ht' as <-.
  destruct (shape_lookup _ _ _ _ (eq_sym Hs) Ht) as (t0 & Ht0 & Hsh).
  exists t0. split; [done|]. unfold shape in Hsh.
  cbn [rescale_task event parent children]. by simplify_eq.
Qed.

(** ** The tasks and the events that open them *)

(** The events that open a task: Complete and Begin events of the main
    thread. *)
Definition opens_task (startedInPageEvt e : TraceEvent) : bool :=
  bool_decide (pid e = pid startedInPageEvt) &&
  bool_decide (tid e = tid startedInPageEvt) &&
  (bool_decide (ph e = "X") || bool_decide (ph e = "B")).

Lemma opens_task_spec startedInPageEvt e :
  opens_task startedInPageEvt e = true <->
  relevant startedInPageEvt e /\ ph e <> "E".
Proof.
  unfold opens_task, relevant.
  rewrite !andb_true_iff, orb_true_iff, !bool_decide_eq_true. split.
  - intros [[Hp Ht] [HX|HB]]; (split; [tauto|]); intros HE;
      rewrite HE in *; discriminate.
  - intros [(Hp & Ht & [HX|[HB|HE]]) HnE]; tauto.
Qed.

Lemma events_push_child (h : store) n c :
  event <$> alter (push_child n) c h = event <$> h.
Proof.
  apply list_eq. intros i. rewrite !list_lookup_fmap, list_lookup_alter.
  destruct (decide (c = i)) as [->|]; [|done]. by destruct (h !! i).
Qed.

Lemma events_set_endTime (h : store) c t v :
  h !! c = Some t -> event <$> <[c := set_endTime v t]> h = event <$> h.
Proof.
  intros Ht. rewrite list_fmap_insert. apply list_insert_id.
  by rewrite list_lookup_fmap, Ht.
Qed.

Lemma new_node_event (e : TraceEvent) (p : option nat) :
  event (new_node e p) = e.
Proof. by destruct (new_node_fields e p). Qed.

Lemma new_node_children (e : TraceEvent) (p : option nat) :
  children (new_node e p) = [].
Proof. unfold new_node, _createNewTaskNode. by destruct p. Qed.

(** One round of the scan appends the event to the events of the tasks
    when it opens a task, and leaves them as they are otherwise. *)
Lemma handled_events startedInPageEvt (h : store) cur e st' :
  handled startedInPageEvt h cur e (Ok st') ->
  event <$> st'.1 =
  (event <$> h) ++ (if opens_task startedInPageEvt e then [e] else []).
Proof.
  intros H.
  inversion H as [Hn|Hrel Hs|Hrel Hasc HE|Hrel Hasc HE|c Hrel Hasc HE
                 |c t Hrel Hasc HE Ht HB|c t Hrel Hasc HE Ht HB];
    subst; clear H; cbn [fst].
  - destruct (opens_task startedInPageEvt e) eqn:E.
    + apply opens_task_spec in E as [? _]. done.
    + by rewrite app_nil_r.
  - rewrite (proj2 (opens_task_spec _ _)) by done.
    rewrite fmap_app. f_equal.
  - rewrite (proj2 (opens_task_spec _ _)) by done.
    rewrite fmap_app, events_push_child. f_equal.
  - destruct (opens_task startedInPageEvt e) eqn:E.
    + apply opens_task_spec in E as [_ ?]. done.
    + by rewrite app_nil_r, events_set_endTime.
Qed.

Lemma scan_events_events startedInPageEvt (events : list TraceEvent)
    (st st' : scan) :
  wf_scan st -> scan_events startedInPageEvt st events = Ok st' ->
  event <$> st'.1 =
  (event <$> st.1) ++ List.filter (opens_task startedInPageEvt) events.
Proof.
  revert st. induction events as [|e rest IH]; intros [h cur] Hwf;
    cbn [scan_events List.filter].
  - intros [= <-]. by rewrite app_nil_r.
  - pose proof (handle_event_cases startedInPageEvt h cur e) as Hcase.
    destruct (handle_event startedInPageEvt (h, cur) e) as [st1| |] eqn:E;
      cbn [mbind result_bind]; [|done|done].
    intros Hrest. rewrite (IH st1 (handled_wf _ _ _ _ _ Hwf Hcase) Hrest).
    rewrite (handled_events _ _ _ _ _ Hcase). cbn [fst].
    rewrite <- app_assoc. by destruct (opens_task startedInPageEvt e).
Qed.

(** X1: the reconstruction makes one task for every Complete event and
    every Begin event of the main thread, in the order of the trace, and
    no other task: the events of the tasks it returns are those events,
    and so are the events of the tasks that [getMainThreadTasks]
    returns. *)
Theorem tasks_follow_events (traceEvents : list TraceEvent)
    (startedInPageEvt : TraceEvent) (frameId : option string) :
  findTracingStartedEvt traceEvents = Ok (startedInPageEvt, frameId) ->
  (forall tasks : store, _createTasksFromEvents traceEvents = Ok tasks ->
     event <$> tasks = List.filter (opens_task startedInPageEvt) traceEvents) /\
  (forall tasks : store, getMainThreadTasks traceEvents = Ok tasks ->
     event <$> tasks = List.filter (opens_task startedInPageEvt) traceEvents).
Proof.
  intros Hf.
  assert (Hraw : forall raw : store, _createTasksFromEvents traceEvents = Ok raw ->
            event <$> raw = List.filter (opens_task startedInPageEvt) traceEvents).
  { intros raw H.
    destruct (createTasksFromEvents_scan _ _ H) as (s & fid & cur & Hf' & Hscan).
    rewrite Hf in Hf'. injection Hf' as <- <-.
    pose proof (scan_events_events _ _ _ _ wf_scan_init Hscan) as Hev.
    cbn [fst] in Hev. by rewrite Hev. }
  split; [done|]. intros tasks H.
  destruct (returned_links _ _ H) as (raw & Hr & _ & Hlen & Hsame).
  rewrite <- (Hraw raw Hr). apply list_eq. intros i.
  rewrite !list_lookup_fmap.
  destruct (tasks !! i) as [t|] eqn:Ht.
  - destruct (Hsame i t Ht) as (t0 & Ht0 & Hev & _).
    rewrite Ht0. cbn. by rewrite Hev.
  - apply lookup_ge_None in Ht. rewrite Hlen in Ht.
    apply lookup_ge_None in Ht. by rewrite Ht.
Qed.

(** ** Open and closed tasks *)

(** The open tasks once a task is pushed under [p]. *)
Lemma on_path_push (h : store) (p : option nat) (t : TaskNode) i :
  parents_below h -> (forall c, p = Some c -> c < length h) ->
  parent t = p ->
  on_path (h ++ [t]) (Some (length h)) i <-> i = length h \/ on_path h p i.
Proof.
  intros Hpb Hvalid Hpar.
  assert (Hsame : forall k, k < length h ->
            parent_of (h ++ [t]) k = parent_of h k).
  { intros k Hk. rewrite parent_of_snoc. by rewrite decide_False by lia. }
  assert (Hn : parent_of (h ++ [t]) (length h) = p).
  { rewrite parent_of_snoc. by rewrite decide_True. }
  rewrite (on_path_change h (h ++ [t]) p i (length h) Hpb Hsame Hvalid).
  split.
  - inversion 1 as [|? ? Hon]; subst; [by left|]. rewrite Hn in Hon. by right.
  - intros [->|Hon]; [constructor|]. apply on_path_up. by rewrite Hn.
Qed.

(** The open tasks once the current task is closed. *)
Lemma on_path_end (h : store) (c : nat) (tc : TaskNode) (v : num) i :
  parents_below h -> h !! c = Some tc ->
  on_path (<[c := set_endTime v tc]> h) (parent tc) i <->
  i <> c /\ on_path h (Some c) i.
Proof.
  intros Hpb Htc.
  assert (Hpar : parent_of h c = parent tc)
    by (unfold parent_of; by rewrite Htc).
  rewrite <- (on_path_change h (<[c := set_endTime v tc]> h) (parent tc) i
                (length h) Hpb
                (fun k _ => parent_of_set_endTime h c tc v k Htc)).
  - split.
    + intros Hon. split.
      * destruct (parent tc) as [p|] eqn:Hp; [|inversion Hon].
        pose proof (on_path_le _ _ _ _ Hpb Hon eq_refl).
        pose proof (Hpb c p ltac:(congruence)). lia.
      * apply on_path_up. by rewrite Hpar.
    + intros [Hne Hon]. inversion Hon as [|? ? Hon']; subst; [done|].
      by rewrite Hpar in Hon'.
  - intros p Hp. pose proof (Hpb c p ltac:(congruence)).
    assert (c < length h) by (apply lookup_lt_is_Some; eauto). lia.
Qed.

(** What the scan keeps true of the time stamps, whatever the order of
    the events: a task starts at the time of its event, a Complete task
    ends [dur] later, a Begin task has no end as long as it is open, and
    a task that is no longer open has an end. *)
Record stamped (h : store) (cur : option nat) : Prop := {
  stamped_kind : forall i t, h !! i = Some t ->
    ph (event t) = "X" \/ ph (event t) = "B";
  stamped_start : forall i t, h !! i = Some t ->
    startTime t = Fin (ts (event t));
  stamped_complete : forall i t, h !! i = Some t -> ph (event t) = "X" ->
    endTime t = Fin (ts (event t) + dur_or_0 (event t));
  stamped_open : forall i t, h !! i = Some t -> on_path h cur i ->
    ph (event t) = "B" -> endTime t = NaN;
  stamped_closed : forall i t, h !! i = Some t -> ~ on_path h cur i ->
    isFinite (endTime t) = true
}.

Lemma stamped_nil : stamped [] None.
Proof. split; intros; by rewrite ?lookup_nil in *. Qed.

Lemma stamped_ascend (h : store) cur r (now : Q) :
  parents_below h -> stamped h cur -> ascends h now cur r -> stamped h r.
Proof.
  intros Hpb [K0 K1 K2 K3 K4] Hup.
  destruct (ascends_path _ _ _ _ Hup) as [Hsub Hleft].
  split; try done.
  - intros i t Ht Hon. apply (K3 i t Ht). by apply Hsub.
  - intros i t Ht Hoff.
    destruct (on_path_dec h cur i Hpb) as [Hon|Hon]; [|by eapply K4].
    destruct (Hleft i Hon) as [|(t' & Ht' & He)]; [done|].
    rewrite Ht in Ht'. injection Ht' as <-.
    unfold ended_by in He. by apply andb_true_iff in He as [? _].
Qed.

Lemma stamped_core (h h' : store) cur :
  core <$> h' = core <$> h -> stamped h cur -> stamped h' cur.
Proof.
  intros Hs [K0 K1 K2 K3 K4].
  split.
  - intros i t' Ht'.
    destruct (core_lookup _ _ _ _ Hs Ht') as (t & Ht & -> & _). by eapply K0.
  - intros i t' Ht'.
    destruct (core_lookup _ _ _ _ Hs Ht') as (t & Ht & -> & -> & _).
    by eapply K1.
  - intros i t' Ht'.
    destruct (core_lookup _ _ _ _ Hs Ht') as (t & Ht & -> & _ & -> & _).
    by eapply K2.
  - intros i t' Ht' Hon.
    destruct (core_lookup _ _ _ _ Hs Ht') as (t & Ht & -> & _ & -> & _).
    apply (K3 i t Ht). by apply (on_path_core h' h).
  - intros i t' Ht' Hoff.
    destruct (core_lookup _ _ _ _ Hs Ht') as (t & Ht & _ & _ & -> & _).
    apply (K4 i t Ht). intros Hon. apply Hoff. by apply (on_path_core h h').
Qed.

Lemma stamped_push (h : store) (p : option nat) (e : TraceEvent) :
  parents_below h -> stamped h p ->
  (forall c, p = Some c -> c < length h) ->
  ph e = "X" \/ ph e = "B" ->
  stamped (h ++ [new_node e p]) (Some (length h)).
Proof.
  intros Hpb [K0 K1 K2 K3 K4] Hvalid Hph.
  destruct (new_node_fields e p) as (Nev & Nst & Npar & Nend).
  pose proof (fun i => on_path_push h p (new_node e p) i Hpb Hvalid Npar)
    as Hpath.
  assert (Hold : forall i t, (h ++ [new_node e p]) !! i = Some t ->
            i < length h /\ h !! i = Some t \/
            i = length h /\ t = new_node e p).
  { intros i t Ht. apply lookup_snoc_Some in Ht as [?|[? ?]]; [by left|by right]. }
  split.
  - intros i t Ht. destruct (Hold i t Ht) as [[_ Hi]|[_ ->]];
      [by eapply K0|by rewrite Nev].
  - intros i t Ht. destruct (Hold i t Ht) as [[_ Hi]|[_ ->]]; [by eapply K1|].
    by rewrite Nev, Nst.
  - intros i t Ht. destruct (Hold i t Ht) as [[_ Hi]|[_ ->]]; [by eapply K2|].
    rewrite Nev, Nend. intros HX. by rewrite (bool_decide_eq_true_2 _ HX).
  - intros i t Ht Hon HB. apply Hpath in Hon.
    destruct (Hold i t Ht) as [[Hlt Hi]|[_ ->]].
    + destruct Hon as [->|Hon]; [lia|]. by eapply K3.
    + rewrite Nev in HB. rewrite Nend, bool_decide_eq_false_2; [done|].
      rewrite HB. discriminate.
  - intros i t Ht Hoff. destruct (Hold i t Ht) as [[Hlt Hi]|[-> _]].
    + apply (K4 i t Hi). intros Hon. apply Hoff, Hpath. by right.
    + exfalso. apply Hoff, Hpath. by left.
Qed.

Lemma stamped_end (h : store) (c : nat) (tc : TaskNode) (now : Q) :
  parents_below h -> stamped h (Some c) ->
  h !! c = Some tc -> ph (event tc) = "B" ->
  stamped (<[c := set_endTime (Fin now) tc]> h) (parent tc).
Proof.
  intros Hpb [K0 K1 K2 K3 K4] Htc HB.
  pose proof (fun i => on_path_end h c tc (Fin now) i Hpb Htc) as Hpath.
  assert (Hlook : forall i t,
            (<[c := set_endTime (Fin now) tc]> h) !! i = Some t ->
            i = c /\ t = set_endTime (Fin now) tc \/ i <> c /\ h !! i = Some t).
  { intros i t. destruct (decide (c = i)) as [->|Hne].
    - rewrite list_lookup_insert_eq by (apply lookup_lt_is_Some; eauto).
      intros [= <-]. by left.
    - rewrite list_lookup_insert_ne by done. intros H. right. by split. }
  split.
  - intros i t Ht. destruct (Hlook i t Ht) as [[_ ->]|[_ Hi]];
      [by right|by eapply K0].
  - intros i t Ht. destruct (Hlook i t Ht) as [[-> ->]|[_ Hi]];
      [by apply (K1 c tc)|by eapply K1].
  - intros i t Ht. destruct (Hlook i t Ht) as [[-> ->]|[_ Hi]];
      [|by eapply K2].
    cbn [set_endTime event]. rewrite HB. discriminate.
  - intros i t Ht Hon HB'. apply Hpath in Hon as [Hne Hon].
    destruct (Hlook i t Ht) as [[? _]|[_ Hi]]; [done|]. by eapply K3.
  - intros i t Ht Hoff. destruct (Hlook i t Ht) as [[-> ->]|[Hne Hi]]; [done|].
    apply (K4 i t Hi). intros Hon. apply Hoff, Hpath. by split.
Qed.

Lemma handled_stamped startedInPageEvt (h : store) cur e st' :
  wf_scan (h, cur) -> stamped h cur ->
  handled startedInPageEvt h cur e (Ok st') -> stamped st'.1 st'.2.
Proof.
  intros [Hwf Hcur] Ht H. cbn [fst snd] in Hwf, Hcur.
  pose proof (wf_parents_below _ Hwf) as Hpb.
  inversion H as [Hn|Hrel Hs|Hrel Hasc HE|Hrel Hasc HE|c Hrel Hasc HE
                 |c t Hrel Hasc HE Htc HB|c t Hrel Hasc HE Htc HB];
    subst; clear H; cbn [fst snd].
  - done.
  - apply ascend_ascends in Hasc.
    pose proof (stamped_ascend _ _ _ _ Hpb Ht Hasc) as Ht'.
    apply stamped_push; [done|done|done|].
    destruct Hrel as (_ & _ & [?|[?|?]]); [by left|by right|done].
  - apply ascend_ascends in Hasc.
    pose proof (stamped_ascend _ _ _ _ Hpb Ht Hasc) as Ht'.
    destruct (ascends_stops _ _ _ _ _ Hasc eq_refl) as (tc & Htc & Hnot).
    assert (Hc : c < length h) by (apply lookup_lt_is_Some; eauto).
    rewrite <- (length_alter (push_child (length h)) h c) at 2.
    apply stamped_push.
    + by apply parents_below_push_child.
    + eapply stamped_core; [|exact Ht']. apply core_push_child.
    + intros c' [= <-]. by rewrite length_alter.
    + destruct Hrel as (_ & _ & [?|[?|?]]); [by left|by right|done].
  - apply ascend_ascends in Hasc.
    pose proof (stamped_ascend _ _ _ _ Hpb Ht Hasc) as Ht'.
    by apply stamped_end.
Qed.

Lemma scan_events_stamped startedInPageEvt (events : list TraceEvent)
    (h : store) cur :
  scan_events startedInPageEvt ([], None) events = Ok (h, cur) ->
  wf_store h /\ stamped h cur.
Proof.
  intros Hscan. split.
  - destruct (scan_events_wf startedInPageEvt events ([], None) wf_scan_init)
      as [_ Hwf]. by destruct (Hwf _ Hscan).
  - apply (scan_events_invariant startedInPageEvt
             (fun st => stamped st.1 st.2)
             (fun h cur e st' => handled_stamped startedInPageEvt h cur e st')
             events ([], None) (h, cur) wf_scan_init stamped_nil Hscan).
Qed.

(** The tasks between the two loops of [getMainThreadTasks], for a
    reconstruction that returns. *)
Lemma after_metrics_pass_of_raw (traceEvents : list TraceEvent) (raw : store) :
  _createTasksFromEvents traceEvents = Ok raw ->
  exists h : store,
    after_metrics_pass traceEvents = Ok h /\ wf_store raw /\
    shape <$> h = shape <$> raw /\
    forall j t, h !! j = Some t -> ok_timing raw j t.
Proof.
  intros Hraw.
  destruct (createTasksFromEvents_wf traceEvents) as [_ Hwf].
  specialize (Hwf raw Hraw).
  destruct (metrics_pass_spec raw Hwf) as (h & Hpass & Hs & Hok).
  exists h. unfold after_metrics_pass. rewrite Hraw. cbn [mbind result_bind].
  rewrite Hpass. split; [done|]. split; [done|]. split; [done|].
  intros j t Ht. by destruct (Hok j t Ht).
Qed.

(** The tasks that [getMainThreadTasks] returns, in terms of the state
    in which the scan ended. *)
Lemma returned_tasks_inv (traceEvents : list TraceEvent) (tasks : store) :
  getMainThreadTasks traceEvents = Ok tasks ->
  exists (startedInPageEvt : TraceEvent) (raw : store) (cur : option nat)
         (firstTs : Q),
    scan_events startedInPageEvt ([], None) traceEvents = Ok (raw, cur) /\
    wf_store raw /\ stamped raw cur /\ length tasks = length raw /\
    (forall t0, raw !! 0 = Some t0 -> firstTs = ts (event t0)) /\
    forall i t, tasks !! i = Some t ->
      exists (t0 : TaskNode) (e : Q),
        raw !! i = Some t0 /\ event t = event t0 /\ parent t = parent t0 /\
        endTime t0 = Fin e /\
        startTime t = Fin ((ts (event t0) - firstTs) / 1000) /\
        endTime t = Fin ((e - firstTs) / 1000) /\
        duration t = Fin ((e - ts (event t0)) / 1000).
Proof.
  intros H.
  destruct (getMainThreadTasks_inv _ _ H) as (h & f & Hh & Hf & -> & Hfin).
  destruct (after_metrics_pass_Ok _ _ Hh) as (raw & Hraw & Hwf & Hs & Hok).
  destruct (createTasksFromEvents_scan _ _ Hraw)
    as (started & frameId & cur & _ & Hscan).
  destruct (scan_events_stamped _ _ _ _ Hscan) as [_ Hst].
  exists started, raw, cur, f.
  split; [done|]. split; [done|]. split; [done|].
  split; [by rewrite length_fmap, (shape_length _ _ Hs)|].
  split.
  - intros t0 Ht0. destruct (shape_lookup _ _ _ _ Hs Ht0) as (t & Ht & Hsh).
    unfold shape in Hsh. injection Hsh as _ Hstart _ _ _.
    unfold firstTs_of in Hf.
    rewrite Ht, Hstart, (stamped_start _ _ Hst 0 t0 Ht0) in Hf.
    by injection Hf.
  - intros i t' Ht'. rewrite list_lookup_fmap in Ht'.
    destruct (h !! i) as [t|] eqn:Ht; [|done]. injection Ht' as <-.
    destruct (shape_lookup _ _ _ _ (eq_sym Hs) Ht) as (t0 & Ht0 & Hsh).
    unfold shape in Hsh. injection Hsh as Hev Hstart Hend Hpar _.
    destruct (Hok i t Ht) as [Htim _].
    pose proof (Forall_lookup_1 _ _ _ _ Hfin Ht) as Hfi. cbv beta in Hfi.
    destruct (rescale_task_fields raw i t f Htim Hfi)
      as (s & e & self & Hs' & He' & _ & _ & Rs & Re & Rd & _).
    rewrite <- Hstart, (stamped_start _ _ Hst i t0 Ht0) in Hs'.
    injection Hs' as <-.
    exists t0, e. split; [done|].
    split; [done|]. split; [done|]. split; [congruence|]. done.
Qed.

(** X2: in the list that [getMainThreadTasks] returns, every task comes
    from a Complete or a Begin event; its [startTime] is the timestamp of
    its event, taken from the timestamp of the event of the first task
    of the list and divided by 1000; a task of a Complete event ends at
    [ts + dur], rescaled in the same way, and its [duration] is
    [ts + dur - ts] divided by 1000, whatever its children are ([dur]
    counts as 0 when the event has none). *)
Theorem task_times_from_events (traceEvents : list TraceEvent)
    (tasks : store) (first : TaskNode) :
  getMainThreadTasks traceEvents = Ok tasks -> tasks !! 0 = Some first ->
  forall i t, tasks !! i = Some t ->
    (ph (event t) = "X" \/ ph (event t) = "B") /\
    startTime t = Fin ((ts (event t) - ts (event first)) / 1000) /\
    (ph (event t) = "X" ->
     endTime t
     = Fin ((ts (event t) + dur_or_0 (event t) - ts (event first)) / 1000) /\
     duration t
     = Fin ((ts (event t) + dur_or_0 (event t) - ts (event t)) / 1000)).
Proof.
  intros H Hfirst i t Ht.
  destruct (returned_tasks_inv _ _ H)
    as (started & raw & cur & f & _ & _ & Hst & _ & Hf & Hall).
  destruct (Hall 0 first Hfirst) as (t00 & _ & Ht00 & Hev0 & _).
  rewrite (Hf t00 Ht00), <- Hev0 in Hall. clear Hf.
  destruct (Hall i t Ht) as (t0 & e & Ht0 & Hev & _ & He & Rs & Re & Rd).
  rewrite <- Hev in Rs, Rd.
  split; [rewrite Hev; by eapply stamped_kind|]. split; [done|].
  intros HX. rewrite Hev in HX.
  rewrite (stamped_complete _ _ Hst i t0 Ht0 HX), <- Hev in He.
  injection He as <-. by split.
Qed.

(** ** Traces that leave a Begin event open *)

Lemma isFinite_fold_add_2 (l : list num) (a : num) :
  isFinite a = true -> Forall (fun x => isFinite x = true) l ->
  isFinite (fold_left num_add l a) = true.
Proof.
  intros Ha Hl. revert a Ha.
  induction Hl as [|x l Hx Hl IH]; intros a Ha; cbn [fold_left]; [done|].
  apply IH. by destruct a, x.
Qed.

Lemma rescale_loop_finite (firstTs : num) (l : list TaskNode) :
  Forall (fun t => isFinite (selfTime t) = true) l ->
  rescale_loop firstTs l = Ok (rescale_task firstTs <$> l).
Proof.
  induction 1 as [|t l Ht Hl IH]; cbn [rescale_loop]; [done|].
  cbn [rescale_task selfTime]. rewrite isFinite_div_1000, Ht. cbn [negb].
  by rewrite IH.
Qed.

(** X3: a trace is accepted by [getMainThreadTasks] exactly when it
    leaves no Begin event open.  When the scan ends with a task of a
    Begin event among the current task and its ancestors, the call
    throws 'Invalid task timing data'; when there is none, the call
    returns one task for each task of the reconstruction. *)
Theorem open_begin_is_invalid (traceEvents : list TraceEvent)
    (startedInPageEvt : TraceEvent) (frameId : option string)
    (raw : store) (currentTask : option nat) :
  findTracingStartedEvt traceEvents = Ok (startedInPageEvt, frameId) ->
  scan_events startedInPageEvt ([], None) traceEvents = Ok (raw, currentTask) ->
  ((exists i t, on_path raw currentTask i /\ raw !! i = Some t /\
                ph (event t) = "B") ->
   getMainThreadTasks traceEvents
     = Throw (JsError "Invalid task timing data")) /\
  ((forall i t, on_path raw currentTask i -> raw !! i = Some t ->
                ph (event t) <> "B") ->
   exists tasks : store,
     getMainThreadTasks traceEvents = Ok tasks /\ length tasks = length raw).
Proof.
  intros Hf Hscan.
  pose proof (scan_createTasksFromEvents _ _ _ _ _ Hf Hscan) as Hraw.
  destruct (after_metrics_pass_of_raw _ _ Hraw) as (h & Hh & Hwf & Hs & Hok).
  destruct (scan_events_stamped _ _ _ _ Hscan) as [_ [K0 K1 K2 K3 K4]].
  rewrite getMainThreadTasks_unfold, Hh. cbn [mbind result_bind].
  split.
  - intros (i & t0 & Hon & Ht0 & HB).
    apply rescale_loop_throw. apply Exists_exists.
    destruct (shape_lookup _ _ _ _ Hs Ht0) as (t & Ht & Hsh).
    exists t. split; [apply list_elem_of_lookup; eauto|].
    unfold shape in Hsh. injection Hsh as _ _ Hend _ _.
    destruct (Hok i t Ht) as [Hd Hself].
    rewrite Hself, Hd, Hend, (K3 i t0 Ht0 Hon HB). done.
  - intros Hclosed.
    assert (Hends : forall i t0, raw !! i = Some t0 ->
              isFinite (num_sub (endTime t0) (startTime t0)) = true).
    { intros i t0 Ht0. rewrite (K1 i t0 Ht0).
      assert (isFinite (endTime t0) = true) as He.
      { destruct (on_path_dec raw currentTask i (wf_parents_below _ Hwf))
          as [Hon|Hoff]; [|by eapply K4].
        destruct (K0 i t0 Ht0) as [HX|HB]; [by rewrite (K2 i t0 Ht0 HX)|].
        by destruct (Hclosed i t0 Hon Ht0). }
      by destruct (endTime t0). }
    exists (rescale_task (firstTs_of h) <$> h).
    split; [|by rewrite length_fmap, (shape_length _ _ Hs)].
    apply rescale_loop_finite. apply Forall_lookup_2. intros i t Ht.
    destruct (Hok i t Ht) as [Hd Hself].
    destruct (shape_lookup _ _ _ _ (eq_sym Hs) Ht) as (t0 & Ht0 & Hsh).
    unfold shape in Hsh. injection Hsh as _ Hst Hend _ Hch.
    assert (Hfd : isFinite (duration t) = true).
    { rewrite Hd, <- Hst, <- Hend. by eapply Hends. }
    assert (Hfs : isFinite (sum_num (dur_of raw <$> children t)) = true).
    { apply isFinite_fold_add_2; [done|].
      apply Forall_fmap, Forall_forall. intros c Hc. unfold compose.
      assert (Hcin : c ∈ children_of raw i).
      { unfold children_of. by rewrite Ht0, Hch. }
      destruct Hwf as [_ Hwc]. destruct (Hwc _ _ Hcin) as [_ Hpc].
      apply parent_of_lt, lookup_lt_is_Some in Hpc as [tc Htc].
      unfold dur_of. cbv beta. rewrite Htc. by eapply Hends. }
    rewrite Hself.
    destruct (duration t), (sum_num (dur_of raw <$> children t)); done.
Qed.

(** ** The forest of tasks *)

(** The children of every task are listed in ascending order of their
    position in [tasks]. *)
Definition kids_ascending (h : store) : Prop :=
  forall i t, h !! i = Some t -> StronglySorted lt (children t).

Lemma handled_kids startedInPageEvt (h : store) cur e st' :
  wf_scan (h, cur) -> kids_ascending h ->
  handled startedInPageEvt h cur e (Ok st') -> kids_ascending st'.1.
Proof.
  intros [Hwf Hcur] Hk H. cbn [fst snd] in Hwf, Hcur.
  inversion H as [Hn|Hrel Hs|Hrel Hasc HE|Hrel Hasc HE|c Hrel Hasc HE
                 |c t Hrel Hasc HE Htc HB|c t Hrel Hasc HE Htc HB];
    subst; clear H; cbn [fst snd].
  - done.
  - intros i t Ht. apply lookup_snoc_Some in Ht as [[_ Ht]|[_ <-]];
      [by eapply Hk|].
    rewrite new_node_children. constructor.
  - intros i t Ht. apply lookup_snoc_Some in Ht as [[_ Ht]|[_ <-]];
      [|rewrite new_node_children; constructor].
    rewrite list_lookup_alter in Ht.
    destruct (decide (c = i)) as [->|Hne]; [|by eapply Hk].
    destruct (h !! i) as [t0|] eqn:Ht0; [|done]. injection Ht as <-.
    cbn [push_child children].
    apply StronglySorted_app_2; [|by eapply Hk|repeat constructor].
    intros x1 x2 Hx1 Hx2. apply list_elem_of_singleton in Hx2 as ->.
    destruct Hwf as [_ Hwc]. destruct (Hwc i x1) as [_ Hpar].
    { unfold children_of. by rewrite Ht0. }
    by apply parent_of_lt in Hpar.
  - intros i t' Ht'. destruct (decide (c = i)) as [->|Hne].
    + rewrite list_lookup_insert_eq in Ht'
        by (apply lookup_lt_is_Some; eauto).
      injection Ht' as <-. cbn [set_endTime children]. by eapply Hk.
    + rewrite list_lookup_insert_ne in Ht' by done. by eapply Hk.
Qed.

(** The links of a forest that is laid out in an array: a parent comes
    before its children, the two kinds of links agree, and the children
    of a task come in the order of the array. *)
Definition forest (tasks : store) : Prop :=
  forall i t, tasks !! i = Some t ->
    (forall p, parent t = Some p ->
       p < i /\ exists tp, tasks !! p = Some tp /\ i ∈ children tp) /\
    (forall c, c ∈ children t ->
       i < c /\ exists tc, tasks !! c = Some tc /\ parent tc = Some i) /\
    StronglySorted lt (children t).

Lemma wf_store_forest (h : store) : wf_store h -> kids_ascending h -> forest h.
Proof.
  intros [Hp Hc] Hk i t Ht. split; [|split; [|by eapply Hk]].
  - intros p Hpar. destruct (Hp i p) as [Hlt Hin].
    { unfold parent_of. by rewrite Ht. }
    split; [done|]. unfold children_of in Hin.
    destruct (h !! p) as [tp|]; [by exists tp|]. by apply elem_of_nil in Hin.
  - intros c Hin. destruct (Hc i c) as [Hlt Hpar].
    { unfold children_of. by rewrite Ht. }
    split; [done|]. unfold parent_of in Hpar.
    destruct (h !! c) as [tc|]; [by exists tc|done].
Qed.

Lemma createTasksFromEvents_forest (traceEvents : list TraceEvent)
    (tasks : store) :
  _createTasksFromEvents traceEvents = Ok tasks -> forest tasks.
Proof.
  intros H.
  destruct (createTasksFromEvents_scan _ _ H) as (s & fid & cur & _ & Hscan).
  apply wf_store_forest.
  - by destruct (scan_events_stamped _ _ _ _ Hscan).
  - apply (scan_events_invariant s (fun st => kids_ascending st.1)
             (fun h cur e st' => handled_kids s h cur e st')
             traceEvents ([], None) (tasks, cur) wf_scan_init); [|done].
    intros i t Ht. cbn [fst] in Ht. by rewrite lookup_nil in Ht.
Qed.

(** X4: the tasks that the reconstruction returns, and the tasks that
    [getMainThreadTasks] returns, form a forest in the array: the parent
    of a task lies before it and lists it among its children, every
    child that a task lists lies after it and names it as its parent, and
    the children of a task are listed in ascending order of position,
    hence without repetition. *)
Theorem tasks_form_a_forest (traceEvents : list TraceEvent) (tasks : store) :
  _createTasksFromEvents traceEvents = Ok tasks \/
  getMainThreadTasks traceEvents = Ok tasks ->
  forest tasks.
Proof.
  intros [H|H]; [by eapply createTasksFromEvents_forest|].
  destruct (returned_links _ _ H) as (raw & Hraw & _ & Hlen & Hsame).
  pose proof (createTasksFromEvents_forest _ _ Hraw) as Hforest.
  assert (Hlook : forall j t0, raw !! j = Some t0 ->
            exists t, tasks !! j = Some t /\ parent t = parent t0 /\
                      children t = children t0).
  { intros j t0 Ht0.
    assert (is_Some (tasks !! j)) as [t Ht].
    { apply lookup_lt_is_Some. rewrite Hlen. apply lookup_lt_is_Some. eauto. }
    destruct (Hsame j t Ht) as (t0' & Ht0' & _ & Hp & Hc).
    exists t. split; [done|]. split; congruence. }
  intros i t Ht.
  destruct (Hsame i t Ht) as (t0 & Ht0 & _ & Hp & Hc).
  destruct (Hforest i t0 Ht0) as (F1 & F2 & F3).
  rewrite Hp, Hc. split; [|split; [|done]].
  - intros p Hpar. destruct (F1 p Hpar) as (Hlt & tp0 & Htp0 & Hin).
    split; [done|]. destruct (Hlook p tp0 Htp0) as (tp & Htp & _ & Hcp).
    exists tp. split; [done|]. by rewrite Hcp.
  - intros c Hin. destruct (F2 c Hin) as (Hlt & tc0 & Htc0 & Hpar).
    split; [done|]. destruct (Hlook c tc0 Htc0) as (tc & Htc & Hpc & _).
    exists tc. split; [done|]. by rewrite Hpc.
Qed.

(** ** The events that the scan looks at *)

(** The events that the scan does not skip: Complete, Begin and End
    events of the main thread. *)
Definition on_main_thread (startedInPageEvt e : TraceEvent) : bool :=
  bool_decide (pid e = pid startedInPageEvt) &&
  bool_decide (tid e = tid startedInPageEvt) &&
  (bool_decide (ph e = "X") || bool_decide (ph e = "B") ||
   bool_decide (ph e = "E")).

Lemma on_main_thread_spec startedInPageEvt e :
  on_main_thread startedInPageEvt e = true <-> relevant startedInPageEvt e.
Proof.
  unfold on_main_thread, relevant.
  rewrite !andb_true_iff, !orb_true_iff, !bool_decide_eq_true. tauto.
Qed.

Lemma handle_event_skip startedInPageEvt (st : scan) e :
  on_main_thread startedInPageEvt e = false ->
  handle_event startedInPageEvt st e = Ok st.
Proof.
  intros Hoff. destruct st as [h cur].
  assert (Hn : ~ relevant startedInPageEvt e).
  { intros Hrel. apply on_main_thread_spec in Hrel. congruence. }
  pose proof (handle_event_cases startedInPageEvt h cur e) as Hc.
  inversion Hc; done.
Qed.

Lemma scan_events_filter startedInPageEvt (events : list TraceEvent)
    (st : scan) :
  scan_events startedInPageEvt st
    (List.filter (on_main_thread startedInPageEvt) events)
  = scan_events startedInPageEvt st events.
Proof.
  revert st. induction events as [|e rest IH]; intros st; [done|].
  cbn [List.filter scan_events].
  destruct (on_main_thread startedInPageEvt e) eqn:E.
  - cbn [scan_events].
    destruct (handle_event startedInPageEvt st e); cbn [mbind result_bind];
      [apply IH|done|done].
  - rewrite (handle_event_skip _ _ _ E). cbn [mbind result_bind]. apply IH.
Qed.

(** X5: only the Complete, Begin and End events of the main thread
    matter to the tasks.  Two traces that agree on the event that names
    the main thread and on these events, in their order, get the same
    result from the reconstruction and from [getMainThreadTasks],
    whatever events of other threads, processes or phases lie between
    them. *)
Theorem only_main_thread_events_matter (traceEvents traceEvents' : list TraceEvent)
    (startedInPageEvt : TraceEvent) (frameId frameId' : option string) :
  findTracingStartedEvt traceEvents = Ok (startedInPageEvt, frameId) ->
  findTracingStartedEvt traceEvents' = Ok (startedInPageEvt, frameId') ->
  List.filter (on_main_thread startedInPageEvt) traceEvents
  = List.filter (on_main_thread startedInPageEvt) traceEvents' ->
  _createTasksFromEvents traceEvents = _createTasksFromEvents traceEvents' /\
  getMainThreadTasks traceEvents = getMainThreadTasks traceEvents'.
Proof.
  intros Hf Hf' Hsame.
  assert (H : _createTasksFromEvents traceEvents
              = _createTasksFromEvents traceEvents').
  { unfold _createTasksFromEvents. rewrite Hf, Hf'. cbn [mbind result_bind].
    rewrite <- (scan_events_filter _ traceEvents),
            <- (scan_events_filter _ traceEvents').
    by rewrite Hsame. }
  split; [done|]. unfold getMainThreadTasks. by rewrite H.
Qed.

(** X6: a trace that names the main thread and has no Complete, Begin or
    End event on it gives the empty list of tasks, and no error. *)
Theorem no_main_thread_events (traceEvents : list TraceEvent)
    (startedInPageEvt : TraceEvent) (frameId : option string) :
  findTracingStartedEvt traceEvents = Ok (startedInPageEvt, frameId) ->
  Forall (fun e => on_main_thread startedInPageEvt e = false) traceEvents ->
  _createTasksFromEvents traceEvents = Ok [] /\
  getMainThreadTasks traceEvents = Ok [].
Proof.
  intros Hf Hnone.
  assert (Hfilter : List.filter (on_main_thread startedInPageEvt) traceEvents
                    = []).
  { clear Hf. induction Hnone as [|e l He Hl IH]; [done|].
    cbn [List.filter]. by rewrite He. }
  assert (H : _createTasksFromEvents traceEvents = Ok []).
  { unfold _createTasksFromEvents. rewrite Hf. cbn [mbind result_bind].
    by rewrite <- scan_events_filter, Hfilter. }
  split; [done|]. unfold getMainThreadTasks. by rewrite H.
Qed.

(** ** Tasks in the order of time *)

(** What the scan keeps true for events in ascending order of timestamp:
    the tasks are in the order of their events; when a task without a
    parent is made, every task before it has ended; and none of the
    tasks before it is open afterwards. *)
Record ordered (h : store) (cur : option nat) : Prop := {
  ordered_ts : forall i j ti tj, i <= j ->
    h !! i = Some ti -> h !! j = Some tj ->
    (ts (event ti) <= ts (event tj))%Q;
  ordered_root : forall i j ti tj, i < j ->
    h !! i = Some ti -> h !! j = Some tj -> parent tj = None ->
    exists e, endTime ti = Fin e /\ (e <= ts (event tj))%Q;
  ordered_path : forall i j tj, i < j ->
    h !! j = Some tj -> parent tj = None -> ~ on_path h cur i
}.

Lemma ordered_nil : ordered [] None.
Proof. split; intros; by rewrite ?lookup_nil in *. Qed.

Lemma ordered_ascend (h : store) cur r (now : Q) :
  ordered h cur -> ascends h now cur r -> ordered h r.
Proof.
  intros [O1 O2 O3] Hup. destruct (ascends_path _ _ _ _ Hup) as [Hsub _].
  split; [done|done|].
  intros i j tj Hij Hj Hroot Hon. exact (O3 i j tj Hij Hj Hroot (Hsub i Hon)).
Qed.

Lemma ordered_core (h h' : store) cur :
  core <$> h' = core <$> h -> ordered h cur -> ordered h' cur.
Proof.
  intros Hs [O1 O2 O3]. split.
  - intros i j ti' tj' Hij Hi Hj.
    destruct (core_lookup _ _ _ _ Hs Hi) as (ti & Hti & -> & _).
    destruct (core_lookup _ _ _ _ Hs Hj) as (tj & Htj & -> & _).
    exact (O1 i j ti tj Hij Hti Htj).
  - intros i j ti' tj' Hij Hi Hj Hroot.
    destruct (core_lookup _ _ _ _ Hs Hi) as (ti & Hti & _ & _ & -> & _).
    destruct (core_lookup _ _ _ _ Hs Hj) as (tj & Htj & -> & _ & _ & Hp).
    eapply O2; [exact Hij|exact Hti|exact Htj|congruence].
  - intros i j tj' Hij Hj Hroot Hon.
    destruct (core_lookup _ _ _ _ Hs Hj) as (tj & Htj & _ & _ & _ & Hp).
    eapply (O3 i j tj Hij Htj); [congruence|]. by apply (on_path_core h' h).
Qed.

(** A new task is pushed under [p], at a time when every task that is
    not open has ended. *)
Lemma ordered_push (h : store) (p : option nat) (e : TraceEvent) :
  parents_below h -> timed h p (ts e) -> ordered h p ->
  (forall c, p = Some c -> c < length h) ->
  ordered (h ++ [new_node e p]) (Some (length h)).
Proof.
  intros Hpb [K0 K1 K2 K3 K4 G] [O1 O2 O3] Hvalid.
  destruct (new_node_fields e p) as (Nev & Nst & Npar & Nend).
  pose proof (fun i => on_path_push h p (new_node e p) i Hpb Hvalid Npar)
    as Hpath.
  assert (Hold : forall i t, (h ++ [new_node e p]) !! i = Some t ->
            i < length h /\ h !! i = Some t \/
            i = length h /\ t = new_node e p).
  { intros i t Ht. apply lookup_snoc_Some in Ht as [?|[? ?]]; [by left|by right]. }
  split.
  - intros i j ti tj Hij Hi Hj.
    destruct (Hold j tj Hj) as [[Hlt Hj']|[-> ->]].
    + destruct (Hold i ti Hi) as [[_ Hi']|[? _]]; [|lia].
      exact (O1 i j ti tj Hij Hi' Hj').
    + rewrite Nev. destruct (Hold i ti Hi) as [[_ Hi']|[_ ->]].
      * by destruct (K1 i ti Hi').
      * rewrite Nev. lra.
  - intros i j ti tj Hij Hi Hj Hroot.
    destruct (Hold i ti Hi) as [[Hlti Hi']|[? _]].
    + destruct (Hold j tj Hj) as [[_ Hj']|[-> ->]];
        [exact (O2 i j ti tj Hij Hi' Hj' Hroot)|].
      rewrite Nev. rewrite Npar in Hroot. subst p.
      apply (K4 i ti Hi'). inversion 1.
    + destruct (Hold j tj Hj) as [[? _]|[? _]]; lia.
  - intros i j tj Hij Hj Hroot Hon. apply Hpath in Hon as [->|Hon].
    + destruct (Hold j tj Hj) as [[? _]|[? _]]; lia.
    + destruct (Hold j tj Hj) as [[_ Hj']|[-> ->]].
      * exact (O3 i j tj Hij Hj' Hroot Hon).
      * rewrite Npar in Hroot. subst p. inversion Hon.
Qed.

(** The current task is closed. *)
Lemma ordered_end (h : store) (c : nat) (tc : TaskNode) (v : num) :
  parents_below h -> ordered h (Some c) -> h !! c = Some tc ->
  ordered (<[c := set_endTime v tc]> h) (parent tc).
Proof.
  intros Hpb [O1 O2 O3] Htc.
  pose proof (fun i => on_path_end h c tc v i Hpb Htc) as Hpath.
  assert (Hlook : forall i t, (<[c := set_endTime v tc]> h) !! i = Some t ->
            exists t0, h !! i = Some t0 /\ event t = event t0 /\
              parent t = parent t0 /\ (i <> c -> t = t0)).
  { intros i t. destruct (decide (c = i)) as [->|Hne].
    - rewrite list_lookup_insert_eq by (apply lookup_lt_is_Some; eauto).
      intros [= <-]. by exists tc.
    - rewrite list_lookup_insert_ne by done. intros H. by exists t. }
  split.
  - intros i j ti tj Hij Hi Hj.
    destruct (Hlook i ti Hi) as (ti0 & Hi0 & -> & _).
    destruct (Hlook j tj Hj) as (tj0 & Hj0 & -> & _).
    exact (O1 i j ti0 tj0 Hij Hi0 Hj0).
  - intros i j ti tj Hij Hi Hj Hroot.
    destruct (Hlook i ti Hi) as (ti0 & Hi0 & _ & _ & Hsame).
    destruct (Hlook j tj Hj) as (tj0 & Hj0 & -> & Hp & _).
    rewrite Hp in Hroot.
    assert (i <> c) as Hne.
    { intros ->. apply (O3 c j tj0 Hij Hj0 Hroot). constructor. }
    rewrite (Hsame Hne). exact (O2 i j ti0 tj0 Hij Hi0 Hj0 Hroot).
  - intros i j tj Hij Hj Hroot Hon. apply Hpath in Hon as [_ Hon].
    destruct (Hlook j tj Hj) as (tj0 & Hj0 & _ & Hp & _).
    rewrite Hp in Hroot. exact (O3 i j tj0 Hij Hj0 Hroot Hon).
Qed.

Lemma handled_ordered startedInPageEvt (h : store) cur e st' (now : Q) :
  wf_scan (h, cur) -> timed h cur now -> (now <= ts e)%Q ->
  ordered h cur ->
  handled startedInPageEvt h cur e (Ok st') -> ordered st'.1 st'.2.
Proof.
  intros [Hwf Hcur] Ht Hle Ho H. cbn [fst snd] in Hwf, Hcur.
  pose proof (wf_parents_below _ Hwf) as Hpb.
  inversion H as [Hn|Hrel Hs|Hrel Hasc HE|Hrel Hasc HE|c Hrel Hasc HE
                 |c t Hrel Hasc HE Htc HB|c t Hrel Hasc HE Htc HB];
    subst; clear H; cbn [fst snd].
  - done.
  - apply ascend_ascends in Hasc.
    pose proof (timed_ascend _ _ _ _ _ Hpb Hle Ht Hasc) as Ht'.
    pose proof (ordered_ascend _ _ _ _ Ho Hasc) as Ho'.
    by apply ordered_push.
  - apply ascend_ascends in Hasc.
    pose proof (timed_ascend _ _ _ _ _ Hpb Hle Ht Hasc) as Ht'.
    pose proof (ordered_ascend _ _ _ _ Ho Hasc) as Ho'.
    destruct (ascends_stops _ _ _ _ _ Hasc eq_refl) as (tc & Htc & Hnot).
    assert (Hc : c < length h) by (apply lookup_lt_is_Some; eauto).
    rewrite <- (length_alter (push_child (length h)) h c) at 2.
    apply ordered_push.
    + by apply parents_below_push_child.
    + eapply timed_core; [|exact Ht']. apply core_push_child.
    + eapply ordered_core; [|exact Ho']. apply core_push_child.
    + intros c' [= <-]. by rewrite length_alter.
  - apply ascend_ascends in Hasc.
    pose proof (ordered_ascend _ _ _ _ Ho Hasc) as Ho'.
    by apply ordered_end.
Qed.

(** A property of the state of the scan that every round keeps, for an
    event that is not earlier than the events before it, holds when the
    scan of a trace in ascending order of timestamp returns. *)
Lemma scan_sorted_invariant startedInPageEvt (I : scan -> Prop) :
  (forall (h : store) cur e st' (now : Q),
     wf_scan (h, cur) -> timed h cur now -> (now <= ts e)%Q -> I (h, cur) ->
     handled startedInPageEvt h cur e (Ok st') -> I st') ->
  forall (events : list TraceEvent) (st st' : scan) (now : Q),
    wf_scan st -> timed st.1 st.2 now -> I st ->
    StronglySorted (fun a b => (ts a <= ts b)%Q) events ->
    Forall (fun e => (now <= ts e)%Q) events ->
    scan_events startedInPageEvt st events = Ok st' -> I st'.
Proof.
  intros Hstep events. induction events as [|e rest IH];
    intros [h cur] st' now Hwf Ht HI Hsorted Hnow; cbn [scan_events].
  - by intros [= <-].
  - apply StronglySorted_inv in Hsorted as [Hsorted Hfirst].
    apply Forall_cons in Hnow as [Hle Hnow].
    pose proof (handle_event_cases startedInPageEvt h cur e) as Hcase.
    destruct (handle_event startedInPageEvt (h, cur) e) as [st1| |] eqn:E;
      cbn [mbind result_bind]; [|done|done].
    pose proof (handled_wf _ _ _ _ _ Hwf Hcase) as Hwf1.
    pose proof (Hstep _ _ _ _ _ Hwf Ht Hle HI Hcase) as HI1.
    destruct (handled_timed _ _ _ _ _ _ Hwf Ht Hle Hcase) as [Ht1|Ht1].
    + by apply (IH st1 st' now).
    + by apply (IH st1 st' (ts e)).
Qed.

Lemma scan_sorted (startedInPageEvt : TraceEvent) (I : scan -> Prop)
    (events : list TraceEvent) (h : store) cur :
  (forall (h : store) cur e st' (now : Q),
     wf_scan (h, cur) -> timed h cur now -> (now <= ts e)%Q -> I (h, cur) ->
     handled startedInPageEvt h cur e (Ok st') -> I st') ->
  I ([], None) ->
  StronglySorted (fun a b => (ts a <= ts b)%Q) events ->
  scan_events startedInPageEvt ([], None) events = Ok (h, cur) ->
  I (h, cur).
Proof.
  intros Hstep Hinit Hsorted Hscan.
  destruct events as [|e0 rest]; [cbn in Hscan; by simplify_eq|].
  apply (scan_sorted_invariant startedInPageEvt I Hstep (e0 :: rest)
           ([], None) (h, cur) (ts e0) wf_scan_init (timed_nil _) Hinit
           Hsorted); [|done].
  apply StronglySorted_inv in Hsorted as [_ Hfirst].
  constructor; [lra|done].
Qed.

Lemma scan_sorted_ordered startedInPageEvt (events : list TraceEvent)
    (h : store) cur :
  StronglySorted (fun a b => (ts a <= ts b)%Q) events ->
  scan_events startedInPageEvt ([], None) events = Ok (h, cur) ->
  ordered h cur.
Proof.
  apply (scan_sorted startedInPageEvt (fun st => ordered st.1 st.2)).
  - intros h0 cur0 e st' now. apply handled_ordered.
  - apply ordered_nil.
Qed.

(** A Begin task does not end before it starts. *)
Definition forward (h : store) : Prop :=
  forall i t e, h !! i = Some t -> ph (event t) = "B" -> endTime t = Fin e ->
    (ts (event t) <= e)%Q.

Lemma handled_forward startedInPageEvt (h : store) cur e st' (now : Q) :
  wf_scan (h, cur) -> timed h cur now -> (now <= ts e)%Q -> forward h ->
  handled startedInPageEvt h cur e (Ok st') -> forward st'.1.
Proof.
  intros [Hwf Hcur] Ht Hle Hf H. cbn [fst snd] in Hwf, Hcur.
  assert (Hnode : forall p x, ph (event (new_node e p)) = "B" ->
            endTime (new_node e p) = Fin x -> False).
  { intros p x HB. destruct (new_node_fields e p) as (Nev & _ & _ & Nend).
    rewrite Nev in HB. rewrite Nend, bool_decide_eq_false_2; [done|].
    rewrite HB. discriminate. }
  inversion H as [Hn|Hrel Hs|Hrel Hasc HE|Hrel Hasc HE|c Hrel Hasc HE
                 |c t Hrel Hasc HE Htc HB|c t Hrel Hasc HE Htc HB];
    subst; clear H; cbn [fst snd].
  - done.
  - intros i t x Hi HB Hx. apply lookup_snoc_Some in Hi as [[_ Hi]|[_ <-]];
      [by eapply Hf|]. by destruct (Hnode None x).
  - intros i t x Hi HB Hx. apply lookup_snoc_Some in Hi as [[_ Hi]|[_ <-]];
      [|by destruct (Hnode (Some c) x)].
    rewrite list_lookup_alter in Hi.
    destruct (decide (c = i)) as [->|Hne]; [|by eapply Hf].
    destruct (h !! i) as [t0|] eqn:Ht0; [|done]. injection Hi as <-.
    by eapply (Hf i t0).
  - intros i t' x Hi HB' Hx. destruct (decide (c = i)) as [->|Hne].
    + rewrite list_lookup_insert_eq in Hi by (apply lookup_lt_is_Some; eauto).
      injection Hi as <-. cbn [set_endTime event endTime] in *.
      injection Hx as <-. destruct (timed_start _ _ _ Ht i t Htc) as [_ Hts].
      lra.
    + rewrite list_lookup_insert_ne in Hi by done. by eapply Hf.
Qed.

Lemma scan_sorted_forward startedInPageEvt (events : list TraceEvent)
    (h : store) cur :
  StronglySorted (fun a b => (ts a <= ts b)%Q) events ->
  scan_events startedInPageEvt ([], None) events = Ok (h, cur) ->
  forward h.
Proof.
  apply (scan_sorted startedInPageEvt (fun st => forward st.1)).
  - intros h0 cur0 e st' now. apply handled_forward.
  - intros i t e Hi. cbn [fst] in Hi. by rewrite lookup_nil in Hi.
Qed.

(** X7: for a trace in ascending order of timestamp, the tasks that
    [getMainThreadTasks] returns are in ascending order of [startTime],
    and no task starts before time 0, the start of the first task. *)
Theorem start_times_ascending (traceEvents : list TraceEvent) (tasks : store) :
  StronglySorted (fun a b => (ts a <= ts b)%Q) traceEvents ->
  getMainThreadTasks traceEvents = Ok tasks ->
  (forall first, tasks !! 0 = Some first -> num_eq (startTime first) (Fin 0)) /\
  forall i j ti tj, i <= j -> tasks !! i = Some ti -> tasks !! j = Some tj ->
    exists si sj : Q,
      startTime ti = Fin si /\ startTime tj = Fin sj /\
      (0 <= si)%Q /\ (si <= sj)%Q.
Proof.
  intros Hsorted H.
  destruct (returned_tasks_inv _ _ H)
    as (started & raw & cur & f & Hscan & _ & _ & _ & Hf & Hall).
  destruct (scan_sorted_ordered _ _ _ _ Hsorted Hscan) as [O1 _ _].
  split.
  - intros first Hfirst.
    destruct (Hall 0 first Hfirst) as (t0 & _ & Ht0 & _ & _ & _ & -> & _).
    rewrite (Hf t0 Ht0). cbn. field.
  - intros i j ti tj Hij Hi Hj.
    destruct (Hall i ti Hi) as (ti0 & _ & Hi0 & _ & _ & _ & Rsi & _).
    destruct (Hall j tj Hj) as (tj0 & _ & Hj0 & _ & _ & _ & Rsj & _).
    assert (is_Some (raw !! 0)) as [t0 Ht0].
    { apply lookup_lt_is_Some. apply lookup_lt_Some in Hi0. lia. }
    rewrite (Hf t0 Ht0) in Rsi, Rsj.
    pose proof (O1 0 i t0 ti0 ltac:(lia) Ht0 Hi0) as H0i.
    pose proof (O1 i j ti0 tj0 Hij Hi0 Hj0) as Hij'.
    eexists _, _. split; [exact Rsi|]. split; [exact Rsj|].
    split.
    + apply Qle_shift_div_l; lra.
    + apply Qmult_le_compat_r; [lra|]. by compute.
Qed.

(** X8: for a trace in ascending order of timestamp, a task without a
    parent starts only when every task before it in the list has ended:
    the top-level tasks do not overlap one another, nor the tasks below
    an earlier top-level task. *)
Theorem toplevel_tasks_do_not_overlap (traceEvents : list TraceEvent)
    (tasks : store) :
  StronglySorted (fun a b => (ts a <= ts b)%Q) traceEvents ->
  _createTasksFromEvents traceEvents = Ok tasks \/
  getMainThreadTasks traceEvents = Ok tasks ->
  forall i j ti tj, i < j -> tasks !! i = Some ti -> tasks !! j = Some tj ->
    parent tj = None ->
    exists ei sj : Q,
      endTime ti = Fin ei /\ startTime tj = Fin sj /\ (ei <= sj)%Q.
Proof.
  intros Hsorted [H|H] i j ti tj Hij Hi Hj Hroot.
  - destruct (createTasksFromEvents_scan _ _ H) as (s & fid & cur & _ & Hscan).
    destruct (scan_sorted_ordered _ _ _ _ Hsorted Hscan) as [_ O2 _].
    destruct (scan_events_stamped _ _ _ _ Hscan) as [_ Hst].
    destruct (O2 i j ti tj Hij Hi Hj Hroot) as (e & He & Hle).
    exists e, (ts (event tj)). split; [done|].
    split; [by eapply stamped_start|done].
  - destruct (returned_tasks_inv _ _ H)
      as (started & raw & cur & f & Hscan & _ & _ & _ & _ & Hall).
    destruct (scan_sorted_ordered _ _ _ _ Hsorted Hscan) as [_ O2 _].
    destruct (Hall i ti Hi) as (ti0 & ei & Hi0 & _ & _ & Hei & _ & Rei & _).
    destruct (Hall j tj Hj) as (tj0 & ej & Hj0 & _ & Hpj & _ & Rsj & _).
    destruct (O2 i j ti0 tj0 Hij Hi0 Hj0 ltac:(congruence)) as (e & He & Hle).
    rewrite Hei in He. injection He as <-.
    eexists _, _. split; [exact Rei|]. split; [exact Rsj|].
    apply Qmult_le_compat_r; [lra|]. by compute.
Qed.

(** X9: for a trace in ascending order of timestamp in which no event
    has a negative [dur], no task that [getMainThreadTasks] returns ends
    before it starts: every duration is a number that is not
    negative. *)
Theorem durations_not_negative (traceEvents : list TraceEvent) (tasks : store) :
  StronglySorted (fun a b => (ts a <= ts b)%Q) traceEvents ->
  Forall (fun e => forall d, dur e = Some d -> (0 <= d)%Q) traceEvents ->
  getMainThreadTasks traceEvents = Ok tasks ->
  forall i t, tasks !! i = Some t ->
    exists s e d : Q,
      startTime t = Fin s /\ endTime t = Fin e /\ duration t = Fin d /\
      (s <= e)%Q /\ (0 <= d)%Q.
Proof.
  intros Hsorted Hdur H i t Ht.
  destruct (returned_tasks_inv _ _ H)
    as (started & raw & cur & f & Hscan & _ & Hst & _ & _ & Hall).
  pose proof (scan_sorted_forward _ _ _ _ Hsorted Hscan) as Hfw.
  pose proof (scan_events_events _ _ _ _ wf_scan_init Hscan) as Hev.
  cbn [fst] in Hev. rewrite app_nil_l in Hev.
  destruct (Hall i t Ht) as (t0 & e & Ht0 & _ & _ & He & Rs & Re & Rd).
  assert (Hle : (ts (event t0) <= e)%Q).
  { destruct (stamped_kind _ _ Hst i t0 Ht0) as [HX|HB].
    - rewrite (stamped_complete _ _ Hst i t0 Ht0 HX) in He. injection He as <-.
      assert (Hin : event t0 ∈ traceEvents).
      { assert (Hin : event t0 ∈ event <$> raw).
        { apply list_elem_of_fmap. exists t0. split; [done|].
          apply list_elem_of_lookup. eauto. }
        rewrite Hev in Hin. apply list_elem_of_In, filter_In in Hin as [Hin _].
        by apply list_elem_of_In. }
      eapply Forall_forall in Hdur; [|exact Hin].
      unfold dur_or_0. destruct (dur (event t0)) as [d|] eqn:Hd; [|lra].
      specialize (Hdur d eq_refl). destruct (Qeq_bool d 0); lra.
    - by eapply Hfw. }
  eexists _, _, _. split; [exact Rs|]. split; [exact Re|]. split; [exact Rd|].
  split.
  - apply Qmult_le_compat_r; [lra|]. by compute.
  - apply Qle_shift_div_l; lra.
Qed.

(** ** URLs along the ancestors *)

Lemma js_or_truthy (a b : option string) : truthy a = true -> js_or a b = a.
Proof. unfold js_or. by intros ->. Qed.

(** A URL that is resolved for a task is resolved for all the tasks
    below it. *)
Lemma url_of_inherited (raw : store) (i a : nat) :
  wf_store raw -> on_path raw (Some i) a ->
  truthy (url_of raw a) = true -> url_of raw i = url_of raw a.
Proof.
  intros Hwf Hon Htr. remember (Some i) as cur eqn:Hcur. revert i Hcur.
  induction Hon as [c|c a Hon IH]; intros i [= ->]; [done|].
  destruct (parent_of raw i) as [p|] eqn:Hpar; [|inversion Hon].
  specialize (IH Htr p eq_refl).
  unfold parent_of in Hpar. destruct (raw !! i) as [t|] eqn:Ht; [|done].
  cbn in Hpar. rewrite (url_of_eq raw Hwf i t Ht), Hpar, IH.
  by apply js_or_truthy.
Qed.

(** A resolved URL is the candidate of the task or of one of its
    ancestors. *)
Lemma url_of_provenance (raw : store) (i : nat) (t : TaskNode) :
  wf_store raw -> raw !! i = Some t ->
  exists a ta, on_path raw (Some i) a /\ raw !! a = Some ta /\
    url_of raw i = taskURL (event ta).
Proof.
  intros Hwf. revert t. induction (lt_wf i) as [i _ IH]. intros t Ht.
  rewrite (url_of_eq raw Hwf i t Ht).
  destruct (parent t) as [p|] eqn:Hp.
  - assert (Hpar : parent_of raw i = Some p)
      by (unfold parent_of; by rewrite Ht).
    destruct (truthy (url_of raw p)) eqn:Htr.
    + rewrite js_or_truthy by done.
      destruct Hwf as [Hwp Hwc]. destruct (Hwp i p Hpar) as [Hlt Hin].
      assert (is_Some (raw !! p)) as [tp Htp].
      { apply lookup_lt_is_Some. apply lookup_lt_Some in Ht. lia. }
      destruct (IH p Hlt tp Htp) as (a & ta & Hon & Hta & Hurl).
      exists a, ta. split; [|done]. apply on_path_up. by rewrite Hpar.
    + exists i, t. split; [constructor|]. split; [done|].
      unfold js_or. by rewrite Htr.
  - exists i, t. split; [constructor|]. done.
Qed.

Lemma on_path_parents (h h' : store) cur i :
  (forall k, parent_of h' k = parent_of h k) ->
  on_path h cur i -> on_path h' cur i.
Proof.
  intros Hsame. induction 1 as [c|c i Hon IH]; [constructor|].
  apply on_path_up. by rewrite Hsame.
Qed.

(** X11: in the list that [getMainThreadTasks] returns, the
    [attributableURL] of a task is the own candidate URL of the task or
    of one of its ancestors; and once a task has an [attributableURL]
    that is defined and not empty, every task below it, at any depth,
    has that same [attributableURL]. *)
Theorem url_along_ancestors (traceEvents : list TraceEvent) (tasks : store) :
  getMainThreadTasks traceEvents = Ok tasks ->
  forall i ti, tasks !! i = Some ti ->
    (exists a ta, on_path tasks (Some i) a /\ tasks !! a = Some ta /\
       attributableURL ti = taskURL (event ta)) /\
    (forall a ta, on_path tasks (Some i) a -> tasks !! a = Some ta ->
       truthy (attributableURL ta) = true ->
       attributableURL ti = attributableURL ta).
Proof.
  intros H.
  destruct (getMainThreadTasks_inv _ _ H) as (h & f & Hh & _ & -> & _).
  destruct (after_metrics_pass_Ok _ _ Hh) as (raw & _ & Hwf & Hs & Hok).
  assert (Hpar : forall k,
            parent_of (rescale_task (Fin f) <$> h) k = parent_of raw k).
  { intros k. rewrite <- (parent_of_shape _ _ k Hs). unfold parent_of.
    rewrite list_lookup_fmap. by destruct (h !! k). }
  assert (Hurl : forall k tk, (rescale_task (Fin f) <$> h) !! k = Some tk ->
            attributableURL tk = url_of raw k /\
            exists t0, raw !! k = Some t0 /\ event tk = event t0).
  { intros k tk' Hk. rewrite list_lookup_fmap in Hk.
    destruct (h !! k) as [tk|] eqn:Htk; [|done]. injection Hk as <-.
    destruct (Hok k tk Htk) as (_ & Hu & _).
    destruct (shape_lookup _ _ _ _ (eq_sym Hs) Htk) as (t0 & Ht0 & Hsh).
    unfold shape in Hsh. injection Hsh as Hev _ _ _ _.
    split; [exact Hu|]. by exists t0. }
  intros i ti Hi. destruct (Hurl i ti Hi) as (Hui & t0 & Hi0 & _).
  split.
  - destruct (url_of_provenance raw i t0 Hwf Hi0) as (a & ta0 & Hon & Hta0 & Hp).
    assert (is_Some ((rescale_task (Fin f) <$> h) !! a)) as [ta Hta].
    { apply lookup_lt_is_Some.
      rewrite length_fmap, (shape_length _ _ Hs).
      apply lookup_lt_is_Some. eauto. }
    exists a, ta. split.
    { eapply on_path_parents; [|exact Hon]. done. }
    split; [done|]. destruct (Hurl a ta Hta) as (_ & t0' & Ht0' & Hev).
    rewrite Hui, Hp, Hev. congruence.
  - intros a ta Hon Hta Htr. destruct (Hurl a ta Hta) as (Hua & _).
    rewrite Hui, Hua. rewrite Hua in Htr.
    apply url_of_inherited; [done| |done].
    eapply on_path_parents; [|exact Hon]. intros k. by rewrite Hpar.
Qed.

End TaskTree.

Arguments event {TaskGroup} t.
Arguments startTime {TaskGroup} t.
Arguments endTime {TaskGroup} t.
Arguments parent {TaskGroup} t.
Arguments children {TaskGroup} t.
Arguments group {TaskGroup} t.
Arguments attributableURL {TaskGroup} t.
Arguments duration {TaskGroup} t.
Arguments selfTime {TaskGroup} t.

(** * The time fields in double precision

    The numbers of the program are IEEE 754 doubles, and [num] leaves
    their rounding out.  This module computes the four time fields of
    the tasks as the doubles that the program computes: lines 27-28 where
    a node is created, lines 110-117 for [duration] and [selfTime], and
    lines 160-170 for the rescale.  The tree is the one that
    [_createTasksFromEvents] reconstructs, which only compares
    timestamps. *)

Module Doubles.

Import PrimFloat.
#[local] Open Scope float_scope.

(** The double that is nearest to an integer, and the double that a
    decimal number of a trace is read as; the latter is the nearest one
    when numerator and denominator are below 2^53, which holds of
    timestamps in microseconds. *)
Definition of_Z (z : Z) : float :=
  FloatOps.SF2Prim
    (SpecFloat.binary_normalize FloatOps.prec FloatOps.emax z 0 false).

Definition of_Q (q : Q) : float := of_Z (Qnum q) / of_Z (Zpos (Qden q)).

Definition of_num (a : num) : float :=
  match a with
  | NaN => nan
  | NegInf => neg_infinity
  | Fin q => of_Q q
  | PosInf => infinity
  end.

(** What is left of a timestamp in the reconstruction: the [endTime] of
    a task of a Begin event is the timestamp of the End event that
    closed it (line 97), or [NaN]. *)
Definition closed_at {TaskGroup} (t : TaskNode TaskGroup) : float :=
  of_num (endTime t).

(** The time fields of a task node. *)
Record Times : Type := {
  startTime : float;
  endTime : float;
  duration : float;
  selfTime : float
}.

Definition set_timing (d s : float) (t : Times) : Times :=
  {| startTime := startTime t; endTime := endTime t;
     duration := d; selfTime := s |}.

Section Tasks.

Variable TaskGroup : Type.
Variable taskGroups_Other : TaskGroup.

(** The time fields of the node of [_createNewTaskNode]. *)
Definition created (t : TaskNode TaskGroup) : Times :=
  {| startTime := of_Q (ts (event t));
     endTime := if bool_decide (ph (event t) = "X")
                then of_Q (ts (event t)) + of_Q (dur_or_0 (event t))
                else closed_at t;
     duration := nan;
     selfTime := nan |}.

(** [children.map(f)], where [f] writes time fields. *)
Fixpoint map_children (f : list Times -> nat -> option (list Times * float))
    (h : list Times) (cs : list nat) : option (list Times * list float) :=
  match cs with
  | [] => Some (h, [])
  | c :: cs' =>
      '(h1, a) ← f h c;
      '(h2, l) ← map_children f h1 cs';
      Some (h2, a :: l)
  end.

(** The nodes are those of [tasks]; [h] holds their time fields. *)
Fixpoint _computeRecursiveSelfTime (fuel : nat)
    (tasks : list (TaskNode TaskGroup)) (h : list Times) (task : nat)
  : option (list Times * float) :=
  match fuel with
  | O => None
  | S fuel' =>
      node ← tasks !! task;
      '(h1, durations) ← map_children (_computeRecursiveSelfTime fuel' tasks) h
                            (children node);
      let childTime := fold_left (fun sum child => sum + child) durations 0 in
      t ← h1 !! task;
      let d := endTime t - startTime t in
      Some (<[task := set_timing d (d - childTime) t]> h1, d)
  end.

(** The first loop of [getMainThreadTasks], as far as the times go. *)
Fixpoint metrics_loop (tasks : list (TaskNode TaskGroup)) (h : list Times)
    (indices : list nat) : option (list Times) :=
  match indices with
  | [] => Some h
  | i :: rest =>
      node ← tasks !! i;
      match parent node with
      | Some _ => metrics_loop tasks h rest
      | None =>
          '(h1, _) ← _computeRecursiveSelfTime (length tasks) tasks h i;
          metrics_loop tasks h1 rest
      end
  end.

Definition rescale_task (firstTs : float) (t : Times) : Times :=
  {| startTime := (startTime t - firstTs) / 1000;
     endTime := (endTime t - firstTs) / 1000;
     duration := duration t / 1000;
     selfTime := selfTime t / 1000 |}.

Fixpoint rescale_loop (firstTs : float) (h : list Times)
  : result (list Times) :=
  match h with
  | [] => Ok []
  | t :: rest =>
      let t' := rescale_task firstTs t in
      if negb (is_finite (selfTime t'))
      then Throw (JsError "Invalid task timing data")
      else rest' ← rescale_loop firstTs rest; Ok (t' :: rest')
  end.

(** The time fields of the tasks that [getMainThreadTasks] returns, in
    the order of the list. *)
Definition getMainThreadTasks (traceEvents : list TraceEvent)
  : result (list Times) :=
  tasks ← _createTasksFromEvents TaskGroup taskGroups_Other traceEvents;
  h ← of_option (metrics_loop tasks (created <$> tasks)
                   (seq 0 (length tasks)));
  rescale_loop (match h !! 0%nat with Some t => startTime t | None => 0 end) h.

End Tasks.

(** [a === b] on numbers *)
Definition same (a b : float) : bool := (a =? b)%float.

End Doubles.

(** * Properties of the percentile estimator and of the top-level events *)

(** ** Facts on numbers *)

Lemma Qltb_lt (a b : Q) : Qltb a b = true <-> (a < b)%Q.
Proof.
  unfold Qltb. rewrite negb_true_iff. split.
  - intros H. destruct (Qlt_le_dec a b) as [|Hle]; [done|].
    apply Qle_bool_iff in Hle. congruence.
  - intros H. destruct (Qle_bool b a) eqn:E; [|done].
    apply Qle_bool_iff in E. lra.
Qed.

Lemma Qltb_ge (a b : Q) : Qltb a b = false <-> (b <= a)%Q.
Proof.
  unfold Qltb. rewrite negb_false_iff. apply Qle_bool_iff.
Qed.

Lemma Qeq_bool_false (a b : Q) : Qeq_bool a b = false <-> ~ (a == b)%Q.
Proof.
  split.
  - intros H E. apply Qeq_bool_iff in E. congruence.
  - intros H. destruct (Qeq_bool a b) eqn:E; [|done].
    apply Qeq_bool_iff in E. done.
Qed.

(** ** The walk over the durations *)

Section Walk.

Variable durations : list Q.

Local Abbreviation n := (length durations).

(** The number of rounds the loop can still make. *)
Definition walk_measure (s : Walk) : nat :=
  2 * Z.to_nat (Z.of_nat n - 1 - durationIndex s) +
  (if Qltb 0 (clippedLength s) then 1 else 0).

Lemma walk_step_index (s : Walk) :
  (-1 <= durationIndex s)%Z -> (-1 <= durationIndex (walk_step durations s))%Z.
Proof.
  intros H. unfold walk_step.
  destruct (Qltb 0 (clippedLength s) && _); simpl; lia.
Qed.

Lemma walk_step_measure (x : Q) (s : Walk) :
  walk_guard durations x s = true ->
  walk_measure (walk_step durations s) < walk_measure s.
Proof.
  unfold walk_guard. rewrite andb_true_iff, Z.ltb_lt. intros [_ Hi].
  unfold walk_step, walk_measure.
  destruct (Qltb 0 (clippedLength s)) eqn:Hc; simpl.
  - destruct (Qltb (clippedLength s) _); simpl.
    + replace (Qltb 0 0) with false by done. lia.
    + rewrite Hc. lia.
  - rewrite Hc. lia.
Qed.

Lemma walk_total (fuel : nat) (x : Q) (s : Walk) :
  walk_measure s <= fuel -> is_Some (walk fuel durations x s).
Proof.
  revert s. induction fuel as [|fuel IH]; intros s Hm; simpl.
  - destruct (walk_guard durations x s) eqn:G; [|by eexists].
    apply walk_step_measure in G. lia.
  - destruct (walk_guard durations x s) eqn:G; [|by eexists].
    apply IH. apply walk_step_measure in G. lia.
Qed.

Lemma walk_measure_bound (s : Walk) :
  (-1 <= durationIndex s)%Z -> walk_measure s <= 2 * n + 1.
Proof.
  intros H. unfold walk_measure. destruct (Qltb 0 (clippedLength s)); lia.
Qed.

(** What the loop returns is reached by iterating its body while the guard
    holds, and falsifies the guard. *)
Lemma walk_iter (fuel : nat) (x : Q) (s s' : Walk) :
  walk fuel durations x s = Some s' ->
  exists m : nat,
    s' = Nat.iter m (walk_step durations) s /\
    (forall i, i < m ->
       walk_guard durations x (Nat.iter i (walk_step durations) s) = true) /\
    walk_guard durations x s' = false.
Proof.
  revert s. induction fuel as [|fuel IH]; intros s; simpl.
  - destruct (walk_guard durations x s) eqn:G; [done|].
    intros [= <-]. exists 0. split; [done|]. split; [lia|done].
  - destruct (walk_guard durations x s) eqn:G.
    + intros H. apply IH in H as (m & -> & Hlt & Hex).
      exists (S m). rewrite Nat.iter_succ_r. split; [done|]. split; [|done].
      intros [|i] Hi; [done|]. rewrite Nat.iter_succ_r. apply Hlt. lia.
    + intros [= <-]. exists 0. split; [done|]. split; [lia|done].
Qed.

End Walk.

Lemma inject_Z_sub (a b : Z) : (inject_Z (a - b) == inject_Z a - inject_Z b)%Q.
Proof. unfold Z.sub. rewrite inject_Z_plus, inject_Z_opp. lra. Qed.

Lemma fold_left_Qplus (l : list Q) (a : Q) :
  (fold_left Qplus l a == a + fold_right Qplus 0 l)%Q.
Proof.
  revert a. induction l as [|d l IH]; intros a; simpl; [lra|].
  rewrite IH. lra.
Qed.

(** The rounds of the walk change the variables as follows, whatever the
    input: the target that made the loop go on lies above the cumulative
    time of the state that is left. *)
Lemma walk_step_above (durations : list Q) (x : Q) (s : Walk) :
  (cdfTime s == completedTime s + Qabs (w_duration s) * inject_Z (remainingCount s))%Q ->
  walk_guard durations x s = true ->
  (Qabs (w_duration s) * inject_Z (remainingCount (walk_step durations s))
   < x - completedTime (walk_step durations s))%Q.
Proof.
  intros Hcdf G. unfold walk_guard in G. apply andb_true_iff in G as [G _].
  apply Qltb_lt in G.
  assert (Hs : completedTime (walk_step durations s)
               = (completedTime s + w_duration s)%Q
            /\ remainingCount (walk_step durations s)
               = (remainingCount s - (if Qltb (w_duration s) 0 then -1 else 1))%Z).
  { unfold walk_step. destruct (Qltb 0 (clippedLength s) && _); done. }
  destruct Hs as [-> ->].
  destruct (Qltb (w_duration s) 0) eqn:Hw.
  - apply Qltb_lt in Hw. rewrite inject_Z_sub.
    assert (Ha : (Qabs (w_duration s) == - w_duration s)%Q)
      by (apply Qabs_neg; lra).
    rewrite Ha in *. change (inject_Z (-1)) with (-1)%Q. lra.
  - apply Qltb_ge in Hw. rewrite inject_Z_sub.
    assert (Ha : (Qabs (w_duration s) == w_duration s)%Q)
      by (apply Qabs_pos; lra).
    rewrite Ha in *. change (inject_Z 1) with 1%Q. lra.
Qed.

Lemma StronglySorted_nth (l : list Q) (j k : nat) :
  StronglySorted Qle l -> j <= k -> k < length l ->
  (nth j l 0 <= nth k l 0)%Q.
Proof.
  intros Hs. revert j k. induction Hs as [|d l Hs IH Hd]; intros j k Hjk Hk.
  - simpl in Hk. lia.
  - destruct k as [|k].
    + assert (j = 0) as -> by lia. simpl. lra.
    + simpl in Hk. destruct j as [|j]; simpl.
      * eapply Forall_lookup_1; [exact Hd|].
        destruct (nth_lookup_or_length l k 0%Q) as [H|]; [exact H|lia].
      * apply IH; lia.
Qed.

Lemma take_sum_S (l : list Q) (k : nat) :
  k < length l ->
  (foldr Qplus 0 (take (S k) l) == foldr Qplus 0 (take k l) + nth k l 0)%Q.
Proof.
  revert k. induction l as [|d l IH]; intros k Hk; cbn [length] in Hk; [lia|].
  destruct k as [|k].
  - rewrite take_0. cbn [firstn foldr nth]. rewrite take_0. cbn [foldr]. lra.
  - specialize (IH k ltac:(lia)). cbn [firstn foldr nth]. lra.
Qed.

(** ** The walk in the words of its description *)

(** Before the first percentile: the idle time of the window, which is
    the total time less the busy time of the durations without the
    clipped length, counts as completed; no duration is at hand; all the
    durations and the input that is waited for remain, less the clipped
    task when there is one. *)
Definition walk_starts (durations : list Q) (totalTime clip : Q) (s : Walk)
  : Prop :=
  completedTime s = (totalTime - (fold_left Qplus durations 0 - clip))%Q /\
  cdfTime s = completedTime s /\
  w_duration s = 0%Q /\
  durationIndex s = (-1)%Z /\
  ((0 < clip)%Q -> remainingCount s = Z.of_nat (length durations)) /\
  ((clip <= 0)%Q -> remainingCount s = (Z.of_nat (length durations) + 1)%Z) /\
  clippedLength s = clip.

(** The duration at hand is resolved: it is added to the completed time,
    and the count of what remains goes down by one, or up by one when
    what was at hand was the clipped length, which is held as a negative
    duration; the cumulative time is the completed time and the new
    duration at hand, in absolute value, times the count. *)
Definition resolved (s s' : Walk) : Prop :=
  completedTime s' = (completedTime s + w_duration s)%Q /\
  ((0 <= w_duration s)%Q -> remainingCount s' = (remainingCount s - 1)%Z) /\
  ((w_duration s < 0)%Q -> remainingCount s' = (remainingCount s + 1)%Z) /\
  cdfTime s' = (completedTime s'
                + Qabs (w_duration s') * inject_Z (remainingCount s'))%Q.

(** One round of the walk: the duration at hand is resolved, and what
    comes to hand is the clipped length, when there is one that is
    shorter than the next duration [d] of the list, or else [d]. *)
Inductive walk_round (durations : list Q) (s s' : Walk) : Prop :=
  | round_clip (d : Q) :
      durations !! Z.to_nat (durationIndex s + 1) = Some d ->
      (0 < clippedLength s)%Q -> (clippedLength s < d)%Q ->
      resolved s s' ->
      w_duration s' = (- clippedLength s)%Q ->
      clippedLength s' = 0%Q ->
      durationIndex s' = durationIndex s ->
      walk_round durations s s'
  | round_next (d : Q) :
      durations !! Z.to_nat (durationIndex s + 1) = Some d ->
      (clippedLength s <= 0)%Q \/ (d <= clippedLength s)%Q ->
      resolved s s' ->
      w_duration s' = d ->
      clippedLength s' = clippedLength s ->
      durationIndex s' = (durationIndex s + 1)%Z ->
      walk_round durations s s'.

(** The walk advances until its cumulative time meets or exceeds the
    target [x]. *)
Inductive walk_reaches (durations : list Q) (x : Q) : Walk -> Walk -> Prop :=
  | reaches_here (s : Walk) :
      (x <= cdfTime s)%Q -> walk_reaches durations x s s
  | reaches_on (s s1 s' : Walk) :
      (cdfTime s < x)%Q -> walk_round durations s s1 ->
      walk_reaches durations x s1 s' -> walk_reaches durations x s s'.

(** The entries for the percentiles [ps], from the state [s] of the walk
    on: the walk is not started again between two percentiles. *)
Inductive reported (durations : list Q) (totalTime : Q)
  : Walk -> list Q -> list RiskEntry -> Prop :=
  | reported_nil (s : Walk) : reported durations totalTime s [] []
  | reported_cons (s s' : Walk) (p : Q) (ps : list Q) (r : RiskEntry)
      (rs : list RiskEntry) (t : Q) :
      walk_reaches durations (p * totalTime) s s' ->
      percentile r = p -> time r = Fin t ->
      (1 <= remainingCount s')%Z ->
      (t == Qmax 0 ((p * totalTime - completedTime s')
                    / inject_Z (remainingCount s')) + 16)%Q ->
      (16 <= t)%Q ->
      reported durations totalTime s' ps rs ->
      reported durations totalTime s (p :: ps) (r :: rs).

Section Contract.

Variable durations : list Q.
Variables totalTime clip : Q.

Local Abbreviation n := (length durations).

Hypothesis durations_nonneg : Forall (Qle 0) durations.
Hypothesis durations_sorted : StronglySorted Qle durations.
Hypothesis totalTime_nonneg : (0 <= totalTime)%Q.
Hypothesis clip_in_a_duration :
  (clip == 0)%Q \/ (0 < clip)%Q /\ Exists (Qle clip) durations.

Definition dnth (k : nat) : Q := nth k durations 0%Q.
Definition prefix (k : nat) : Q := foldr Qplus 0%Q (take k durations).
Definition level (k : nat) : Q :=
  match k with O => 0%Q | S j => dnth j end.
Definition idle : Q := (totalTime - (fold_left Qplus durations 0 - clip))%Q.

Lemma lookup_dnth k : k < n -> durations !! k = Some (dnth k).
Proof.
  intros Hk. unfold dnth.
  destruct (nth_lookup_or_length durations k 0%Q) as [H|]; [exact H|lia].
Qed.

Lemma dnth_nonneg k : (0 <= dnth k)%Q.
Proof.
  unfold dnth. destruct (decide (k < n)) as [Hk|Hk].
  - eapply Forall_lookup_1; [exact durations_nonneg|].
    apply lookup_dnth. done.
  - rewrite nth_overflow by lia. lra.
Qed.

Lemma dnth_sorted j k : j <= k -> k < n -> (dnth j <= dnth k)%Q.
Proof.
  intros Hjk Hk. apply StronglySorted_nth; done.
Qed.

Lemma prefix_S k : k < n -> (prefix (S k) == prefix k + dnth k)%Q.
Proof.
  apply take_sum_S.
Qed.

Lemma prefix_all : (fold_left Qplus durations 0 == prefix n)%Q.
Proof.
  unfold prefix. rewrite firstn_all, fold_left_Qplus. lra.
Qed.

Lemma level_nonneg k : (0 <= level k)%Q.
Proof. destruct k; simpl; [lra|apply dnth_nonneg]. Qed.

Lemma level_sorted k : k < n -> (level k <= dnth k)%Q.
Proof.
  destruct k as [|k]; simpl; intros Hk; [apply dnth_nonneg|].
  apply dnth_sorted; lia.
Qed.

Lemma clip_nonneg : (0 <= clip)%Q.
Proof. destruct clip_in_a_duration as [H|[H _]]; lra. Qed.

Lemma clip_le_last : (0 < clip)%Q -> 1 <= n /\ (clip <= dnth (n - 1))%Q.
Proof.
  intros Hc. destruct clip_in_a_duration as [H|[_ H]]; [lra|].
  apply Exists_exists in H as (d & Hin & Hd).
  destruct (proj1 (list_elem_of_lookup _ _) Hin) as [j Hj].
  assert (Hjn : j < n) by (apply lookup_lt_is_Some; eauto).
  split; [lia|].
  assert (d = dnth j) as ->.
  { rewrite lookup_dnth in Hj by done. congruence. }
  apply Qle_trans with (dnth j); [exact Hd|]. apply dnth_sorted; lia.
Qed.

(** The shape of the variables of the walk. *)
Definition cdf_ok (s : Walk) : Prop :=
  (cdfTime s ==
   completedTime s + Qabs (w_duration s) * inject_Z (remainingCount s))%Q.

Inductive walk_inv (s : Walk) : Prop :=
  | inv_plain (k : nat) :
      k <= n ->
      durationIndex s = (Z.of_nat k - 1)%Z ->
      (clippedLength s == clip)%Q ->
      (w_duration s == level k)%Q ->
      (completedTime s + level k == idle + prefix k)%Q ->
      remainingCount s =
        ((if Qltb 0 clip then Z.of_nat n else Z.of_nat n + 1) - Z.of_nat k)%Z ->
      ((0 < clip)%Q -> k < n /\ forall j, j < k -> (dnth j <= clip)%Q) ->
      cdf_ok s -> walk_inv s
  | inv_clip (k : nat) :
      k < n ->
      durationIndex s = (Z.of_nat k - 1)%Z ->
      (clippedLength s == 0)%Q -> (0 < clip)%Q ->
      (w_duration s == - clip)%Q ->
      (completedTime s == idle + prefix k)%Q ->
      remainingCount s = (Z.of_nat n - Z.of_nat k - 1)%Z ->
      (forall j, j < k -> (dnth j <= clip)%Q) ->
      (clip < dnth k)%Q ->
      cdf_ok s -> walk_inv s
  | inv_after (k : nat) :
      1 <= k <= n ->
      durationIndex s = (Z.of_nat k - 1)%Z ->
      (clippedLength s == 0)%Q -> (0 < clip)%Q ->
      (w_duration s == dnth (k - 1))%Q ->
      (completedTime s == idle + prefix (k - 1) - clip)%Q ->
      remainingCount s = (Z.of_nat n - Z.of_nat k + 1)%Z ->
      (clip < dnth (k - 1))%Q ->
      cdf_ok s -> walk_inv s.

Lemma walk_inv_cdf s : walk_inv s -> cdf_ok s.
Proof. by intros []. Qed.

Lemma walk_inv_init : walk_inv (walk_init durations totalTime clip).
Proof.
  apply inv_plain with (k := 0); simpl; try done; try lia; try lra.
  - destruct (Qltb 0 clip); lia.
  - intros Hc. split; [|lia]. apply clip_le_last in Hc. lia.
  - unfold cdf_ok, walk_init.
    cbn [cdfTime completedTime w_duration remainingCount].
    change (Qabs 0) with 0%Q. lra.
Qed.

Lemma walk_inv_count s : walk_inv s -> (0 <= remainingCount s)%Z.
Proof.
  intros [k ? ? ? ? ? -> Hc ?|k ? ? ? ? ? ? -> ? ? ?|k ? ? ? ? ? ? -> ? ?];
    try lia.
  destruct (Qltb 0 clip) eqn:E; [|lia].
  apply Qltb_lt in E. apply Hc in E. lia.
Qed.

Lemma at_index_dnth (k : nat) :
  at_index durations (Z.of_nat k - 1 + 1) = dnth k.
Proof.
  unfold at_index, dnth. f_equal. lia.
Qed.

Lemma guard_index x s k :
  walk_guard durations x s = true ->
  durationIndex s = (Z.of_nat k - 1)%Z -> k < n.
Proof.
  unfold walk_guard. rewrite andb_true_iff, Z.ltb_lt. lia.
Qed.

Lemma guard_below x s :
  walk_guard durations x s = true -> (cdfTime s < x)%Q.
Proof.
  unfold walk_guard. rewrite andb_true_iff, Qltb_lt. tauto.
Qed.

Lemma cdf_ok_step s : cdf_ok (walk_step durations s).
Proof.
  unfold cdf_ok, walk_step.
  destruct (Qltb 0 (clippedLength s) && _); cbn; lra.
Qed.

Lemma walk_step_clip s :
  Qltb 0 (clippedLength s) &&
  Qltb (clippedLength s) (at_index durations (durationIndex s + 1)) = true ->
  walk_step durations s =
  let completedTime := (completedTime s + w_duration s)%Q in
  let remainingCount :=
    (remainingCount s - (if Qltb (w_duration s) 0 then -1 else 1))%Z in
  {| completedTime := completedTime;
     w_duration := (- clippedLength s)%Q;
     cdfTime := (completedTime
                 + Qabs (- clippedLength s) * inject_Z remainingCount)%Q;
     durationIndex := durationIndex s;
     remainingCount := remainingCount;
     clippedLength := 0 |}.
Proof. intros H. unfold walk_step. rewrite H. done. Qed.

Lemma walk_step_next s :
  Qltb 0 (clippedLength s) &&
  Qltb (clippedLength s) (at_index durations (durationIndex s + 1)) = false ->
  walk_step durations s =
  let completedTime := (completedTime s + w_duration s)%Q in
  let remainingCount :=
    (remainingCount s - (if Qltb (w_duration s) 0 then -1 else 1))%Z in
  {| completedTime := completedTime;
     w_duration := at_index durations (durationIndex s + 1);
     cdfTime := (completedTime
                 + Qabs (at_index durations (durationIndex s + 1))
                   * inject_Z remainingCount)%Q;
     durationIndex := (durationIndex s + 1)%Z;
     remainingCount := remainingCount;
     clippedLength := clippedLength s |}.
Proof. intros H. unfold walk_step. rewrite H. done. Qed.

Ltac walk_fields :=
  cbn [durationIndex clippedLength w_duration completedTime remainingCount].

(** One round of the loop keeps the shape, as long as the target is not
    beyond the total time. *)
Lemma walk_inv_step x s :
  (x <= totalTime)%Q -> walk_inv s -> walk_guard durations x s = true ->
  walk_inv (walk_step durations s).
Proof.
  intros Hx Hinv G.
  pose proof (guard_below _ _ G) as Hlt.
  pose proof (cdf_ok_step s) as Hcdf'.
  destruct Hinv as [k Hk Hi Hcl Hw Hct Hrc Hc Hcdf
                   |k Hk Hi Hcl Hc Hw Hct Hrc Hj Hlast Hcdf
                   |k Hk Hi Hcl Hc Hw Hct Hrc Hlast Hcdf];
    pose proof (guard_index _ _ _ G Hi) as Hkn.
  - (* the clip is absent, or not consumed yet *)
    assert (Hw0 : Qltb (w_duration s) 0 = false).
    { apply Qltb_ge. pose proof (level_nonneg k). lra. }
    destruct (Qltb 0 (clippedLength s) &&
              Qltb (clippedLength s) (at_index durations (durationIndex s + 1)))
      eqn:Htest.
    + pose proof (walk_step_clip _ Htest) as Hstep. cbv zeta in Hstep.
      apply andb_true_iff in Htest as [H0 H1].
      apply Qltb_lt in H0. apply Qltb_lt in H1.
      rewrite Hi, at_index_dnth in H1.
      assert (Hcpos : (0 < clip)%Q) by lra.
      destruct (Hc Hcpos) as [_ Hj].
      rewrite Hstep in Hcdf' |- *.
      apply inv_clip with (k := k); walk_fields; try done; try lra.
      rewrite Hw0, Hrc.
      replace (Qltb 0 clip) with true by (symmetry; apply Qltb_lt; done). lia.
    + pose proof (walk_step_next _ Htest) as Hstep. cbv zeta in Hstep.
      assert (Hnext : (0 < clip)%Q -> (dnth k <= clip)%Q).
      { intros Hcpos. apply andb_false_iff in Htest as [H0|H1].
        - apply Qltb_ge in H0. lra.
        - apply Qltb_ge in H1. rewrite Hi, at_index_dnth in H1. lra. }
      rewrite Hstep in Hcdf' |- *. rewrite Hi, at_index_dnth in *.
      apply inv_plain with (k := S k); walk_fields; try done.
      * lia.
      * rewrite prefix_S by done. cbn [level]. lra.
      * rewrite Hw0, Hrc. lia.
      * intros Hcpos. destruct (Hc Hcpos) as [_ Hj].
        specialize (Hnext Hcpos).
        split.
        -- destruct (decide (S k < n)) as [|Hlast]; [done|exfalso].
           assert (k = n - 1) as Hkl by lia.
           destruct (clip_le_last Hcpos) as [_ Hle]. rewrite <- Hkl in Hle.
           unfold cdf_ok in Hcdf. rewrite Hrc in Hcdf.
           replace (Qltb 0 clip) with true in Hcdf
             by (symmetry; apply Qltb_lt; done).
           replace (Z.of_nat n - Z.of_nat k)%Z with 1%Z in Hcdf by lia.
           assert (Ha : (Qabs (w_duration s) == level k)%Q).
           { rewrite Hw. apply Qabs_pos, level_nonneg. }
           rewrite Ha in Hcdf. change (inject_Z 1) with 1%Q in Hcdf.
           pose proof prefix_all as Hall.
           assert (E : prefix n = prefix (S k)) by (f_equal; lia).
           rewrite E in Hall. pose proof (prefix_S k Hkn) as Hp.
           unfold idle in Hct. lra.
        -- intros j Hjk. destruct (decide (j = k)) as [->|]; [done|].
           apply Hj. lia.
  - (* the clip has just been consumed *)
    assert (Htest : Qltb 0 (clippedLength s) &&
              Qltb (clippedLength s) (at_index durations (durationIndex s + 1))
              = false).
    { apply andb_false_iff. left. apply Qltb_ge. lra. }
    assert (Hw0 : Qltb (w_duration s) 0 = true) by (apply Qltb_lt; lra).
    pose proof (walk_step_next _ Htest) as Hstep. cbv zeta in Hstep.
    rewrite Hstep in Hcdf' |- *. rewrite Hi, at_index_dnth in *.
    apply inv_after with (k := S k); walk_fields;
      replace (S k - 1) with k by lia; try done; try lia; try lra.
    rewrite Hw0, Hrc. lia.
  - (* the clip was consumed before *)
    assert (Htest : Qltb 0 (clippedLength s) &&
              Qltb (clippedLength s) (at_index durations (durationIndex s + 1))
              = false).
    { apply andb_false_iff. left. apply Qltb_ge. lra. }
    assert (Hw0 : Qltb (w_duration s) 0 = false).
    { apply Qltb_ge. pose proof (dnth_nonneg (k - 1)). lra. }
    assert (Hsorted : (dnth (k - 1) <= dnth k)%Q) by (apply dnth_sorted; lia).
    pose proof (walk_step_next _ Htest) as Hstep. cbv zeta in Hstep.
    rewrite Hstep in Hcdf' |- *. rewrite Hi, at_index_dnth in *.
    pose proof (prefix_S (k - 1)) as Hp.
    replace (S (k - 1)) with k in Hp by lia. specialize (Hp ltac:(lia)).
    apply inv_after with (k := S k); walk_fields;
      replace (S k - 1) with k by lia; try done; try lia; try lra.
    rewrite Hw0, Hrc. lia.
Qed.

Lemma Qabs_of_nonneg (a b : Q) : (a == b)%Q -> (0 <= b)%Q -> (Qabs a == b)%Q.
Proof. intros -> H. apply Qabs_pos, H. Qed.

Lemma Qabs_of_opp (a b : Q) : (a == - b)%Q -> (0 <= b)%Q -> (Qabs a == b)%Q.
Proof. intros -> H. rewrite Qabs_opp. apply Qabs_pos, H. Qed.

(** The absolute value of [duration] never decreases along the walk. *)
Lemma walk_level_step x s :
  walk_inv s -> walk_guard durations x s = true ->
  (Qabs (w_duration s) <= Qabs (w_duration (walk_step durations s)))%Q.
Proof.
  intros Hinv G.
  destruct Hinv as [k Hk Hi Hcl Hw Hct Hrc Hc Hcdf
                   |k Hk Hi Hcl Hc Hw Hct Hrc Hj Hlast Hcdf
                   |k Hk Hi Hcl Hc Hw Hct Hrc Hlast Hcdf];
    pose proof (guard_index _ _ _ G Hi) as Hkn.
  - rewrite (Qabs_of_nonneg _ _ Hw (level_nonneg k)).
    destruct (Qltb 0 (clippedLength s) &&
              Qltb (clippedLength s) (at_index durations (durationIndex s + 1)))
      eqn:Htest.
    + rewrite (walk_step_clip _ Htest). walk_fields.
      apply andb_true_iff in Htest as [H0 H1]. apply Qltb_lt in H0.
      assert (Hcpos : (0 < clip)%Q) by lra.
      destruct (Hc Hcpos) as [_ Hj].
      rewrite (Qabs_of_opp _ (clippedLength s)) by lra.
      destruct k as [|k]; simpl; [lra|]. rewrite Hcl. apply Hj. lia.
    + rewrite (walk_step_next _ Htest). walk_fields.
      rewrite Hi, at_index_dnth.
      rewrite (Qabs_of_nonneg _ (dnth k)) by (try apply dnth_nonneg; lra).
      apply level_sorted. done.
  - assert (Htest : Qltb 0 (clippedLength s) &&
              Qltb (clippedLength s) (at_index durations (durationIndex s + 1))
              = false).
    { apply andb_false_iff. left. apply Qltb_ge. lra. }
    rewrite (walk_step_next _ Htest). walk_fields.
    rewrite Hi, at_index_dnth.
    rewrite (Qabs_of_opp _ clip) by lra.
    rewrite (Qabs_of_nonneg _ (dnth k)) by (try apply dnth_nonneg; lra).
    lra.
  - assert (Htest : Qltb 0 (clippedLength s) &&
              Qltb (clippedLength s) (at_index durations (durationIndex s + 1))
              = false).
    { apply andb_false_iff. left. apply Qltb_ge. lra. }
    rewrite (walk_step_next _ Htest). walk_fields.
    rewrite Hi, at_index_dnth.
    rewrite (Qabs_of_nonneg _ (dnth (k - 1))) by (try apply dnth_nonneg; lra).
    rewrite (Qabs_of_nonneg _ (dnth k)) by (try apply dnth_nonneg; lra).
    apply dnth_sorted; lia.
Qed.

(** When the loop stops, the cumulative time has reached the target. *)
Lemma walk_inv_exit x s :
  (x <= totalTime)%Q -> walk_inv s -> walk_guard durations x s = false ->
  (x <= cdfTime s)%Q.
Proof.
  intros Hx Hinv G. unfold walk_guard in G.
  apply andb_false_iff in G as [G|G]; [by apply Qltb_ge in G|].
  apply Z.ltb_ge in G.
  pose proof prefix_all as Hall.
  destruct Hinv as [k Hk Hi Hcl Hw Hct Hrc Hc Hcdf
                   |k Hk Hi Hcl Hc Hw Hct Hrc Hj Hlast Hcdf
                   |k Hk Hi Hcl Hc Hw Hct Hrc Hlast Hcdf];
    [|lia|]; assert (k = n) as -> by lia; unfold cdf_ok in Hcdf.
  - destruct (Qltb 0 clip) eqn:E.
    { apply Qltb_lt in E. apply Hc in E. lia. }
    apply Qltb_ge in E. pose proof clip_nonneg.
    rewrite Hrc in Hcdf.
    replace (Z.of_nat n + 1 - Z.of_nat n)%Z with 1%Z in Hcdf by lia.
    rewrite (Qabs_of_nonneg _ _ Hw (level_nonneg n)) in Hcdf.
    change (inject_Z 1) with 1%Q in Hcdf. unfold idle in Hct. lra.
  - rewrite Hrc in Hcdf.
    replace (Z.of_nat n - Z.of_nat n + 1)%Z with 1%Z in Hcdf by lia.
    rewrite (Qabs_of_nonneg _ _ Hw (dnth_nonneg (n - 1))) in Hcdf.
    change (inject_Z 1) with 1%Q in Hcdf.
    pose proof (prefix_S (n - 1)) as Hp.
    replace (S (n - 1)) with n in Hp by lia. specialize (Hp ltac:(lia)).
    unfold idle in Hct. lra.
Qed.

(** What one run of the loop establishes, for a target within the total
    time: the loop stops in a state of the same shape, with a positive
    count and a cumulative time that has reached the target. *)
Lemma walk_contract fuel x s s' :
  (x <= totalTime)%Q -> walk_inv s ->
  (1 <= remainingCount s)%Z \/ (cdfTime s < x)%Q ->
  walk fuel durations x s = Some s' ->
  walk_inv s' /\ (1 <= remainingCount s')%Z /\ (x <= cdfTime s')%Q /\
  (Qabs (w_duration s) <= Qabs (w_duration s'))%Q /\
  (s' = s \/
   (cdfTime s < x)%Q /\
   (Qabs (w_duration s) * inject_Z (remainingCount s')
    <= x - completedTime s')%Q).
Proof.
  intros Hx. revert s. induction fuel as [|fuel IH]; intros s Hinv Hrc; simpl;
    destruct (walk_guard durations x s) eqn:G; try done.
  - intros [= <-]. pose proof (walk_inv_exit _ _ Hx Hinv G) as Hex.
    split; [done|]. split; [destruct Hrc; [done|lra]|].
    split; [done|]. split; [lra|by left].
  - intros Hw.
    pose proof (walk_inv_step _ _ Hx Hinv G) as Hinv1.
    pose proof (walk_level_step _ _ Hinv G) as Hlev.
    pose proof (walk_step_above _ _ _ (walk_inv_cdf _ Hinv) G) as Habove.
    assert (Hrc1 : (1 <= remainingCount (walk_step durations s))%Z \/
                   (cdfTime (walk_step durations s) < x)%Q).
    { pose proof (walk_inv_count _ Hinv1) as H0.
      destruct (decide (remainingCount (walk_step durations s) = 0%Z)) as [E|];
        [right|left; lia].
      pose proof (walk_inv_cdf _ Hinv1) as Hc. unfold cdf_ok in Hc.
      rewrite E in Hc, Habove. change (inject_Z 0) with 0%Q in *. lra. }
    destruct (IH _ Hinv1 Hrc1 Hw) as (Hinv' & Hrc' & Hcdf' & Hlev' & Hmoved).
    split; [done|]. split; [done|]. split; [done|]. split; [lra|]. right.
    split; [by apply guard_below in G|].
    destruct Hmoved as [->|[_ Hm]]; [lra|].
    apply Qle_trans with
      (Qabs (w_duration (walk_step durations s)) * inject_Z (remainingCount s'))%Q;
      [|done].
    apply Qmult_le_compat_r; [done|].
    change 0%Q with (inject_Z 0). rewrite <- Zle_Qle. lia.
  - intros [= <-]. pose proof (walk_inv_exit _ _ Hx Hinv G) as Hex.
    split; [done|]. split; [destruct Hrc; [done|lra]|].
    split; [done|]. split; [lra|by left].
Qed.

(** The finite value that is pushed for a target [x] in state [s]. *)
Definition risk_value (x : Q) (s : Walk) : Q :=
  (Qmax 0 ((x - completedTime s) / inject_Z (remainingCount s))
   + BASE_RESPONSE_LATENCY)%Q.

Lemma risk_time_value x s :
  (1 <= remainingCount s)%Z ->
  exists t, risk_time x s = Fin t /\ (t == risk_value x s)%Q /\ (16 <= t)%Q.
Proof.
  intros Hrc. unfold risk_time, risk_value, num_div.
  assert (Hpos : (0 < inject_Z (remainingCount s))%Q).
  { change 0%Q with (inject_Z 0). rewrite <- Zlt_Qlt. lia. }
  replace (Qeq_bool (inject_Z (remainingCount s)) 0) with false
    by (symmetry; apply Qeq_bool_false; lra).
  set (w := ((x - completedTime s) / inject_Z (remainingCount s))%Q).
  unfold Math_max, num_leb, num_add, BASE_RESPONSE_LATENCY.
  destruct (Qle_bool 0 w) eqn:E.
  - apply Qle_bool_iff in E. eexists. split; [done|].
    rewrite Q.max_r by done. split; lra.
  - assert (w <= 0)%Q.
    { destruct (Qlt_le_dec w 0) as [|H]; [lra|].
      apply Qle_bool_iff in H. congruence. }
    eexists. split; [done|]. rewrite Q.max_l by done. split; lra.
Qed.

Lemma risk_value_mono x0 x s0 s :
  ((x0 - completedTime s0) / inject_Z (remainingCount s0)
   <= (x - completedTime s) / inject_Z (remainingCount s))%Q ->
  (risk_value x0 s0 <= risk_value x s)%Q.
Proof.
  intros H. unfold risk_value.
  apply Qplus_le_l. apply Q.max_le_compat_l. done.
Qed.

Lemma walk_inv_index s : walk_inv s -> (-1 <= durationIndex s)%Z.
Proof. intros [k ? -> |k ? -> |k ? -> ]; lia. Qed.

Lemma walk_runs x s :
  walk_inv s -> is_Some (walk (2 * n + 1) durations x s).
Proof.
  intros Hinv. apply walk_total, walk_measure_bound, walk_inv_index, Hinv.
Qed.

Lemma target_le (p : Q) : (p <= 1)%Q -> (p * totalTime <= totalTime)%Q.
Proof.
  intros Hp. rewrite <- (Qmult_1_l totalTime) at 2.
  apply Qmult_le_compat_r; done.
Qed.

Lemma target_mono (p q : Q) : (p <= q)%Q -> (p * totalTime <= q * totalTime)%Q.
Proof. intros Hp. apply Qmult_le_compat_r; done. Qed.

(** How the values for two successive percentiles compare. *)
Lemma walk_value_mono fuel x0 x s s' :
  (x0 <= x)%Q -> (x <= totalTime)%Q -> walk_inv s ->
  (1 <= remainingCount s)%Z -> (x0 <= cdfTime s)%Q ->
  walk fuel durations x s = Some s' ->
  (risk_value x0 s <= risk_value x s')%Q /\
  ((x <= x0)%Q -> (risk_value x s' <= risk_value x0 s)%Q).
Proof.
  intros Hxx Hx Hinv Hrc Hx0 Hw.
  destruct (walk_contract _ _ _ _ Hx Hinv (or_introl Hrc) Hw)
    as (Hinv' & Hrc' & Hcdf' & Hlev & Hmoved).
  assert (Hpos : (0 < inject_Z (remainingCount s))%Q).
  { change 0%Q with (inject_Z 0). rewrite <- Zlt_Qlt. lia. }
  assert (Hpos' : (0 < inject_Z (remainingCount s'))%Q).
  { change 0%Q with (inject_Z 0). rewrite <- Zlt_Qlt. lia. }
  destruct Hmoved as [->|[Hlt Hm]].
  - split; [|intros Hle]; apply risk_value_mono;
      apply Qmult_le_compat_r; try lra; apply Qlt_le_weak, Qinv_lt_0_compat, Hpos.
  - split; [|intros Hle; lra]. apply risk_value_mono.
    apply Qle_trans with (Qabs (w_duration s)).
    + apply Qle_shift_div_r; [done|].
      pose proof (walk_inv_cdf _ Hinv) as Hc. unfold cdf_ok in Hc. lra.
    + apply Qle_shift_div_l; done.
Qed.

(** One round of the loop is a round of the walk as described. *)
Lemma walk_step_round s :
  (-1 <= durationIndex s < Z.of_nat n - 1)%Z ->
  walk_round durations s (walk_step durations s).
Proof.
  intros Hi.
  assert (Hd : durations !! Z.to_nat (durationIndex s + 1)
               = Some (at_index durations (durationIndex s + 1))).
  { unfold at_index.
    destruct (nth_lookup_or_length durations
                (Z.to_nat (durationIndex s + 1)) 0%Q) as [H|H]; [exact H|lia]. }
  assert (Hres : forall s', completedTime s' = (completedTime s + w_duration s)%Q ->
            remainingCount s' =
              (remainingCount s - (if Qltb (w_duration s) 0 then -1 else 1))%Z ->
            cdfTime s' = (completedTime s'
                          + Qabs (w_duration s') * inject_Z (remainingCount s'))%Q ->
            resolved s s').
  { intros s' Hc Hr Hcdf. split; [done|]. split; [|split; [|done]].
    - intros Hw. apply Qltb_ge in Hw. rewrite Hr, Hw. lia.
    - intros Hw. apply Qltb_lt in Hw. rewrite Hr, Hw. lia. }
  destruct (Qltb 0 (clippedLength s) &&
            Qltb (clippedLength s) (at_index durations (durationIndex s + 1)))
    eqn:Htest.
  - rewrite (walk_step_clip _ Htest). cbv zeta.
    apply andb_true_iff in Htest as [H0 H1].
    apply Qltb_lt in H0. apply Qltb_lt in H1.
    eapply round_clip; [exact Hd|done|done| |done|done|done].
    by apply Hres.
  - rewrite (walk_step_next _ Htest). cbv zeta.
    eapply round_next; [exact Hd| | |done|done|done].
    + apply andb_false_iff in Htest as [H0|H1]; [left|right].
      * by apply Qltb_ge in H0.
      * by apply Qltb_ge in H1.
    + by apply Hres.
Qed.

(** What the loop returns for a target is where the walk gets when it
    advances until its cumulative time has reached the target. *)
Lemma walk_reaches_target fuel x s s' :
  (x <= totalTime)%Q -> walk_inv s ->
  walk fuel durations x s = Some s' -> (x <= cdfTime s')%Q ->
  walk_reaches durations x s s'.
Proof.
  intros Hx. revert s. induction fuel as [|fuel IH]; intros s Hinv; simpl;
    destruct (walk_guard durations x s) eqn:G; try done.
  - intros [= <-] Hcdf. by apply reaches_here.
  - intros Hw Hcdf.
    eapply reaches_on; [by apply guard_below in G| |].
    + apply walk_step_round. pose proof (walk_inv_index _ Hinv).
      unfold walk_guard in G. apply andb_true_iff in G as [_ G].
      apply Z.ltb_lt in G. lia.
    + apply IH; [|done|done]. by apply (walk_inv_step x).
  - intros [= <-] Hcdf. by apply reaches_here.
Qed.

(** The entries of one call, from a state of the walk on. *)
Lemma percentiles_loop_reported (ps : list Q) (s : Walk) :
  Forall (fun p => (p <= 1)%Q) ps ->
  walk_inv s -> (1 <= remainingCount s)%Z ->
  exists results,
    percentiles_loop durations totalTime ps s = Some results /\
    reported durations totalTime s ps results.
Proof.
  revert s. induction ps as [|p rest IH]; intros s Hle Hinv Hrc.
  - exists []. split; [done|constructor].
  - apply Forall_cons in Hle as [Hp Hle].
    pose proof (target_le _ Hp) as Hx.
    destruct (walk_runs (p * totalTime) _ Hinv) as [s' Hw].
    destruct (walk_contract _ _ _ _ Hx Hinv (or_introl Hrc) Hw)
      as (Hinv' & Hrc' & Hcdf' & _ & _).
    destruct (IH s' Hle Hinv' Hrc') as (results & Hloop & Hall).
    destruct (risk_time_value (p * totalTime) _ Hrc') as (t & Ht & Hv & H16).
    eexists. split.
    + cbn [percentiles_loop]. rewrite Hw. cbn. rewrite Hloop. cbn. done.
    + eapply reported_cons with (s' := s') (t := t); try done.
      by eapply walk_reaches_target.
Qed.

(** The relation between the entries for two successive percentiles. *)
Definition entry_le (r1 r2 : RiskEntry) : Prop :=
  exists t1 t2 : Q,
    time r1 = Fin t1 /\ time r2 = Fin t2 /\
    (percentile r1 <= percentile r2)%Q /\ (t1 <= t2)%Q /\
    ((percentile r2 <= percentile r1)%Q -> (t2 <= t1)%Q).

Lemma entry_le_trans r1 r2 r3 : entry_le r1 r2 -> entry_le r2 r3 -> entry_le r1 r3.
Proof.
  intros (t1 & t2 & E1 & E2 & Hp & Ht & Hb) (t2' & t3 & E2' & E3 & Hp' & Ht' & Hb').
  rewrite E2 in E2'. injection E2' as <-.
  exists t1, t3. split; [done|]. split; [done|]. split; [lra|]. split; [lra|].
  intros H. assert (t3 <= t2)%Q by (apply Hb'; lra).
  assert (t2 <= t1)%Q by (apply Hb; lra). lra.
Qed.

Lemma percentiles_loop_sorted (ps : list Q) (s : Walk) (p0 : Q) :
  Forall (fun p => (p <= 1)%Q) ps -> StronglySorted Qle ps ->
  Forall (Qle p0) ps ->
  walk_inv s -> (1 <= remainingCount s)%Z ->
  (p0 * totalTime <= cdfTime s)%Q ->
  exists results,
    percentiles_loop durations totalTime ps s = Some results /\
    Sorted entry_le results /\
    HdRel entry_le
      {| percentile := p0; time := risk_time (p0 * totalTime) s |} results /\
    Forall (fun r => exists t, time r = Fin t) results.
Proof.
  revert s p0.
  induction ps as [|p rest IH]; intros s p0 Hle Hsorted Hp0 Hinv Hrc Hcdf.
  - exists []. repeat split; constructor.
  - apply Forall_cons in Hle as [Hp Hle].
    apply StronglySorted_inv in Hsorted as [Hsorted Hfirst].
    apply Forall_cons in Hp0 as [Hp0 _].
    pose proof (target_le _ Hp) as Hx.
    pose proof (target_mono _ _ Hp0) as Hxx.
    destruct (walk_runs (p * totalTime) _ Hinv) as [s' Hw].
    destruct (walk_contract _ _ _ _ Hx Hinv (or_introl Hrc) Hw)
      as (Hinv' & Hrc' & Hcdf' & _ & _).
    destruct (walk_value_mono _ _ _ _ _ Hxx Hx Hinv Hrc Hcdf Hw) as [Hup Hdown].
    destruct (IH s' p Hle Hsorted Hfirst Hinv' Hrc' Hcdf')
      as (results & Hloop & Hs & Hhd & Hfin).
    destruct (risk_time_value (p0 * totalTime) _ Hrc) as (t0 & Ht0 & Hv0 & _).
    destruct (risk_time_value (p * totalTime) _ Hrc') as (t & Ht & Hv & _).
    eexists. split.
    { cbn [percentiles_loop]. rewrite Hw. cbn. rewrite Hloop. cbn. done. }
    split; [by constructor|]. split.
    + constructor. exists t0, t. cbn [time percentile].
      split; [done|]. split; [done|]. split; [done|]. split; [lra|].
      intros Hback. assert (p * totalTime <= p0 * totalTime)%Q
        by (apply target_mono, Hback).
      specialize (Hdown ltac:(done)). lra.
    + constructor; [|done]. by exists t.
Qed.

End Contract.

(** The contract of the estimator on its arguments: the durations are
    those of tasks, in ascending order; the window has a length; the
    clipped length, when there is one, is a part of one of the durations. *)
Definition estimator_contract (durations : list Q) (totalTime : Q)
    (clippedLength : Q) : Prop :=
  Forall (Qle 0) durations /\ StronglySorted Qle durations /\
  (0 <= totalTime)%Q /\
  ((clippedLength == 0)%Q \/
   (0 < clippedLength)%Q /\ Exists (Qle clippedLength) durations).

Lemma walk_init_count durations totalTime clip :
  estimator_contract durations totalTime clip ->
  (1 <= remainingCount (walk_init durations totalTime clip))%Z.
Proof.
  intros (Hn & Hs & HT & Hc). cbn [walk_init remainingCount].
  destruct (Qltb 0 clip) eqn:E; [|lia].
  apply Qltb_lt in E.
  destruct (clip_le_last durations clip Hs Hc E). lia.
Qed.

Lemma walk_init_starts (durations : list Q) (totalTime clip : Q) :
  walk_starts durations totalTime clip (walk_init durations totalTime clip).
Proof.
  unfold walk_starts, walk_init.
  cbn [completedTime cdfTime w_duration durationIndex remainingCount
       clippedLength].
  repeat (split; [done|]). split; [|split; [|done]].
  - intros Hc. apply Qltb_lt in Hc. rewrite Hc. lia.
  - intros Hc. apply Qltb_ge in Hc. by rewrite Hc.
Qed.


(** ** The calls return on every input *)

Lemma percentiles_loop_total (durations : list Q) (totalTime : Q)
    (percentiles : list Q) (s : Walk) :
  (-1 <= durationIndex s)%Z ->
  exists results,
    percentiles_loop durations totalTime percentiles s = Some results /\
    map percentile results = percentiles.
Proof.
  revert s. induction percentiles as [|p rest IH]; intros s Hi.
  - by exists [].
  - destruct (walk_total durations (2 * length durations + 1)
                (p * totalTime) s) as [s' Hw].
    { by apply walk_measure_bound. }
    destruct (IH s') as (results & Hloop & Hmap).
    { destruct (walk_iter _ _ _ _ _ Hw) as (m & -> & _).
      clear Hw. induction m as [|m IHm]; [done|].
      cbn [Nat.iter nat_rect]. by apply walk_step_index. }
    eexists. split.
    + cbn [percentiles_loop]. rewrite Hw. cbn. rewrite Hloop. cbn. done.
    + cbn [map percentile]. by rewrite Hmap.
Qed.

Lemma riskPercentiles_total (durations : list Q) (totalTime : Q)
    (percentiles : list Q) (clippedLength : Q) :
  exists results,
    _riskPercentiles durations totalTime percentiles clippedLength = Ok results /\
    map percentile results = percentiles.
Proof.
  destruct (percentiles_loop_total durations totalTime percentiles
              (walk_init durations totalTime clippedLength))
    as (results & Hloop & Hmap).
  - cbn. lia.
  - exists results. unfold _riskPercentiles. by rewrite Hloop.
Qed.

Lemma entries_pairwise (l : list RiskEntry) :
  StronglySorted entry_le l ->
  Forall (fun r => exists t, time r = Fin t) l ->
  forall r1 r2, r1 ∈ l -> r2 ∈ l ->
    (percentile r1 <= percentile r2)%Q ->
    exists t1 t2, time r1 = Fin t1 /\ time r2 = Fin t2 /\ (t1 <= t2)%Q.
Proof.
  induction 1 as [|a l Hs IH Ha]; intros Hfin r1 r2 H1 H2 Hp.
  - by apply elem_of_nil in H1.
  - apply Forall_cons in Hfin as [[ta Hta] Hfin].
    apply elem_of_cons in H1 as [->|H1]; apply elem_of_cons in H2 as [->|H2].
    + exists ta, ta. split; [done|]. split; [done|]. lra.
    + eapply Forall_forall in Ha; [|exact H2].
      destruct Ha as (t1 & t2 & E1 & E2 & _ & Ht & _). by exists t1, t2.
    + eapply Forall_forall in Ha; [|exact H1].
      destruct Ha as (t1 & t2 & E1 & E2 & _ & _ & Hb).
      exists t2, t1. split; [done|]. split; [done|]. by apply Hb.
    + by apply IH.
Qed.

Lemma riskPercentiles_sorted (durations : list Q) (totalTime : Q)
    (percentiles : list Q) (clippedLength : Q) :
  estimator_contract durations totalTime clippedLength ->
  Forall (fun p => (p <= 1)%Q) percentiles ->
  StronglySorted Qle percentiles ->
  exists results,
    _riskPercentiles durations totalTime percentiles clippedLength = Ok results /\
    StronglySorted entry_le results /\
    Forall (fun r => exists t, time r = Fin t) results.
Proof.
  intros Hc Hp Hs. pose proof (walk_init_count _ _ _ Hc) as Hrc.
  destruct Hc as (Hn & Hsd & HT & Hc).
  pose proof (walk_inv_init durations totalTime clippedLength Hsd Hc) as Hinv.
  unfold _riskPercentiles.
  destruct percentiles as [|p rest].
  { exists []. split; [done|]. split; constructor. }
  apply Forall_cons in Hp as [Hp Hle].
  apply StronglySorted_inv in Hs as [Hs Hfirst].
  pose proof (target_le totalTime HT _ Hp) as Hx.
  destruct (walk_runs durations totalTime clippedLength (p * totalTime) _ Hinv)
    as [s' Hw].
  destruct (walk_contract durations totalTime clippedLength Hn Hsd Hc
              _ _ _ _ Hx Hinv (or_introl Hrc) Hw)
    as (Hinv' & Hrc' & Hcdf' & _ & _).
  destruct (percentiles_loop_sorted durations totalTime clippedLength
              Hn Hsd HT Hc rest s' p Hle Hs Hfirst Hinv' Hrc' Hcdf')
    as (results & Hloop & Hsorted & Hhd & Hfin).
  destruct (risk_time_value (p * totalTime) _ Hrc') as (t & Ht & _).
  eexists. split.
  { cbn [percentiles_loop]. rewrite Hw. cbn. rewrite Hloop. cbn. done. }
  split.
  - apply Sorted_StronglySorted.
    + intros r1 r2 r3. apply entry_le_trans.
    + by constructor.
  - constructor; [by exists t|done].
Qed.

(** The entries of a result list that carries the percentiles [ps]. *)
Lemma entry_of_percentile (results : list RiskEntry) (ps : list Q) (p : Q) :
  map percentile results = ps -> p ∈ ps ->
  exists r, r ∈ results /\ percentile r = p.
Proof.
  intros <- Hp. apply list_elem_of_In, in_map_iff in Hp as (r & Hr & Hin).
  exists r. split; [by apply list_elem_of_In|done].
Qed.

(** In a list of entries in ascending order, the times follow the
    percentiles, also for the percentiles [ps] that the entries carry. *)
Lemma entries_by_percentile (results : list RiskEntry) (ps : list Q) :
  StronglySorted entry_le results ->
  Forall (fun r => exists t, time r = Fin t) results ->
  map percentile results = ps ->
  (forall r1 r2, r1 ∈ results -> r2 ∈ results ->
     (percentile r1 <= percentile r2)%Q ->
     exists t1 t2, time r1 = Fin t1 /\ time r2 = Fin t2 /\ (t1 <= t2)%Q) /\
  (forall p1 p2, p1 ∈ ps -> p2 ∈ ps -> (p1 <= p2)%Q ->
     exists r1 r2 t1 t2,
       r1 ∈ results /\ r2 ∈ results /\
       percentile r1 = p1 /\ percentile r2 = p2 /\
       time r1 = Fin t1 /\ time r2 = Fin t2 /\ (t1 <= t2)%Q).
Proof.
  intros Hsorted Hfin Hmap.
  pose proof (entries_pairwise results Hsorted Hfin) as Hpair.
  split; [done|].
  intros p1 p2 H1 H2 Hle.
  destruct (entry_of_percentile _ _ _ Hmap H1) as (r1 & Hr1 & E1).
  destruct (entry_of_percentile _ _ _ Hmap H2) as (r2 & Hr2 & E2).
  destruct (Hpair r1 r2 Hr1 Hr2) as (t1 & t2 & T1 & T2 & Ht).
  { by rewrite E1, E2. }
  by exists r1, r2, t1, t2.
Qed.


#[global] Instance Qle_transitive : Transitive Qle.
Proof. intros x y z. apply Qle_trans. Qed.

#[global] Instance Qle_total : Total Qle.
Proof.
  intros x y. destruct (Qlt_le_dec x y) as [H|H]; [left|right]; lra.
Qed.

Lemma sort_ascending_sorted (l : list Q) : StronglySorted Qle (sort_ascending l).
Proof. apply (StronglySorted_merge_sort Qle). Qed.

Lemma sort_ascending_perm (l : list Q) : sort_ascending l ≡ₚ l.
Proof. apply (merge_sort_Permutation Qle). Qed.

(** C10: [getRiskToResponsiveness] leaves in the caller's array the
    ascending rearrangement of the percentiles it was given, and the
    entries it returns carry exactly these percentiles, in that order:
    they are in ascending order of percentile also when the argument
    was not. *)
Theorem getRiskToResponsiveness_sorts (events : list ToplevelEvent)
    (startTime endTime : Q) (percentiles : list Q) :
  exists (percentiles' : list Q) (results : list RiskEntry),
    getRiskToResponsiveness events startTime endTime percentiles
      = (percentiles', Ok results) /\
    percentiles' ≡ₚ percentiles /\
    StronglySorted Qle percentiles' /\
    map percentile results = percentiles' /\
    StronglySorted Qle (map percentile results).
Proof.
  unfold getRiskToResponsiveness.
  destruct (getMainThreadTopLevelEventDurations events startTime endTime)
    as [durations clippedLength].
  destruct (riskPercentiles_total durations (endTime - startTime)
              (sort_ascending percentiles) clippedLength)
    as (results & -> & Hmap).
  exists (sort_ascending percentiles), results.
  split; [done|]. split; [apply sort_ascending_perm|].
  split; [apply sort_ascending_sorted|]. split; [done|].
  rewrite Hmap. apply sort_ascending_sorted.
Qed.

(** ** From the events of a window to the estimator *)

(** A top-level event has a duration that is not negative, and it does
    not end later than its duration after its start. *)
Definition toplevel_wf (ev : ToplevelEvent) : Prop :=
  (0 <= tl_duration ev)%Q /\ (end_ ev <= start ev + tl_duration ev)%Q.

Lemma durations_loop_contract (startTime endTime : Q)
    (events : list ToplevelEvent) (durations : list Q) (clip : Q) :
  (startTime <= endTime)%Q -> Forall toplevel_wf events ->
  Forall (Qle 0) durations ->
  ((clip == 0)%Q \/ (0 < clip)%Q /\ Exists (Qle clip) durations) ->
  let '(durations', clip') :=
    durations_loop startTime endTime events durations clip in
  Forall (Qle 0) durations' /\
  ((clip' == 0)%Q \/ (0 < clip')%Q /\ Exists (Qle clip') durations').
Proof.
  intros Hwin Hwf. revert durations clip.
  induction Hwf as [|ev events [Hd Hend] Hwf IH]; intros durations clip Hn Hc;
    cbn [durations_loop]; [done|].
  destruct (Qltb (end_ ev) startTime || Qltb endTime (start ev)) eqn:Hout;
    [by apply IH|].
  apply orb_false_iff in Hout as [H1 H2].
  apply Qltb_ge in H1. apply Qltb_ge in H2.
  destruct (Qltb (start ev) startTime) eqn:Hbefore.
  - apply Qltb_lt in Hbefore. apply IH.
    + apply Forall_app. split; [done|]. constructor; [lra|constructor].
    + destruct (Qltb endTime (end_ ev)) eqn:Hafter.
      * apply Qltb_lt in Hafter. right. split; [lra|].
        apply Exists_app. right. constructor. lra.
      * destruct Hc as [Hc|[Hc Hex]]; [by left|right].
        split; [done|]. apply Exists_app. by left.
  - apply Qltb_ge in Hbefore. apply IH.
    + apply Forall_app. split; [done|]. constructor; [lra|constructor].
    + destruct (Qltb endTime (end_ ev)) eqn:Hafter.
      * apply Qltb_lt in Hafter. right. split; [lra|].
        apply Exists_app. right. constructor. lra.
      * destruct Hc as [Hc|[Hc Hex]]; [by left|right].
        split; [done|]. apply Exists_app. by left.
Qed.

(** The durations and the clipped length that [getRiskToResponsiveness]
    passes on meet the contract of the estimator. *)
Lemma window_durations_contract (events : list ToplevelEvent)
    (startTime endTime : Q) :
  (startTime <= endTime)%Q -> Forall toplevel_wf events ->
  let '(durations, clip) :=
    getMainThreadTopLevelEventDurations events startTime endTime in
  estimator_contract durations (endTime - startTime) clip.
Proof.
  intros Hwin Hwf. unfold getMainThreadTopLevelEventDurations.
  pose proof (durations_loop_contract startTime endTime events [] 0
                Hwin Hwf ltac:(constructor) ltac:(by left)) as H.
  destruct (durations_loop startTime endTime events [] 0) as [durations clip].
  destruct H as [Hn Hc].
  pose proof (sort_ascending_perm durations) as Hperm.
  split; [|split; [apply sort_ascending_sorted|split; [lra|]]].
  - apply Forall_forall. intros d Hd. rewrite Hperm in Hd.
    eapply Forall_forall in Hn; [exact Hn|done].
  - destruct Hc as [Hc|[Hc Hex]]; [by left|right]. split; [done|].
    apply Exists_exists in Hex as (d & Hd & Hle).
    apply Exists_exists. exists d. split; [|done]. by rewrite Hperm.
Qed.


(** ** Top-level events *)

(** The overlap of [[start, end_]] with the inclusive window. *)
Definition overlaps_window (startTime endTime : num) (start end_ : Q) : bool :=
  num_leb (Fin start) endTime && num_leb startTime (Fin end_).

(** The record of a scheduler task, in milliseconds after the start of the
    navigation. *)
Definition toplevel_record (tabTrace : TraceOfTab) (e : TraceEvent)
  : ToplevelEvent :=
  let d := default 0%Q (dur e) in
  let nav := ts (navigationStartEvt tabTrace) in
  {| start := ((ts e - nav) / 1000)%Q;
     end_ := ((ts e + d - nav) / 1000)%Q;
     tl_duration := (d / 1000)%Q |}.

(** The events that make it to the list: the name is one of the two names
    of scheduler tasks, the raw duration is not zero, and the interval
    overlaps the window. *)
Definition is_toplevel (tabTrace : TraceOfTab) (startTime endTime : num)
    (e : TraceEvent) : bool :=
  (bool_decide (name e = SCHEDULABLE_TASK_TITLE) ||
   bool_decide (name e = SCHEDULABLE_TASK_TITLE_ALT)) &&
  match dur e with Some d => negb (Qeq_bool d 0) | None => false end &&
  overlaps_window startTime endTime
    (start (toplevel_record tabTrace e)) (end_ (toplevel_record tabTrace e)).

Lemma num_ltb_leb (a b : num) :
  a <> NaN -> b <> NaN -> negb (num_ltb a b) = num_leb b a.
Proof.
  destruct a, b; try done; intros _ _; cbn.
  unfold Qltb. by rewrite negb_involutive.
Qed.

Lemma toplevel_of_spec tabTrace startTime endTime e :
  startTime <> NaN -> endTime <> NaN ->
  toplevel_of tabTrace startTime endTime e =
  if is_toplevel tabTrace startTime endTime e
  then Some (toplevel_record tabTrace e) else None.
Proof.
  intros Hs He. unfold toplevel_of, is_toplevel, isScheduleableTask, truthy_dur.
  destruct (_ || _); cbn [negb andb]; [|done].
  destruct (dur e) as [d|] eqn:Hd; cbn [andb]; [|done].
  destruct (Qeq_bool d 0); cbn [negb andb]; [done|].
  unfold overlaps_window, toplevel_record. rewrite Hd. cbn [default start end_].
  rewrite <- (num_ltb_leb endTime) by done.
  rewrite <- (num_ltb_leb (Fin _) startTime) by done.
  rewrite <- negb_orb.
  destruct (_ || _); done.
Qed.

Lemma omap_filter_map {A B} (f : A -> option B) (p : A -> bool) (g : A -> B)
    (l : list A) :
  (forall a, f a = if p a then Some (g a) else None) ->
  omap f l = map g (List.filter p l).
Proof.
  intros H. induction l as [|a l IH]; [done|].
  cbn [omap list_omap List.filter]. fold (omap f l). rewrite H, IH.
  by destruct (p a).
Qed.

Lemma toplevel_sorted tabTrace (l : list TraceEvent) :
  StronglySorted (fun a b => (ts a <= ts b)%Q) l ->
  StronglySorted (fun a b => (start a <= start b)%Q)
    (map (toplevel_record tabTrace) l).
Proof.
  induction 1 as [|a l Hs IH Ha]; cbn [map]; constructor; [done|].
  apply Forall_map. eapply Forall_impl; [exact Ha|].
  intros b Hab. cbv beta in Hab. unfold toplevel_record. cbn [start]. unfold Qdiv.
  apply Qmult_le_compat_r; [lra|]. unfold Qle. cbn. lia.
Qed.

Lemma StronglySorted_filter {A} (R : relation A) (p : A -> bool) (l : list A) :
  StronglySorted R l -> StronglySorted R (List.filter p l).
Proof.
  induction 1 as [|a l Hs IH Ha]; cbn [List.filter]; [constructor|].
  destruct (p a); [|done]. constructor; [done|].
  apply Forall_forall. intros x Hx.
  apply list_elem_of_In, filter_In in Hx as [Hx _].
  eapply Forall_forall in Ha; [exact Ha|]. by apply list_elem_of_In.
Qed.

(** C8: for a main-thread event list in ascending start order and a
    window with two bounds, [getMainThreadTopLevelEvents] returns, in
    ascending start order, exactly the records of the events that bear
    one of the two names of scheduler tasks, have a nonzero raw duration
    and overlap the inclusive window; when there is no such event it
    throws, and it never returns an empty list. *)
Theorem getMainThreadTopLevelEvents_spec (tabTrace : TraceOfTab)
    (startTime endTime : num) :
  startTime <> NaN -> endTime <> NaN ->
  StronglySorted (fun a b => (ts a <= ts b)%Q) (mainThreadEvents tabTrace) ->
  let kept :=
    List.filter (is_toplevel tabTrace startTime endTime)
                (mainThreadEvents tabTrace) in
  (kept = [] ->
   getMainThreadTopLevelEvents tabTrace startTime endTime
   = Throw (JsError "Could not find any top level events")) /\
  (kept <> [] ->
   getMainThreadTopLevelEvents tabTrace startTime endTime
   = Ok (map (toplevel_record tabTrace) kept)) /\
  StronglySorted (fun a b => (start a <= start b)%Q)
    (map (toplevel_record tabTrace) kept) /\
  (forall l, getMainThreadTopLevelEvents tabTrace startTime endTime = Ok l ->
     l <> []).
Proof.
  intros Hs He Hsorted kept. unfold getMainThreadTopLevelEvents.
  rewrite (omap_filter_map _ (is_toplevel tabTrace startTime endTime)
             (toplevel_record tabTrace))
    by (intros a; by apply toplevel_of_spec).
  fold kept. split; [|split; [|split]].
  - intros ->. done.
  - intros Hne. rewrite bool_decide_eq_false_2; [done|].
    rewrite length_map. destruct kept; [done|]. cbn. lia.
  - apply toplevel_sorted. by apply StronglySorted_filter.
  - intros l. case_bool_decide as Hlen; [done|]. intros [= <-].
    intros E. rewrite E in Hlen. done.
Qed.

(** * Further properties of the calls *)

(** ** The event that names the main thread *)

(** [array.find(p)] returns the first element that satisfies [p]. *)
Definition first_with {A} (p : A -> bool) (l : list A) (x : A) : Prop :=
  exists pre post, l = pre ++ x :: post /\ p x = true /\
    Forall (fun y => p y = false) pre.

Lemma find_first {A} (p : A -> bool) (l : list A) (x : A) :
  find p l = Some x <-> first_with p l x.
Proof.
  unfold first_with. induction l as [|a l IH]; cbn [find].
  - split; [done|]. intros (pre & post & E & _). by destruct pre.
  - destruct (p a) eqn:Ha; split.
    + intros [= <-]. exists [], l. by repeat split.
    + intros ([|b pre] & post & E & Hx & Hpre); simplify_eq/=; [done|].
      apply Forall_cons in Hpre as [Hb _]. congruence.
    + intros H. apply IH in H as (pre & post & -> & Hx & Hpre).
      exists (a :: pre), post. split; [done|]. split; [done|by constructor].
    + intros ([|b pre] & post & E & Hx & Hpre); simplify_eq/=; [congruence|].
      apply Forall_cons in Hpre as [_ Hpre]. apply IH. by exists pre, post.
Qed.

Lemma find_none_all {A} (p : A -> bool) (l : list A) :
  find p l = None <-> Forall (fun y => p y = false) l.
Proof.
  induction l as [|a l IH]; cbn [find]; [by split; [constructor|]|].
  destruct (p a) eqn:Ha; split.
  - done.
  - intros H. apply Forall_cons in H as [H _]. congruence.
  - intros H. constructor; [done|by apply IH].
  - intros H. apply Forall_cons in H as [_ H]. by apply IH.
Qed.

Definition named (n : string) (e : TraceEvent) : bool :=
  bool_decide (name e = n).

(** The event that is made up from a [TracingStartedInBrowser] event. *)
Definition synthesized_event (sib : TraceEvent) (mainFrame : FrameDesc)
    (p : Z) (threadNameEvt : TraceEvent) : TraceEvent :=
  {| name := "TracingStartedInPage"; cat := cat sib; ph := ph sib;
     pid := p; tid := tid threadNameEvt; ts := ts sib; dur := dur sib;
     args := {| data := Some {| url := None; stackTrace := None;
                                frames := None;
                                page := Some (frame mainFrame) |};
                args_name := None |} |}.

(** The two ways in which [findTracingStartedEvt] comes to an event. *)
Lemma findTracingStartedEvt_cases (events : list TraceEvent) :
  (exists sib d fs mainFrame p threadNameEvt,
     find (named "TracingStartedInBrowser") events = Some sib /\
     data (args sib) = Some d /\ frames d = Some fs /\
     find (fun f => negb (truthy (fparent f))) fs = Some mainFrame /\
     processId mainFrame = Some p /\
     find (isThreadNameEvt p) events = Some threadNameEvt /\
     findTracingStartedEvt events
     = Ok (synthesized_event sib mainFrame p threadNameEvt,
           Some (frame mainFrame))) \/
  findTracingStartedEvt events
  = match find (named "TracingStartedInPage") events with
    | None => Throw LHError_NO_TRACING_STARTED
    | Some e =>
        match data (args e) with
        | None => Throw TypeError
        | Some d => Ok (e, page d)
        end
    end.
Proof.
  unfold findTracingStartedEvt.
  change (fun e : TraceEvent => bool_decide (name e = "TracingStartedInBrowser"))
    with (named "TracingStartedInBrowser").
  change (fun e : TraceEvent => bool_decide (name e = "TracingStartedInPage"))
    with (named "TracingStartedInPage").
  destruct (find (named "TracingStartedInBrowser") events) as [sib|] eqn:H1;
    cbn [mbind option_bind]; [|by right].
  destruct (data (args sib)) as [d|] eqn:H2; cbn [mbind option_bind];
    [|by right].
  destruct (frames d) as [fs|] eqn:H3; cbn [mbind option_bind]; [|by right].
  destruct (find (fun f => negb (truthy (fparent f))) fs) as [mainFrame|] eqn:H4;
    cbn [mbind option_bind]; [|by right].
  destruct (processId mainFrame) as [p|] eqn:H5; cbn [mbind option_bind];
    [|by right].
  destruct (find (isThreadNameEvt p) events) as [threadNameEvt|] eqn:H6;
    cbn [mbind option_bind]; [|by right].
  left. exists sib, d, fs, mainFrame, p, threadNameEvt. by repeat split.
Qed.

Lemma named_true (n : string) (e : TraceEvent) : named n e = true <-> name e = n.
Proof. unfold named. apply bool_decide_eq_true. Qed.

Lemma named_false (n : string) (e : TraceEvent) :
  named n e = false <-> name e <> n.
Proof. unfold named. apply bool_decide_eq_false. Qed.

(** X13: the event that [findTracingStartedEvt] returns is named
    'TracingStartedInPage' and carries argument data, whose [page] is the
    frame id that is returned with it.  It is an event of the trace, or
    it is made up from a 'TracingStartedInBrowser' event of the trace,
    whose timestamp it has, and from a 'thread_name' metadata event of
    the trace that names the thread 'CrRendererMain' in the process of
    the returned event, whose thread it has. *)
Theorem findTracingStartedEvt_result (events : list TraceEvent)
    (e : TraceEvent) (frameId : option string) :
  findTracingStartedEvt events = Ok (e, frameId) ->
  name e = "TracingStartedInPage" /\
  (exists d, data (args e) = Some d /\ frameId = page d) /\
  (e ∈ events \/
   exists sib threadNameEvt,
     sib ∈ events /\ name sib = "TracingStartedInBrowser" /\
     threadNameEvt ∈ events /\
     isThreadNameEvt (pid e) threadNameEvt = true /\
     tid e = tid threadNameEvt /\ ts e = ts sib).
Proof.
  intros H.
  destruct (findTracingStartedEvt_cases events)
    as [(sib & d & fs & mf & p & tne & H1 & _ & _ & _ & _ & H6 & Hres)|Hres];
    rewrite Hres in H.
  - injection H as <- <-. split; [done|]. split; [by eexists|]. right.
    apply find_some in H1 as [Hin1 Hn1]. apply find_some in H6 as [Hin6 Hn6].
    exists sib, tne. split; [by apply list_elem_of_In|].
    split; [by apply named_true|]. split; [by apply list_elem_of_In|]. done.
  - destruct (find (named "TracingStartedInPage") events) as [e0|] eqn:H0;
      [|done].
    destruct (data (args e0)) as [d|] eqn:Hd; [|done].
    injection H as <- <-. apply find_some in H0 as [Hin Hn].
    split; [by apply named_true|]. split; [by exists d|].
    left. by apply list_elem_of_In.
Qed.

Section Propagation.

Variable TaskGroup : Type.
Variable taskGroups_Other : TaskGroup.
Variable taskNameToGroup : string -> option TaskGroup.

(** X14: a trace without an event named 'TracingStartedInBrowser' or
    'TracingStartedInPage' makes [findTracingStartedEvt] throw
    NO_TRACING_STARTED, the empty trace for one; when the call throws
    that error, the trace has no event named 'TracingStartedInPage';
    and whatever [findTracingStartedEvt] throws is thrown by the
    reconstruction and by [getMainThreadTasks]. *)
Theorem no_tracing_started_event (events : list TraceEvent) :
  (Forall (fun e => name e <> "TracingStartedInBrowser" /\
                    name e <> "TracingStartedInPage") events ->
   findTracingStartedEvt events = Throw LHError_NO_TRACING_STARTED) /\
  (findTracingStartedEvt events = Throw LHError_NO_TRACING_STARTED ->
   Forall (fun e => name e <> "TracingStartedInPage") events) /\
  (forall err, findTracingStartedEvt events = Throw err ->
     _createTasksFromEvents TaskGroup taskGroups_Other events = Throw err /\
     getMainThreadTasks TaskGroup taskGroups_Other taskNameToGroup events
     = Throw err).
Proof.
  split; [|split].
  - intros Hnone.
    destruct (findTracingStartedEvt_cases events)
      as [(sib & d & fs & mf & p & tne & H1 & _)|Hres].
    + apply find_some in H1 as [Hin Hn]. apply named_true in Hn.
      apply list_elem_of_In in Hin.
      eapply Forall_forall in Hnone; [|exact Hin]. by destruct Hnone.
    + rewrite Hres.
      destruct (find (named "TracingStartedInPage") events) as [e0|] eqn:H0;
        [|done].
      apply find_some in H0 as [Hin Hn]. apply named_true in Hn.
      apply list_elem_of_In in Hin.
      eapply Forall_forall in Hnone; [|exact Hin]. by destruct Hnone.
  - intros H.
    destruct (findTracingStartedEvt_cases events)
      as [(sib & d & fs & mf & p & tne & _ & _ & _ & _ & _ & _ & Hres)|Hres];
      rewrite Hres in H; [done|].
    destruct (find (named "TracingStartedInPage") events) as [e0|] eqn:H0.
    + by destruct (data (args e0)).
    + apply find_none_all in H0. eapply Forall_impl; [exact H0|].
      intros e He. by apply named_false.
  - intros err H.
    assert (Hc : _createTasksFromEvents TaskGroup taskGroups_Other events
                 = Throw err).
    { unfold _createTasksFromEvents. by rewrite H. }
    split; [done|]. unfold getMainThreadTasks. by rewrite Hc.
Qed.

End Propagation.

(** X15: in a trace without a 'TracingStartedInBrowser' event,
    [findTracingStartedEvt] returns the first event that is named
    'TracingStartedInPage', with the [page] of its argument data as the
    frame id; when that event has no argument data, reading the [page]
    fails with a TypeError. *)
Theorem legacy_tracing_started (events pre post : list TraceEvent)
    (e : TraceEvent) :
  events = pre ++ e :: post ->
  Forall (fun x => name x <> "TracingStartedInBrowser") events ->
  Forall (fun x => name x <> "TracingStartedInPage") pre ->
  name e = "TracingStartedInPage" ->
  findTracingStartedEvt events =
  match data (args e) with
  | Some d => Ok (e, page d)
  | None => Throw TypeError
  end.
Proof.
  intros Hev Hnob Hpre He.
  assert (Hfind : find (named "TracingStartedInPage") events = Some e).
  { apply find_first. exists pre, post. split; [done|].
    split; [by apply named_true|].
    eapply Forall_impl; [exact Hpre|]. intros x Hx. by apply named_false. }
  destruct (findTracingStartedEvt_cases events)
    as [(sib & d & fs & mf & p & tne & H1 & _)|Hres].
  - apply find_some in H1 as [Hin Hn]. apply named_true in Hn.
    apply list_elem_of_In in Hin.
    eapply Forall_forall in Hnob; [|exact Hin]. done.
  - rewrite Hres, Hfind. by destruct (data (args e)).
Qed.

(** X16: [findTracingStartedEvt] prefers the 'TracingStartedInBrowser'
    event.  When the first event of that name lists frames, the first
    frame without a parent names a process, and the trace has a
    'thread_name' metadata event that names the thread 'CrRendererMain'
    of that process, the call returns an event named
    'TracingStartedInPage' with that process, the thread of the first
    such metadata event, and the timestamp, category, phase and duration
    of the browser event, together with the id of that frame; events
    named 'TracingStartedInPage' play no part. *)
Theorem browser_tracing_started (events : list TraceEvent)
    (sib threadNameEvt : TraceEvent) (d : ArgsData) (fs : list FrameDesc)
    (mainFrame : FrameDesc) (p : Z) :
  first_with (named "TracingStartedInBrowser") events sib ->
  data (args sib) = Some d -> frames d = Some fs ->
  first_with (fun f => negb (truthy (fparent f))) fs mainFrame ->
  processId mainFrame = Some p ->
  first_with (isThreadNameEvt p) events threadNameEvt ->
  exists e,
    findTracingStartedEvt events = Ok (e, Some (frame mainFrame)) /\
    name e = "TracingStartedInPage" /\ pid e = p /\
    tid e = tid threadNameEvt /\ ts e = ts sib /\ cat e = cat sib /\
    ph e = ph sib /\ dur e = dur sib.
Proof.
  intros H1 H2 H3 H4 H5 H6.
  apply find_first in H1, H4, H6.
  exists (synthesized_event sib mainFrame p threadNameEvt).
  split; [|done]. unfold findTracingStartedEvt.
  change (fun e : TraceEvent => bool_decide (name e = "TracingStartedInBrowser"))
    with (named "TracingStartedInBrowser").
  rewrite H1. cbn [mbind option_bind]. rewrite H2. cbn [mbind option_bind].
  rewrite H3. cbn [mbind option_bind]. rewrite H4. cbn [mbind option_bind].
  rewrite H5. cbn [mbind option_bind]. rewrite H6. done.
Qed.

(** ** The estimator on every input *)

(** A time that is not below the base latency: a number from 16 on,
    [Infinity], or [NaN]. *)
Definition at_least_base (x : num) : Prop :=
  match x with
  | NaN | PosInf => True
  | Fin t => (BASE_RESPONSE_LATENCY <= t)%Q
  | NegInf => False
  end.

Lemma risk_time_base (x : Q) (s : Walk) : at_least_base (risk_time x s).
Proof.
  unfold risk_time.
  destruct (num_div (Fin (x - completedTime s))
                    (Fin (inject_Z (remainingCount s)))) as [| |q|];
    cbn; try done.
  destruct (Qle_bool 0 q) eqn:E; cbn; unfold BASE_RESPONSE_LATENCY.
  - apply Qle_bool_iff in E. lra.
  - lra.
Qed.

Lemma percentiles_loop_times (durations : list Q) (totalTime : Q)
    (percentiles : list Q) (s : Walk) (results : list RiskEntry) :
  percentiles_loop durations totalTime percentiles s = Some results ->
  Forall (fun r => exists s', time r = risk_time (percentile r * totalTime) s')
         results.
Proof.
  revert s results. induction percentiles as [|p rest IH]; intros s results;
    cbn [percentiles_loop].
  - intros [= <-]. constructor.
  - destruct (walk _ durations (p * totalTime) s) as [s'|]; cbn; [|done].
    destruct (percentiles_loop durations totalTime rest s') as [rs|] eqn:E;
      cbn; [|done].
    intros [= <-]. constructor; [by exists s'|by eapply IH].
Qed.

(** X17: on every input, [_riskPercentiles] returns one entry for each
    percentile it is given, in the same order and with that percentile,
    and no entry has a time below the base latency of 16: a time is a
    number from 16 on, or [Infinity], or [NaN]. *)
Theorem riskPercentiles_never_below_base (durations : list Q) (totalTime : Q)
    (percentiles : list Q) (clippedLength : Q) :
  exists results,
    _riskPercentiles durations totalTime percentiles clippedLength = Ok results /\
    map percentile results = percentiles /\
    Forall (fun r => at_least_base (time r)) results.
Proof.
  destruct (riskPercentiles_total durations totalTime percentiles clippedLength)
    as (results & Hrun & Hmap).
  exists results. split; [done|]. split; [done|].
  unfold _riskPercentiles in Hrun.
  destruct (percentiles_loop durations totalTime percentiles
              (walk_init durations totalTime clippedLength)) as [rs|] eqn:E;
    [|done].
  injection Hrun as ->. apply percentiles_loop_times in E.
  eapply Forall_impl; [exact E|]. intros r [s' ->]. apply risk_time_base.
Qed.

(** ** The estimator within its contract *)

Section Estimates.

Variable durations : list Q.
Variables totalTime clip : Q.

Hypothesis durations_nonneg : Forall (Qle 0) durations.
Hypothesis durations_sorted : StronglySorted Qle durations.
Hypothesis totalTime_nonneg : (0 <= totalTime)%Q.
Hypothesis clip_in_a_duration :
  (clip == 0)%Q \/ (0 < clip)%Q /\ Exists (Qle clip) durations.

Local Abbreviation n := (length durations).
Local Abbreviation inv := (walk_inv durations totalTime clip).

(** What is pushed for each percentile, in whatever order the
    percentiles come. *)
Lemma percentiles_loop_exit (ps : list Q) (s : Walk) :
  Forall (fun p => (p <= 1)%Q) ps -> inv s -> (1 <= remainingCount s)%Z ->
  exists results,
    percentiles_loop durations totalTime ps s = Some results /\
    Forall2 (fun p r => percentile r = p /\
               exists s', inv s' /\ (1 <= remainingCount s')%Z /\
                 (p * totalTime <= cdfTime s')%Q /\
                 time r = risk_time (p * totalTime) s')
            ps results.
Proof.
  revert s. induction ps as [|p rest IH]; intros s Hle Hinv Hrc.
  - exists []. split; [done|constructor].
  - apply Forall_cons in Hle as [Hp Hle].
    pose proof (target_le totalTime totalTime_nonneg _ Hp) as Hx.
    destruct (walk_runs durations totalTime clip (p * totalTime) _ Hinv)
      as [s' Hw].
    destruct (walk_contract durations totalTime clip durations_nonneg
                durations_sorted clip_in_a_duration _ _ _ _ Hx Hinv
                (or_introl Hrc) Hw)
      as (Hinv' & Hrc' & Hcdf' & _ & _).
    destruct (IH s' Hle Hinv' Hrc') as (results & Hloop & Hall).
    eexists. split.
    + cbn [percentiles_loop]. rewrite Hw. cbn. rewrite Hloop. cbn. done.
    + constructor; [|done]. split; [done|]. by exists s'.
Qed.

End Estimates.


(** ** The durations of a window *)

(** The events that the loop over [topLevelEvents] does not skip: those
    that overlap the inclusive window. *)
Definition in_window (startTime endTime : Q) (ev : ToplevelEvent) : bool :=
  negb (Qltb (end_ ev) startTime || Qltb endTime (start ev)).

(** The start of an event within the window, and its duration from
    there. *)
Definition start_in_window (startTime : Q) (ev : ToplevelEvent) : Q :=
  if Qltb (start ev) startTime then startTime else start ev.

Definition duration_in_window (startTime : Q) (ev : ToplevelEvent) : Q :=
  if Qltb (start ev) startTime then (end_ ev - startTime)%Q
  else tl_duration ev.

(** The events that go on after the end of the window. *)
Definition crosses_end (startTime endTime : Q) (ev : ToplevelEvent) : bool :=
  in_window startTime endTime ev && Qltb endTime (end_ ev).

Lemma durations_loop_step (startTime endTime : Q) (ev : ToplevelEvent)
    (rest : list ToplevelEvent) (durations : list Q) (clip : Q) :
  durations_loop startTime endTime (ev :: rest) durations clip =
  if in_window startTime endTime ev
  then durations_loop startTime endTime rest
         (durations ++ [duration_in_window startTime ev])
         (if Qltb endTime (end_ ev)
          then (duration_in_window startTime ev
                - (endTime - start_in_window startTime ev))%Q
          else clip)
  else durations_loop startTime endTime rest durations clip.
Proof.
  cbn [durations_loop]. unfold in_window, duration_in_window, start_in_window.
  destruct (Qltb (end_ ev) startTime || Qltb endTime (start ev)); cbn [negb];
    [done|].
  by destruct (Qltb (start ev) startTime).
Qed.

Lemma durations_loop_durations (startTime endTime : Q)
    (events : list ToplevelEvent) (durations : list Q) (clip : Q) :
  (durations_loop startTime endTime events durations clip).1 =
  durations ++ map (duration_in_window startTime)
                   (List.filter (in_window startTime endTime) events).
Proof.
  revert durations clip. induction events as [|ev rest IH]; intros durations clip.
  - cbn. by rewrite app_nil_r.
  - rewrite durations_loop_step. cbn [List.filter].
    destruct (in_window startTime endTime ev); [|apply IH].
    rewrite IH. cbn [map]. by rewrite <- app_assoc.
Qed.

Lemma durations_loop_no_cross (startTime endTime : Q)
    (events : list ToplevelEvent) (durations : list Q) (clip : Q) :
  Forall (fun ev => crosses_end startTime endTime ev = false) events ->
  (durations_loop startTime endTime events durations clip).2 = clip.
Proof.
  intros Hno. revert durations clip.
  induction Hno as [|ev rest Hev Hno IH]; intros durations clip; [done|].
  rewrite durations_loop_step. unfold crosses_end in Hev.
  destruct (in_window startTime endTime ev); [|apply IH].
  cbn [andb] in Hev. rewrite Hev. apply IH.
Qed.

Lemma durations_loop_last_cross (startTime endTime : Q)
    (pre post : list ToplevelEvent) (ev : ToplevelEvent)
    (durations : list Q) (clip : Q) :
  crosses_end startTime endTime ev = true ->
  Forall (fun x => crosses_end startTime endTime x = false) post ->
  (durations_loop startTime endTime (pre ++ ev :: post) durations clip).2 =
  (duration_in_window startTime ev
   - (endTime - start_in_window startTime ev))%Q.
Proof.
  intros Hev Hpost. revert durations clip.
  induction pre as [|a pre IH]; intros durations clip; cbn [app].
  - rewrite durations_loop_step. unfold crosses_end in Hev.
    apply andb_true_iff in Hev as [-> ->]. by apply durations_loop_no_cross.
  - rewrite durations_loop_step.
    destruct (in_window startTime endTime a); apply IH.
Qed.

(** X21: [getMainThreadTopLevelEventDurations] returns, in ascending
    order, one duration for each event that overlaps the inclusive
    window and none for the others: the duration of the event, or what
    is left of it from the start of the window when the event starts
    before the window.  The part of an event after the end of the window
    is not cut off. *)
Theorem window_durations (topLevelEvents : list ToplevelEvent)
    (startTime endTime : Q) :
  let durations :=
    (getMainThreadTopLevelEventDurations topLevelEvents startTime endTime).1 in
  StronglySorted Qle durations /\
  durations ≡ₚ map (duration_in_window startTime)
                   (List.filter (in_window startTime endTime) topLevelEvents).
Proof.
  unfold getMainThreadTopLevelEventDurations.
  pose proof (durations_loop_durations startTime endTime topLevelEvents [] 0)
    as Hd.
  destruct (durations_loop startTime endTime topLevelEvents [] 0)
    as [durations clip].
  cbn [fst] in *. subst durations. split.
  - apply sort_ascending_sorted.
  - apply sort_ascending_perm.
Qed.

(** X22: the clipped length that [getMainThreadTopLevelEventDurations]
    returns is 0 when no event of the window goes on after the end of
    the window; otherwise it is set by the last event in the list that
    does: it is the duration of that event within the window, less the
    time from its start within the window to the end of the window. *)
Theorem window_clipped_length (topLevelEvents : list ToplevelEvent)
    (startTime endTime : Q) :
  let clippedLength :=
    (getMainThreadTopLevelEventDurations topLevelEvents startTime endTime).2 in
  (Forall (fun ev => crosses_end startTime endTime ev = false) topLevelEvents ->
   clippedLength = 0%Q) /\
  (forall pre ev post,
     topLevelEvents = pre ++ ev :: post ->
     crosses_end startTime endTime ev = true ->
     Forall (fun x => crosses_end startTime endTime x = false) post ->
     clippedLength
     = (duration_in_window startTime ev
        - (endTime - start_in_window startTime ev))%Q).
Proof.
  unfold getMainThreadTopLevelEventDurations. split.
  - intros Hno.
    pose proof (durations_loop_no_cross startTime endTime topLevelEvents [] 0
                  Hno) as Hc.
    by destruct (durations_loop startTime endTime topLevelEvents [] 0).
  - intros pre ev post -> Hev Hpost.
    pose proof (durations_loop_last_cross startTime endTime pre post ev [] 0
                  Hev Hpost) as Hc.
    by destruct (durations_loop startTime endTime (pre ++ ev :: post) [] 0).
Qed.


(** ** The call with the default percentiles *)

(** X24: called without percentiles, [getRiskToResponsiveness] returns
    on every input five entries, for the percentiles 0.5, 0.75, 0.9,
    0.99 and 1 in that order, and none of them has a time below the base
    latency of 16. *)
Theorem default_percentiles (topLevelEvents : list ToplevelEvent)
    (startTime endTime : Q) :
  exists r50 r75 r90 r99 r100 : RiskEntry,
    getRiskToResponsiveness_default topLevelEvents startTime endTime
    = Ok [r50; r75; r90; r99; r100] /\
    map percentile [r50; r75; r90; r99; r100] = [0.5; 0.75; 0.9; 0.99; 1]%Q /\
    Forall (fun r => at_least_base (time r)) [r50; r75; r90; r99; r100].
Proof.
  unfold getRiskToResponsiveness_default, getRiskToResponsiveness.
  change (sort_ascending [0.5; 0.75; 0.9; 0.99; 1]%Q)
    with [0.5; 0.75; 0.9; 0.99; 1]%Q.
  destruct (getMainThreadTopLevelEventDurations topLevelEvents
              startTime endTime) as [durations clip].
  cbn [snd].
  destruct (riskPercentiles_total durations (endTime - startTime)
              [0.5; 0.75; 0.9; 0.99; 1]%Q clip) as (results & Hrun & Hmap).
  assert (Hbase : Forall (fun r => at_least_base (time r)) results).
  { unfold _riskPercentiles in Hrun.
    destruct (percentiles_loop durations (endTime - startTime)
                [0.5; 0.75; 0.9; 0.99; 1]%Q
                (walk_init durations (endTime - startTime) clip))
      as [rs|] eqn:E; [|done].
    injection Hrun as ->. apply percentiles_loop_times in E.
    eapply Forall_impl; [exact E|]. intros r [s' ->]. apply risk_time_base. }
  destruct results as [|r50 [|r75 [|r90 [|r99 [|r100 [|? ?]]]]]]; try done.
  by exists r50, r75, r90, r99, r100.
Qed.

(** * Examples *)

(** The events of the examples: a bootstrap event that names process 1
    and thread 1, and events on that thread. *)
Definition no_args : Args := {| data := None; args_name := None |}.

Definition ex_started : TraceEvent :=
  {| name := "TracingStartedInPage"; cat := "disabled-by-default-devtools.timeline";
     ph := "I"; pid := 1; tid := 1; ts := 0; dur := None;
     args := {| data := Some {| url := None; stackTrace := None;
                                frames := None; page := Some "frame1" |};
                args_name := None |} |}.

Definition ex_event (n p : string) (t : Q) (d : option Q) (a : Args)
  : TraceEvent :=
  {| name := n; cat := "toplevel"; ph := p; pid := 1; tid := 1;
     ts := t; dur := d; args := a |}.

Definition ex_table (n : string) : option string :=
  if bool_decide (n = "ParseHTML") then Some "Parse HTML" else None.

Definition ex_tasks (events : list TraceEvent) :=
  _createTasksFromEvents string "Other" events.

Definition ex_main (events : list TraceEvent) :=
  getMainThreadTasks string "Other" ex_table events.

Ltac ascending :=
  repeat first
    [ apply SSorted_nil | apply SSorted_cons
    | apply List.Forall_nil | apply List.Forall_cons
    | (unfold Qle; simpl; lia) ].

(** ** The reconstruction *)

(** A Begin task that holds a Complete task and is closed at 10. *)
Definition ex_nested : list TraceEvent :=
  [ex_started; ex_event "a" "B" 0 None no_args;
   ex_event "b" "X" 2 (Some 3%Q) no_args; ex_event "a" "E" 10 None no_args].

Lemma children_nested_in_parents_witness :
  exists tasks tj tp,
    ex_tasks ex_nested = Ok tasks /\
    tasks !! 1 = Some tj /\ tasks !! 0 = Some tp /\
    exists sj sp : Q,
      startTime tj = Fin sj /\ startTime tp = Fin sp /\ (sp <= sj)%Q /\
      (ph (event tp) = "X" \/ ph (event tp) = "B") /\
      (ph (event tp) = "X" ->
       exists ep, endTime tp = Fin ep /\ (sj < ep)%Q) /\
      (ph (event tp) = "B" -> forall ep, endTime tp = Fin ep ->
       (sj <= ep)%Q /\ exists ej, endTime tj = Fin ej /\ (ej <= ep)%Q).
Proof.
  eexists _, _, _. split; [vm_compute; reflexivity|].
  split; [reflexivity|]. split; [reflexivity|].
  apply (children_nested_in_parents string "Other" ex_nested _
           ltac:(unfold ex_nested; ascending)
           ltac:(vm_compute; reflexivity) 1 _ 0 _ eq_refl eq_refl eq_refl).
Defined.

(** The claim of the specification on the intervals of a forest. *)
Definition interval_inside {TaskGroup} (child parent_ : TaskNode TaskGroup)
  : Prop :=
  num_leb (startTime parent_) (startTime child) = true /\
  num_leb (endTime child) (endTime parent_) = true.

Definition forest_nested {TaskGroup} (tasks : list (TaskNode TaskGroup))
  : Prop :=
  forall j tj p tp,
    tasks !! j = Some tj -> parent tj = Some p -> tasks !! p = Some tp ->
    interval_inside tj tp.

(** A Complete event from 0 to 10, and within it the start of a Complete
    event from 5 to 25. *)
Definition ex_overlong : list TraceEvent :=
  [ex_started; ex_event "a" "X" 0 (Some 10%Q) no_args;
   ex_event "b" "X" 5 (Some 20%Q) no_args].

Lemma child_outlives_complete_parent :
  exists tasks, ex_tasks ex_overlong = Ok tasks /\ ~ forest_nested tasks.
Proof.
  eexists. split; [vm_compute; reflexivity|]. intros H.
  destruct (H 1 _ 0 _ eq_refl eq_refl eq_refl) as [_ Hend].
  vm_compute in Hend. discriminate.
Qed.

(** A Complete task is open when an End event arrives. *)
Definition ex_bad_end : list TraceEvent :=
  [ex_started; ex_event "a" "X" 0 (Some 10%Q) no_args;
   ex_event "b" "E" 5 None no_args].

Lemma end_event_is_fatal_witness :
  ex_tasks ex_bad_end = Throw (JsError "Fatal trace logic error") /\
  ex_main ex_bad_end = Throw (JsError "Fatal trace logic error").
Proof.
  eapply (end_event_is_fatal string "Other" ex_table ex_bad_end
            [ex_started; ex_event "a" "X" 0 (Some 10%Q) no_args] []
            ex_started (ex_event "b" "E" 5 None no_args)).
  - vm_compute. reflexivity.
  - reflexivity.
  - vm_compute. reflexivity.
  - repeat split. right. right. reflexivity.
  - reflexivity.
  - right. eexists 0, _. split; [|split].
    + eapply ascends_stop; [reflexivity|]. vm_compute. reflexivity.
    + reflexivity.
    + cbn. discriminate.
Defined.

(** A Begin event named [a], then an End event named [b]. *)
Definition ex_unrelated_end : list TraceEvent :=
  [ex_started; ex_event "a" "B" 0 None no_args;
   ex_event "b" "E" 10 None no_args].

Lemma unrelated_end_closes_begin :
  exists t,
    ex_tasks ex_unrelated_end = Ok [t] /\
    name (event t) = "a" /\ endTime t = Fin 10 /\
    forall err, ex_tasks ex_unrelated_end <> Throw err.
Proof.
  eexists. split; [vm_compute; reflexivity|].
  split; [reflexivity|]. split; [reflexivity|].
  intros err. vm_compute. discriminate.
Qed.

Lemma end_closes_latest_begin_witness :
  exists (tasks1 : list (TaskNode string)) (t : TaskNode string),
    handle_event string "Other" ex_started ([], None)
      (ex_event "a" "B" 0 None no_args) = Ok (tasks1, Some 0) /\
    tasks1 !! 0 = Some t /\ event t = ex_event "a" "B" 0 None no_args /\
    endTime t = NaN /\
    handle_event string "Other" ex_started (tasks1, Some 0)
      (ex_event "b" "E" 10 None no_args)
    = Ok (<[0 := set_endTime string (Fin 10) t]> tasks1, parent t).
Proof.
  apply (end_closes_latest_begin string "Other" ex_started
           (ex_event "a" "B" 0 None no_args)
           (ex_event "b" "E" 10 None no_args) [] None).
  - split; [apply wf_store_nil|]. intros c H. discriminate H.
  - repeat split. right. left. reflexivity.
  - reflexivity.
  - repeat split. right. right. reflexivity.
  - reflexivity.
Defined.

(** ** The metric passes *)

(** Times in microseconds: a Begin task from 1000 to 10000 that holds a
    Complete task from 2000 to 5000. *)
Definition ex_run : list TraceEvent :=
  [ex_started; ex_event "a" "B" 1000 None no_args;
   ex_event "ParseHTML" "X" 2000 (Some 3000%Q) no_args;
   ex_event "a" "E" 10000 None no_args].

(** A Begin event that no End event closes. *)
Definition ex_unfinished : list TraceEvent :=
  [ex_started; ex_event "a" "B" 1000 None no_args].

Lemma getMainThreadTasks_timing_witness :
  exists root child root' child' open_ : TaskNode string,
    after_metrics_pass string "Other" ex_table ex_run = Ok [root; child] /\
    ex_main ex_run = Ok [root'; child'] /\
    children root = [1] /\ children child = [] /\
    duration child = Fin 3000 /\ selfTime child = Fin 3000 /\
    duration root = Fin 9000 /\ selfTime root = Fin 6000 /\
    num_eq (duration root') (Fin 9) /\ num_eq (selfTime root') (Fin 6) /\
    num_eq (duration child') (Fin 3) /\ num_eq (selfTime child') (Fin 3) /\
    (duration root = num_sub (endTime root) (startTime root) /\
     selfTime root
     = num_sub (duration root)
         (added_to (Fin 0)
            (duration_of string [root; child] <$> children root))) /\
    (isFinite (duration root') = true /\ isFinite (selfTime root') = true /\
     exists t, [root; child] !! 0 = Some t /\ children root' = children t /\
       isFinite (duration t) = true /\ isFinite (selfTime t) = true /\
       duration root' = num_div (duration t) (Fin 1000) /\
       selfTime root' = num_div (selfTime t) (Fin 1000)) /\
    after_metrics_pass string "Other" ex_table ex_unfinished = Ok [open_] /\
    duration open_ = NaN /\
    ex_main ex_unfinished = Throw (JsError "Invalid task timing data").
Proof.
  destruct (getMainThreadTasks_timing string "Other" ex_table ex_run)
    as (Hafter & Hret & _ & _).
  destruct (getMainThreadTasks_timing string "Other" ex_table ex_unfinished)
    as (_ & _ & Hthrow & _).
  destruct (Hret _ ltac:(vm_compute; reflexivity)) as (h & Hh & _ & Hall).
  vm_compute in Hh. injection Hh as <-.
  eexists _, _, _, _, _.
  split; [vm_compute; reflexivity|]. split; [vm_compute; reflexivity|].
  do 6 (split; [reflexivity|]).
  do 4 (split; [vm_compute; reflexivity|]).
  split; [exact (Hafter _ ltac:(vm_compute; reflexivity) 0 _ eq_refl)|].
  split; [exact (Hall 0 _ eq_refl)|].
  split; [vm_compute; reflexivity|]. split; [reflexivity|].
  apply (Hthrow _ ltac:(vm_compute; reflexivity)).
  eexists 0, _. split; [reflexivity|]. left. reflexivity.
Defined.

(** Times as they come in a trace: a Complete task from 1000 to 1900,
    and within it a Complete task from 1100 to 1400. *)
Definition ex_rounded : list TraceEvent :=
  [ex_started; ex_event "a" "X" 1000 (Some 900%Q) no_args;
   ex_event "b" "X" 1100 (Some 300%Q) no_args].

(** The claim of the specification on a returned task, with the numbers
    of the program: [duration === endTime - startTime], and
    [selfTime === duration - sum] for the durations of the children. *)
Definition duration_is_difference (t : Doubles.Times) : bool :=
  Doubles.same (Doubles.duration t)
    (PrimFloat.sub (Doubles.endTime t) (Doubles.startTime t)).

Definition selfTime_is_rest (t : Doubles.Times) (children : list Doubles.Times)
  : bool :=
  Doubles.same (Doubles.selfTime t)
    (PrimFloat.sub (Doubles.duration t)
       (fold_left (fun sum c => PrimFloat.add sum (Doubles.duration c))
          children PrimFloat.zero)).

(** The returned child has [startTime] 0.1, [endTime] 0.4 and [duration]
    0.3, and 0.4 - 0.1 is 0.30000000000000004, the next double after 0.3;
    the returned root has [duration] 0.9 and [selfTime] 0.6, and
    0.9 - 0.3 is 0.6000000000000001, the next double after 0.6. *)
Lemma returned_times_are_rounded :
  exists (r c : TaskNode string) (root child : Doubles.Times),
    ex_main ex_rounded = Ok [r; c] /\
    children r = [1] /\ children c = [] /\
    Doubles.getMainThreadTasks string "Other" ex_rounded = Ok [root; child] /\
    Doubles.startTime child = Doubles.of_Q 0.1 /\
    Doubles.endTime child = Doubles.of_Q 0.4 /\
    Doubles.duration child = Doubles.of_Q 0.3 /\
    PrimFloat.sub (Doubles.endTime child) (Doubles.startTime child)
    = PrimFloat.next_up (Doubles.of_Q 0.3) /\
    duration_is_difference child = false /\
    Doubles.duration root = Doubles.of_Q 0.9 /\
    Doubles.selfTime root = Doubles.of_Q 0.6 /\
    PrimFloat.sub (Doubles.duration root) (Doubles.duration child)
    = PrimFloat.next_up (Doubles.of_Q 0.6) /\
    selfTime_is_rest root [child] = false.
Proof.
  eexists _, _, _, _. split; [vm_compute; reflexivity|].
  split; [reflexivity|]. split; [reflexivity|].
  split; [vm_compute; reflexivity|].
  repeat split; vm_compute; reflexivity.
Qed.

Lemma getMainThreadTasks_rescale_witness :
  exists (tasks h : list (TaskNode string)) (firstTs : Q),
    ex_main ex_run = Ok tasks /\
    after_metrics_pass string "Other" ex_table ex_run = Ok h /\
    match h !! 0 with
    | Some first => startTime first = Fin firstTs
    | None => firstTs = 0%Q
    end /\
    length tasks = length h /\
    forall i t, h !! i = Some t ->
      exists (t' : TaskNode string) (s e d self : Q),
        tasks !! i = Some t' /\
        startTime t = Fin s /\ endTime t = Fin e /\
        duration t = Fin d /\ selfTime t = Fin self /\
        startTime t' = Fin ((s - firstTs) / 1000) /\
        endTime t' = Fin ((e - firstTs) / 1000) /\
        duration t' = Fin (d / 1000) /\
        selfTime t' = Fin (self / 1000) /\
        event t' = event t /\ parent t' = parent t /\
        children t' = children t /\ group t' = group t /\
        attributableURL t' = attributableURL t.
Proof.
  eexists. 
  destruct (getMainThreadTasks_rescale string "Other" ex_table ex_run _
              ltac:(vm_compute; reflexivity)) as (h & firstTs & H).
  exists h, firstTs. split; [vm_compute; reflexivity|]. exact H.
Defined.

Definition ex_data (u : option string) (frames_ : option (list StackFrame))
  : Args :=
  {| data := Some {| url := u; stackTrace := frames_; frames := None;
                     page := None |};
     args_name := None |}.

(** A task whose call-stack starts with a frame without URL, and within
    it a task that names a URL. *)
Definition ex_urls : list TraceEvent :=
  [ex_started;
   ex_event "a" "X" 0 (Some 10%Q) (ex_data None (Some [{| sf_url := Some "" |}]));
   ex_event "b" "X" 1 (Some 2%Q) (ex_data (Some "http://a.example/") None)].

(** A task whose event has the empty string as its URL, and a call-stack
    whose first frame has a URL. *)
Definition ex_empty_url : list TraceEvent :=
  [ex_started;
   ex_event "a" "X" 0 (Some 10%Q)
     (ex_data (Some "") (Some [{| sf_url := Some "http://frame.example/" |}]))].

(** The claim of the specification, where a URL is present when it is
    defined. *)
Definition claimed_candidate_URL (e : TraceEvent) : option string :=
  match data (args e) with
  | None => None
  | Some d =>
      match url d with
      | Some u => Some u
      | None =>
          match stackTrace d with
          | Some (f :: _) => sf_url f
          | _ => None
          end
      end
  end.

Definition claimed_URL (parentURL : option string) (e : TraceEvent)
  : option string :=
  match parentURL with
  | Some u => Some u
  | None => claimed_candidate_URL e
  end.

(** The empty string counts as absent at both places: the URL [""] that
    a parent has resolved is not passed on to a child with a URL of its
    own, and the URL [""] of an event gives way to the URL of the first
    frame of the call-stack. *)
Lemma empty_url_counts_as_absent :
  (exists tp tc,
     ex_main ex_urls = Ok [tp; tc] /\ parent tc = Some 0 /\
     attributableURL tp = Some "" /\
     attributableURL tc = Some "http://a.example/" /\
     attributableURL tc <> claimed_URL (attributableURL tp) (event tc)) /\
  (exists t,
     ex_main ex_empty_url = Ok [t] /\ parent t = None /\
     claimed_candidate_URL (event t) = Some "" /\
     attributableURL t = Some "http://frame.example/" /\
     attributableURL t <> claimed_URL None (event t)).
Proof.
  split.
  - eexists _, _. split; [vm_compute; reflexivity|].
    repeat (split; [reflexivity|]). discriminate.
  - eexists. split; [vm_compute; reflexivity|].
    repeat (split; [reflexivity|]). discriminate.
Qed.

(** A task with a URL of its own and a call-stack, within it a task of
    a known name with another URL, within that one a task without data;
    then a task that has a call-stack only. *)
Definition ex_attribution : list TraceEvent :=
  [ex_started;
   ex_event "a" "X" 0 (Some 100%Q)
     (ex_data (Some "http://a.example/")
        (Some [{| sf_url := Some "http://frame.example/" |}]));
   ex_event "ParseHTML" "X" 10 (Some 20%Q)
     (ex_data (Some "http://b.example/") None);
   ex_event "c" "X" 12 (Some 5%Q) no_args;
   ex_event "d" "X" 200 (Some 10%Q)
     (ex_data None (Some [{| sf_url := Some "http://frame.example/" |}]))].

Lemma attribution_resolved_witness :
  exists t0 t1 t2 t3 : TaskNode string,
    ex_main ex_attribution = Ok [t0; t1; t2; t3] /\
    parent t0 = None /\ parent t1 = Some 0 /\ parent t2 = Some 1 /\
    parent t3 = None /\
    attributableURL t0 = Some "http://a.example/" /\ group t0 = "Other" /\
    attributableURL t1 = Some "http://a.example/" /\ group t1 = "Parse HTML" /\
    attributableURL t2 = Some "http://a.example/" /\ group t2 = "Parse HTML" /\
    attributableURL t3 = Some "http://frame.example/" /\ group t3 = "Other" /\
    (attributableURL t0 = own_candidate_URL (event t0) /\
     group t0 = default "Other" (ex_table (name (event t0)))) /\
    (exists tp, [t0; t1; t2; t3] !! 0 = Some tp /\
       attributableURL t1
       = inherited_URL (attributableURL tp) (own_candidate_URL (event t1)) /\
       group t1 = default (group tp) (ex_table (name (event t1)))) /\
    (exists tp, [t0; t1; t2; t3] !! 1 = Some tp /\
       attributableURL t2
       = inherited_URL (attributableURL tp) (own_candidate_URL (event t2)) /\
       group t2 = default (group tp) (ex_table (name (event t2)))).
Proof.
  pose proof (attribution_resolved string "Other" ex_table ex_attribution)
    as Hres.
  cbv zeta in Hres. destruct Hres as [_ Hres].
  eexists _, _, _, _. split; [vm_compute; reflexivity|].
  do 12 (split; [reflexivity|]).
  specialize (Hres _ ltac:(vm_compute; reflexivity)).
  split; [exact (Hres 0 _ eq_refl)|].
  split; [exact (Hres 1 _ eq_refl)|exact (Hres 2 _ eq_refl)].
Defined.

(** ** Top-level events and the estimator *)

Definition ex_tab : TraceOfTab :=
  {| mainThreadEvents :=
       [ex_event SCHEDULABLE_TASK_TITLE "X" 1000 (Some 5000%Q) no_args;
        ex_event "other" "X" 2000 (Some 1000%Q) no_args;
        ex_event SCHEDULABLE_TASK_TITLE_ALT "X" 9000 (Some 2000%Q) no_args];
     navigationStartEvt := ex_started |}.

Lemma getMainThreadTopLevelEvents_witness :
  getMainThreadTopLevelEvents ex_tab (Fin 0) PosInf
  = Ok (map (toplevel_record ex_tab)
          (List.filter (is_toplevel ex_tab (Fin 0) PosInf)
             (mainThreadEvents ex_tab))).
Proof.
  apply (getMainThreadTopLevelEvents_spec ex_tab (Fin 0) PosInf
           ltac:(discriminate) ltac:(discriminate)
           ltac:(unfold ex_tab; cbn [mainThreadEvents]; ascending)).
  vm_compute. discriminate.
Defined.



(** ** Further examples: the tasks *)

Lemma tasks_follow_events_witness :
  exists tasks,
    ex_main ex_run = Ok tasks /\
    event <$> tasks = List.filter (opens_task ex_started) ex_run.
Proof.
  eexists. split; [vm_compute; reflexivity|].
  apply (proj2 (tasks_follow_events string "Other" ex_table ex_run ex_started
                  (Some "frame1") ltac:(vm_compute; reflexivity)) _
           ltac:(vm_compute; reflexivity)).
Defined.

Lemma task_times_from_events_witness :
  exists first t : TaskNode string,
    ex_main ex_run = Ok [first; t] /\
    ts (event first) = 1000%Q /\ ts (event t) = 2000%Q /\
    dur (event t) = Some 3000%Q /\
    num_eq (startTime t) (Fin 1) /\ num_eq (endTime t) (Fin 4) /\
    num_eq (duration t) (Fin 3) /\
    (ph (event t) = "X" \/ ph (event t) = "B") /\
    startTime t = Fin ((ts (event t) - ts (event first)) / 1000) /\
    (ph (event t) = "X" ->
     endTime t
     = Fin ((ts (event t) + dur_or_0 (event t) - ts (event first)) / 1000) /\
     duration t
     = Fin ((ts (event t) + dur_or_0 (event t) - ts (event t)) / 1000)).
Proof.
  eexists _, _. split; [vm_compute; reflexivity|].
  do 3 (split; [reflexivity|]).
  do 3 (split; [vm_compute; reflexivity|]).
  apply (task_times_from_events string "Other" ex_table ex_run _ _
           ltac:(vm_compute; reflexivity) eq_refl 1 _ eq_refl).
Defined.

(** A Begin task that is still open at the end of the trace, with a
    Complete task in it. *)
Definition ex_open : list TraceEvent :=
  [ex_started; ex_event "a" "B" 0 None no_args;
   ex_event "b" "X" 1 (Some 2%Q) no_args].

Lemma open_begin_is_invalid_witness :
  ex_main ex_open = Throw (JsError "Invalid task timing data").
Proof.
  eapply (proj1 (open_begin_is_invalid string "Other" ex_table ex_open
                   ex_started (Some "frame1") _ _
                   ltac:(vm_compute; reflexivity)
                   ltac:(vm_compute; reflexivity))).
  eexists 0, _. split; [|split; [reflexivity|reflexivity]].
  apply on_path_up. apply on_path_here.
Defined.

Lemma tasks_form_a_forest_witness :
  exists tasks, ex_main ex_run = Ok tasks /\ forest string tasks.
Proof.
  eexists. split; [vm_compute; reflexivity|].
  apply (tasks_form_a_forest string "Other" ex_table ex_run).
  right. vm_compute. reflexivity.
Defined.

(** The trace [ex_run] with an event of another thread in it. *)
Definition ex_noise : list TraceEvent :=
  [ex_started; ex_event "a" "B" 1000 None no_args;
   {| name := "other"; cat := "toplevel"; ph := "X"; pid := 2; tid := 7;
      ts := 1500; dur := Some 100%Q; args := no_args |};
   ex_event "ParseHTML" "X" 2000 (Some 3000%Q) no_args;
   ex_event "a" "E" 10000 None no_args].

Lemma only_main_thread_events_matter_witness :
  ex_tasks ex_noise = ex_tasks ex_run /\ ex_main ex_noise = ex_main ex_run.
Proof.
  apply (only_main_thread_events_matter string "Other" ex_table
           ex_noise ex_run ex_started (Some "frame1") (Some "frame1")
           ltac:(vm_compute; reflexivity) ltac:(vm_compute; reflexivity)
           ltac:(vm_compute; reflexivity)).
Defined.

Lemma no_main_thread_events_witness :
  ex_tasks [ex_started] = Ok [] /\ ex_main [ex_started] = Ok [].
Proof.
  apply (no_main_thread_events string "Other" ex_table [ex_started]
           ex_started (Some "frame1") ltac:(vm_compute; reflexivity)).
  repeat constructor.
Defined.

Lemma start_times_ascending_witness :
  exists tasks ti tj,
    ex_main ex_run = Ok tasks /\ tasks !! 0 = Some ti /\ tasks !! 1 = Some tj /\
    exists si sj : Q,
      startTime ti = Fin si /\ startTime tj = Fin sj /\
      (0 <= si)%Q /\ (si <= sj)%Q.
Proof.
  eexists _, _, _. split; [vm_compute; reflexivity|].
  split; [reflexivity|]. split; [reflexivity|].
  apply (proj2 (start_times_ascending string "Other" ex_table ex_run _
                  ltac:(unfold ex_run; ascending)
                  ltac:(vm_compute; reflexivity))
           0 1 _ _ ltac:(lia) eq_refl eq_refl).
Defined.

(** Two Complete tasks, one after the other. *)
Definition ex_two : list TraceEvent :=
  [ex_started; ex_event "a" "X" 0 (Some 10%Q) no_args;
   ex_event "b" "X" 20 (Some 5%Q) no_args].

Lemma toplevel_tasks_do_not_overlap_witness :
  exists tasks ti tj,
    ex_main ex_two = Ok tasks /\ tasks !! 0 = Some ti /\ tasks !! 1 = Some tj /\
    exists ei sj : Q,
      endTime ti = Fin ei /\ startTime tj = Fin sj /\ (ei <= sj)%Q.
Proof.
  eexists _, _, _. split; [vm_compute; reflexivity|].
  split; [reflexivity|]. split; [reflexivity|].
  eapply (toplevel_tasks_do_not_overlap string "Other" ex_table ex_two _
            ltac:(unfold ex_two; ascending)) with (i := 0) (j := 1);
    [right; vm_compute; reflexivity|lia|reflexivity|reflexivity|reflexivity].
Defined.

Lemma durations_not_negative_witness :
  exists tasks t,
    ex_main ex_run = Ok tasks /\ tasks !! 0 = Some t /\
    exists s e d : Q,
      startTime t = Fin s /\ endTime t = Fin e /\ duration t = Fin d /\
      (s <= e)%Q /\ (0 <= d)%Q.
Proof.
  eexists _, _. split; [vm_compute; reflexivity|]. split; [reflexivity|].
  apply (durations_not_negative string "Other" ex_table ex_run _
           ltac:(unfold ex_run; ascending)
           ltac:(repeat constructor; intros d [= <-]; unfold Qle; simpl; lia)
           ltac:(vm_compute; reflexivity) 0 _ eq_refl).
Defined.

(** A task that names a URL, a task in it, and a task in that one. *)
Definition ex_deep : list TraceEvent :=
  [ex_started;
   ex_event "a" "X" 0 (Some 10%Q)
     {| data := Some {| url := Some "http://a.example/";
                        stackTrace := None; frames := None; page := None |};
        args_name := None |};
   ex_event "b" "X" 1 (Some 5%Q) no_args;
   ex_event "c" "X" 2 (Some 1%Q) no_args].

Lemma url_along_ancestors_witness :
  exists tasks ti ta,
    ex_main ex_deep = Ok tasks /\ tasks !! 2 = Some ti /\
    tasks !! 0 = Some ta /\ attributableURL ti = attributableURL ta.
Proof.
  eexists _, _, _. split; [vm_compute; reflexivity|].
  split; [reflexivity|]. split; [reflexivity|].
  refine (proj2 (url_along_ancestors string "Other" ex_table ex_deep _
                   ltac:(vm_compute; reflexivity) 2 _ eq_refl)
            0 _ _ eq_refl eq_refl).
  apply on_path_up. apply on_path_up. apply on_path_here.
Defined.

(** ** Further examples: the event that names the main thread *)

Lemma findTracingStartedEvt_result_witness :
  name ex_started = "TracingStartedInPage" /\
  (exists d, data (args ex_started) = Some d /\ Some "frame1" = page d) /\
  (ex_started ∈ [ex_started] \/
   exists sib threadNameEvt,
     sib ∈ [ex_started] /\ name sib = "TracingStartedInBrowser" /\
     threadNameEvt ∈ [ex_started] /\
     isThreadNameEvt (pid ex_started) threadNameEvt = true /\
     tid ex_started = tid threadNameEvt /\ ts ex_started = ts sib).
Proof.
  apply (findTracingStartedEvt_result [ex_started] ex_started (Some "frame1")
           ltac:(vm_compute; reflexivity)).
Defined.

Lemma no_tracing_started_event_witness :
  findTracingStartedEvt [ex_event "a" "X" 0 (Some 10%Q) no_args]
  = Throw LHError_NO_TRACING_STARTED /\
  ex_main [ex_event "a" "X" 0 (Some 10%Q) no_args]
  = Throw LHError_NO_TRACING_STARTED.
Proof.
  destruct (no_tracing_started_event string "Other" ex_table
              [ex_event "a" "X" 0 (Some 10%Q) no_args]) as (Hnone & _ & Hall).
  assert (H : findTracingStartedEvt [ex_event "a" "X" 0 (Some 10%Q) no_args]
              = Throw LHError_NO_TRACING_STARTED).
  { apply Hnone. repeat constructor; discriminate. }
  split; [exact H|]. by destruct (Hall _ H).
Defined.

(** A 'TracingStartedInPage' event that has lost its argument data. *)
Definition ex_bare : TraceEvent :=
  {| name := "TracingStartedInPage"; cat := "disabled-by-default-devtools.timeline";
     ph := "I"; pid := 1; tid := 1; ts := 0; dur := None; args := no_args |}.

Lemma legacy_tracing_started_witness :
  findTracingStartedEvt ex_run = Ok (ex_started, Some "frame1") /\
  findTracingStartedEvt [ex_event "a" "X" 0 None no_args; ex_bare; ex_started]
  = Throw TypeError.
Proof.
  split.
  - apply (legacy_tracing_started ex_run [] _ ex_started eq_refl).
    + repeat constructor; discriminate.
    + constructor.
    + reflexivity.
  - apply (legacy_tracing_started _ [ex_event "a" "X" 0 None no_args]
             [ex_started] ex_bare eq_refl).
    + repeat constructor; discriminate.
    + repeat constructor; discriminate.
    + reflexivity.
Defined.

(** A trace of a newer browser: the browser event lists a frame within
    the main frame and the main frame, in process 1, whose main thread
    is thread 4. *)
Definition ex_browser_evt : TraceEvent :=
  {| name := "TracingStartedInBrowser";
     cat := "disabled-by-default-devtools.timeline";
     ph := "I"; pid := 9; tid := 9; ts := 5; dur := None;
     args := {| data := Some {| url := None; stackTrace := None;
                                frames := Some
                                  [{| frame := "sub"; fparent := Some "main";
                                      processId := Some 3%Z |};
                                   {| frame := "main"; fparent := None;
                                      processId := Some 1%Z |}];
                                page := None |};
                args_name := None |} |}.

Definition ex_thread_name : TraceEvent :=
  {| name := "thread_name"; cat := "__metadata"; ph := "M"; pid := 1;
     tid := 4; ts := 0; dur := None;
     args := {| data := None; args_name := Some "CrRendererMain" |} |}.

Definition ex_browser : list TraceEvent :=
  [ex_started; ex_thread_name; ex_browser_evt].

Lemma browser_tracing_started_witness :
  exists e,
    findTracingStartedEvt ex_browser = Ok (e, Some "main") /\
    name e = "TracingStartedInPage" /\ pid e = 1%Z /\
    tid e = 4%Z /\ ts e = 5%Q /\ cat e = cat ex_browser_evt /\
    ph e = "I" /\ dur e = None.
Proof.
  eapply (browser_tracing_started ex_browser ex_browser_evt ex_thread_name
            _ _ {| frame := "main"; fparent := None; processId := Some 1%Z |}
            1%Z).
  - exists [ex_started; ex_thread_name], []. repeat split; repeat constructor.
  - reflexivity.
  - reflexivity.
  - eexists [_], []. repeat split; repeat constructor.
  - reflexivity.
  - exists [ex_started], [ex_browser_evt]. repeat split; repeat constructor.
Defined.

(** ** Further examples: the estimator *)


(** Two tasks, the second of which goes on after the end of the window
    from 0 to 40. *)
Definition ex_window : list ToplevelEvent :=
  [{| start := 0; end_ := 10; tl_duration := 10 |};
   {| start := 20; end_ := 50; tl_duration := 30 |}].

Lemma window_durations_witness :
  let durations := (getMainThreadTopLevelEventDurations ex_window 0 40).1 in
  StronglySorted Qle durations /\
  durations ≡ₚ map (duration_in_window 0)
                   (List.filter (in_window 0 40) ex_window).
Proof. apply (window_durations ex_window 0 40). Defined.

Lemma window_clipped_length_witness :
  (getMainThreadTopLevelEventDurations ex_window 0 40).2 = 10%Q /\
  (getMainThreadTopLevelEventDurations ex_window 0 40).2
  = (duration_in_window 0 {| start := 20; end_ := 50; tl_duration := 30 |}
     - (40 - start_in_window 0
               {| start := 20; end_ := 50; tl_duration := 30 |}))%Q.
Proof.
  split; [vm_compute; reflexivity|].
  apply (proj2 (window_clipped_length ex_window 0 40)
           [{| start := 0; end_ := 10; tl_duration := 10 |}]
           {| start := 20; end_ := 50; tl_duration := 30 |} []
           eq_refl eq_refl (List.Forall_nil _)).
Defined.


(** Two tasks within the window from 0 to 40. *)
Definition ex_inside : list ToplevelEvent :=
  [{| start := 0; end_ := 10; tl_duration := 10 |};
   {| start := 20; end_ := 35; tl_duration := 15 |}].

Lemma default_percentiles_witness :
  exists r50 r75 r90 r99 r100 : RiskEntry,
    getRiskToResponsiveness_default ex_inside 0 40
    = Ok [r50; r75; r90; r99; r100] /\
    num_eq (time r50) (Fin 18.5) /\ num_eq (time r75) (Fin 23.5) /\
    num_eq (time r90) (Fin 27) /\ num_eq (time r99) (Fin 30.6) /\
    num_eq (time r100) (Fin 31) /\
    map percentile [r50; r75; r90; r99; r100] = [0.5; 0.75; 0.9; 0.99; 1]%Q /\
    Forall (fun r => at_least_base (time r)) [r50; r75; r90; r99; r100].
Proof.
  destruct (default_percentiles ex_inside 0 40)
    as (r50 & r75 & r90 & r99 & r100 & Hrun & Hmap & Hbase).
  vm_compute in Hrun. injection Hrun as <- <- <- <- <-.
  eexists _, _, _, _, _. split; [vm_compute; reflexivity|].
  do 5 (split; [vm_compute; reflexivity|]).
  split; [exact Hmap|exact Hbase].
Defined.
